(** * Translation string lookup helpers (homeassistant/helpers/translation.py)

    A shallow embedding of the translation helper: the flattener, the
    path resolver, the file loader, the resource aggregator, the cache
    filling coroutine and the top-level entry point, followed by the
    properties stated about them.

    Python values are modelled as follows.
    - A [dict] is an association list in insertion order with unique keys
      (Python dicts iterate in insertion order; [dict_set] keeps the slot
      of an existing key and appends a new one).
    - A [set] of component names is the list of its elements in the order
      in which the interpreter enumerates it.
    - The process-wide cache [hass.data[TRANSLATION_STRING_CACHE]] is only
      ever looked up by key, and is a [gmap].
    - A parsed JSON document is a [json] value.
    - [pathlib] paths are modelled in their POSIX flavour. *)

From Stdlib Require Import ZArith Ascii Floats.SpecFloat.
From stdpp Require Import base option list strings gmap.

Open Scope string_scope.

(** ** Strings *)

Definition dot : ascii := "."%char.
Definition slash : ascii := "/"%char.

(** [sep in s] for a one-character [sep]. *)
Fixpoint contains (sep : ascii) (s : string) : bool :=
  match s with
  | EmptyString => false
  | String c s' => if Ascii.eqb c sep then true else contains sep s'
  end.

(** [s.split(sep)] for a one-character [sep]: never the empty list. *)
Fixpoint split (sep : ascii) (s : string) : list string :=
  match s with
  | EmptyString => [EmptyString]
  | String c s' =>
      if Ascii.eqb c sep then EmptyString :: split sep s'
      else match split sep s' with
           | [] => [String c EmptyString]
           | p :: ps => String c p :: ps
           end
  end.

(** [s.split(sep, 1)]: at most one cut, at the first [sep]. *)
Fixpoint split1 (sep : ascii) (s : string) : list string :=
  match s with
  | EmptyString => [EmptyString]
  | String c s' =>
      if Ascii.eqb c sep then [EmptyString; s']
      else match split1 sep s' with
           | [] => [String c EmptyString]
           | p :: ps => String c p :: ps
           end
  end.

(** [sep.join(parts)]. *)
Fixpoint join (sep : string) (parts : list string) : string :=
  match parts with
  | [] => ""
  | [p] => p
  | p :: ps => p +:+ sep +:+ join sep ps
  end.

(** [parts[-1]] and [parts[0]] of a list produced by [split]. *)
Definition last_part (parts : list string) : string := List.last parts "".
Definition first_part (parts : list string) : string := List.hd "" parts.

(** [s.lstrip(sep)]. *)
Fixpoint lstrip (sep : ascii) (s : string) : string :=
  match s with
  | EmptyString => EmptyString
  | String c s' => if Ascii.eqb c sep then lstrip sep s' else s
  end.

(** ** Dictionaries *)

Abbreviation dict V := (list (string * V)).

Section Dict.
Context {V : Type}.

(** [d.get(k)] *)
Fixpoint dict_get (k : string) (d : dict V) : option V :=
  match d with
  | [] => None
  | (k', v) :: d' => if String.eqb k k' then Some v else dict_get k d'
  end.

(** [k in d] *)
Definition dict_mem (k : string) (d : dict V) : bool :=
  match dict_get k d with Some _ => true | None => false end.

(** [d[k] = v] *)
Fixpoint dict_set (k : string) (v : V) (d : dict V) : dict V :=
  match d with
  | [] => [(k, v)]
  | (k', v') :: d' =>
      if String.eqb k k' then (k', v) :: d' else (k', v') :: dict_set k v d'
  end.

(** [d.update(other)] *)
Definition dict_update (d other : dict V) : dict V :=
  fold_left (fun acc kv => dict_set kv.1 kv.2 acc) other d.

Definition keys (d : dict V) : list string := d.*1.
End Dict.

(** ** Parsed JSON documents *)

Unset Elimination Schemes.
Inductive json : Type :=
| JNull
| JBool (b : bool)
| JInt (z : Z)
| JFloat (f : spec_float)
| JStr (s : string)
| JList (l : list json)
| JDict (d : list (string * json)).
Set Elimination Schemes.

(** A translation tree is the top-level mapping of a translation file. *)
Abbreviation tree := (dict json).

(** [isinstance(value, dict)] *)
Definition is_dict (v : json) : bool :=
  match v with JDict _ => true | _ => false end.

(** Python truthiness, as used by [x or {}]. *)
Definition truthy (v : json) : bool :=
  match v with
  | JNull => false
  | JBool b => b
  | JInt z => negb (Z.eqb z 0)
  | JFloat f => match f with S754_zero _ => false | _ => true end
  | JStr s => negb (String.eqb s "")
  | JList l => match l with [] => false | _ => true end
  | JDict d => match d with [] => false | _ => true end
  end.

(** ** Flattener *)

(** [recursive_flatten], by recursion on the document: a mapping is walked
    in insertion order, a nested mapping is flattened under the extended
    prefix and merged with [update], any other value is stored under
    [prefix + key]. *)
Fixpoint flatten_value (prefix : string) (data : json) {struct data} : dict json :=
  match data with
  | JDict items =>
      fold_left
        (fun output kv =>
           if is_dict kv.2
           then dict_update output (flatten_value (prefix +:+ kv.1 +:+ ".") kv.2)
           else dict_set (prefix +:+ kv.1) kv.2 output)
        items []
  | _ => []
  end.

Definition recursive_flatten (prefix : string) (data : tree) : dict json :=
  flatten_value prefix (JDict data).

Definition flatten (data : tree) : dict json := recursive_flatten "" data.

(** ** Paths (pathlib, POSIX flavour)

    A path is its root (empty, one slash or two slashes) and its parts.
    Parsing a string drops empty parts and single dots; an anchored right
    operand of the slash operator replaces the left one. *)

Record PurePath := { path_root : string; path_parts : list string }.

Definition splitroot (part : string) : string * string :=
  match part with
  | String c _ =>
      if Ascii.eqb c slash then
        let stripped := lstrip slash part in
        if Nat.eqb (String.length part - String.length stripped) 2
        then ("//", stripped) else ("/", stripped)
      else ("", part)
  | EmptyString => ("", part)
  end.

Definition parse_path (s : string) : PurePath :=
  let '(root, rel) := splitroot s in
  {| path_root := root;
     path_parts := filter (fun x => x <> "" /\ x <> ".") (split slash rel) |}.

(** [p / key] *)
Definition truediv (p : PurePath) (key : string) : PurePath :=
  let q := parse_path key in
  if String.eqb (path_root q) "" then
    {| path_root := path_root p; path_parts := path_parts p ++ path_parts q |}
  else q.

Declare Scope path_scope.
Delimit Scope path_scope with path.
Infix "/" := truediv : path_scope.
Bind Scope path_scope with PurePath.

(** [str(p)] *)
Definition path_str (p : PurePath) : string :=
  let s := path_root p +:+ join "/" (path_parts p) in
  if String.eqb s "" then "." else s.

(** [p.name] *)
Definition path_name (p : PurePath) : string := List.last (path_parts p) "".

(** ** Integrations *)

(** Modelled from the spec: the integration descriptor of
    [homeassistant.loader], which is not among the sources; it carries the
    file-root path of the integration, whose last part is the root
    directory name, and the display name.  The helper reads them as
    [integration.file_path], [integration.file_path.name] and
    [integration.name]. *)
Record Integration := { file_path : PurePath; name : string }.

(** ** Path resolver *)

Definition component_translation_file
    (component language : string) (integration : Integration) : option string :=
  let parts := split dot component in
  let domain := last_part parts in
  let is_platform := Nat.eqb (length parts) 2 in
  if is_platform then
    let filename := first_part parts +:+ "." +:+ language +:+ ".json" in
    Some (path_str (file_path integration / ".translations" / filename)%path)
  else if negb (String.eqb (path_name (file_path integration)) domain) then
    None
  else
    let filename := language +:+ ".json" in
    Some (path_str (file_path integration / ".translations" / filename)%path).

(** ** Exceptions and results *)

Inductive exn :=
| IntegrationNotFound (domain : string)
| LoadError (path : string)
| AssertionError
| KeyError (key : string).

Inductive outcome (A : Type) :=
| Return (a : A)
| Raise (e : exn).
Arguments Return {A} a.
Arguments Raise {A} e.

#[global] Instance outcome_ret : MRet outcome := fun A a => Return a.
#[global] Instance outcome_bind : MBind outcome := fun A B f m =>
  match m with Return a => f a | Raise e => Raise e end.

(** [d[k]] *)
Definition getitem {V} (k : string) (d : dict V) : outcome V :=
  match dict_get k d with Some v => Return v | None => Raise (KeyError k) end.

(** A [for] loop over [l] that threads [acc] and stops at the first raise. *)
Fixpoint for_each {A S} (l : list A) (acc : S) (body : A -> S -> outcome S) : outcome S :=
  match l with
  | [] => Return acc
  | x :: l' => acc' ← body x acc; for_each l' acc' body
  end.

(** ** Resource aggregator *)

(** One turn of the loop of [build_resources]. *)
Definition build_resources_step
    (translation_cache : gmap string tree) (component : string) (resources : dict tree)
    : outcome (dict tree) :=
  let domain :=
    if negb (contains dot component) then component
    else first_part (split1 dot component) in
  let resources :=
    if negb (dict_mem domain resources) then dict_set domain [] resources
    else resources in
  (* Add the translations for this component to the domain resources. *)
  target ← getitem domain resources;
  translations ← match translation_cache !! component with
                 | Some t => Return t
                 | None => Raise (KeyError component)
                 end;
  Return (dict_set domain (dict_update target translations) resources).

Definition build_resources
    (translation_cache : gmap string tree) (components : list string)
    : outcome (dict tree) :=
  for_each components [] (build_resources_step translation_cache).

(** ** The host application

    [hass.config.components] and [hass.data[TRANSLATION_STRING_CACHE]] are
    the state the helper reads and writes; an absent cache and an empty one
    behave alike.  [calls] records the calls made to the integration
    registry and to the document loader: those of one fetch in the order
    in which the fetch makes them, and those of two gathered fetches fetch
    by fetch, whatever their order in time. *)

Inductive call :=
| Resolve (domain : string)
| Load (path : string).

Record HomeAssistant := {
  config_components : list string;
  translation_string_cache : gmap string (gmap string tree);
  calls : list call }.

(** The collaborators outside this module: the integration registry, the
    JSON loader, the enumeration of config flows and the event loop.
    [None] stands for the collaborator raising; [second_fails_first] is
    the event loop's say on which of two gathered coroutines that both
    fail, with the failures given, fails before the other. *)
Record Externals := {
  async_get_integration : string -> option Integration;
  load_json : string -> option json;
  async_get_config_flows : list string;
  second_fails_first : exn -> exn -> bool }.

(** A coroutine: it runs on the host state and either returns or raises;
    what it wrote before raising stays written. *)
Definition coro (A : Type) : Type := HomeAssistant -> HomeAssistant * outcome A.

#[global] Instance coro_ret : MRet coro := fun A a hass => (hass, Return a).
#[global] Instance coro_bind : MBind coro := fun A B f m hass =>
  match m hass with
  | (hass', Return a) => f a hass'
  | (hass', Raise e) => (hass', Raise e)
  end.

Definition lift {A} (o : outcome A) : coro A := fun hass => (hass, o).

Definition with_calls (hass : HomeAssistant) (cs : list call) : HomeAssistant :=
  {| config_components := config_components hass;
     translation_string_cache := translation_string_cache hass;
     calls := cs |}.

Definition with_cache (hass : HomeAssistant) (c : gmap string (gmap string tree))
    : HomeAssistant :=
  {| config_components := config_components hass;
     translation_string_cache := c;
     calls := calls hass |}.

Definition record_calls (cs : list call) : coro unit := fun hass =>
  (with_calls hass (calls hass ++ cs), Return ()).

Definition set_cache (c : gmap string (gmap string tree)) : coro unit := fun hass =>
  (with_cache hass c, Return ()).

Definition get_cache : coro (gmap string (gmap string tree)) := fun hass =>
  (hass, Return (translation_string_cache hass)).

(** [cache.setdefault(language, {})] *)
Definition cache_setdefault (language : string) : coro (gmap string tree) :=
  cache ← get_cache;
  match cache !! language with
  | Some translation_cache => mret translation_cache
  | None => set_cache (<[language := ∅]> cache);; mret ∅
  end.

(** The partition [translation_cache] as it stands now. *)
Definition cache_partition (language : string) : coro (gmap string tree) :=
  cache ← get_cache; mret (default ∅ (cache !! language)).

(** [translation_cache[component] = translations] *)
Definition cache_store (language component : string) (translations : tree) : coro unit :=
  cache ← get_cache; set_cache (alter (insert component translations) language cache).

(** [translation_cache.update(loaded_translations)] *)
Fixpoint cache_update (language : string) (loaded_translations : dict tree) : coro unit :=
  match loaded_translations with
  | [] => mret ()
  | (component, translations) :: rest =>
      cache_store language component translations;; cache_update language rest
  end.

(** A [for] loop in a coroutine. *)
Fixpoint for_each_co {A S} (l : list A) (acc : S) (body : A -> S -> coro S) : coro S :=
  match l with
  | [] => mret acc
  | x :: l' => acc' ← body x acc; for_each_co l' acc' body
  end.

(** The first domain the registry does not know, if any. *)
Fixpoint resolve_all (ext : Externals) (domains : list string) : outcome (list Integration) :=
  match domains with
  | [] => Return []
  | domain :: rest =>
      match async_get_integration ext domain with
      | Some integration =>
          integrations ← resolve_all ext rest; Return (integration :: integrations)
      | None => Raise (IntegrationNotFound domain)
      end
  end.

(** [asyncio.gather] over [async_get_integration(hass, domain)] for each of
    [domains]: every lookup is started, and a failed lookup fails the whole. *)
Definition gather_integrations (ext : Externals) (domains : list string)
    : coro (list Integration) :=
  record_calls (Resolve <$> domains);; lift (resolve_all ext domains).

(** ** File loader

    The loader runs as a job of the host and is awaited; what it raises is
    raised by the await. *)

(** One turn of the loop of [load_translations_files]. *)
Definition load_translations_file
    (ext : Externals) (entry : string * string) (loaded : dict tree) : coro (dict tree) :=
  let '(component, translation_file) := entry in
  record_calls [Load translation_file];;
  loaded_json ← lift (match load_json ext translation_file with
                      | Some j => Return j
                      | None => Raise (LoadError translation_file)
                      end);
  match loaded_json with
  | JDict d => mret (dict_set component d loaded)
  | _ => lift (Raise AssertionError)
  end.

Definition load_translations_files (ext : Externals) (translation_files : dict string)
    : coro (dict tree) :=
  for_each_co translation_files [] (load_translations_file ext).

(** ** Cache manager *)

(** One turn of the loop that backfills ["title"]: the tree is changed in
    place, and so keeps its slot among the loaded translations. *)
Definition backfill_title
    (missing_integrations : dict Integration) (entry : string * tree)
    (updated : dict tree) : outcome (dict tree) :=
  let '(loaded, translations) := entry in
  if contains dot loaded then Return (updated ++ [(loaded, translations)])%list
  else if negb (dict_mem "title" translations) then
    integration ← getitem loaded missing_integrations;
    Return (updated ++ [(loaded, dict_set "title" (JStr (name integration)) translations)])%list
  else Return (updated ++ [(loaded, translations)])%list.

Definition backfill_titles
    (missing_integrations : dict Integration) (loaded_translations : dict tree)
    : outcome (dict tree) :=
  for_each loaded_translations [] (backfill_title missing_integrations).

(** One turn of the loop that determines the paths of the missing
    components and platforms. *)
Definition determine_path
    (language : string) (missing_integrations : dict Integration)
    (loaded : string) (missing_files : dict string) : coro (dict string) :=
  let parts := split dot loaded in
  let domain := last_part parts in
  integration ← lift (getitem domain missing_integrations);
  let path := component_translation_file loaded language integration in
  (* No translation available *)
  match path with
  | None => cache_store language loaded [];; mret missing_files
  | Some path => mret (dict_set loaded path missing_files)
  end.

Definition async_get_component_resources
    (ext : Externals) (language : string) (components : list string)
    : coro (dict tree) :=
  (* Get cache for this language *)
  translation_cache ← cache_setdefault language;
  (* Calculate the missing components and platforms *)
  let missing_loaded := filter (fun c => translation_cache !! c = None) components in
  let missing_domains :=
    remove_dups ((fun loaded => last_part (split dot loaded)) <$> missing_loaded) in
  integrations ← gather_integrations ext missing_domains;
  let missing_integrations := dict_update [] (zip missing_domains integrations) in
  (* Determine paths of missing components/platforms *)
  missing_files ← for_each_co missing_loaded []
                    (determine_path language missing_integrations);
  (* Load missing files *)
  match missing_files with
  | [] => mret ()
  | _ :: _ =>
      loaded_translations ← load_translations_files ext missing_files;
      (* Translations that miss "title" will get integration put in. *)
      loaded_translations ← lift (backfill_titles missing_integrations loaded_translations);
      (* Update cache *)
      cache_update language loaded_translations
  end;;
  translation_cache ← cache_partition language;
  lift (build_resources translation_cache components).

(** ** Translation service *)

(** [translations.get(category) or {}] *)
Definition get_or_empty (category : string) (translations : tree) : json :=
  match dict_get category translations with
  | Some v => if truthy v then v else JDict []
  | None => JDict []
  end.

(** [{domain: {category: resources[domain].get(category) or {}} for domain in resources}] *)
Definition narrow (category : string) (resources : dict tree) : outcome (dict tree) :=
  for_each (keys resources) [] (fun domain narrowed =>
    translations ← getitem domain resources;
    Return (dict_set domain [(category, get_or_empty category translations)] narrowed)).

(** [{"component": resources}] as a document. *)
Definition under_component (resources : dict tree) : tree :=
  [("component", JDict ((fun kv => (kv.1, JDict kv.2)) <$> resources))].

(** Category filter, then flatten. *)
Definition present (category : option string) (resources : dict tree) : outcome (dict json) :=
  resources ← match category with
              | Some category => narrow category resources
              | None => Return resources
              end;
  Return (flatten (under_component resources)).

(** [{**base_resources, **resources}] *)
Definition dict_merge {V} (base_resources resources : dict V) : dict V :=
  dict_update (dict_update [] base_resources) resources.

(** The component set of a request. *)
Definition select_components
    (ext : Externals) (hass : HomeAssistant) (integration : option string)
    (config_flow : option bool) : list string :=
  match integration with
  | Some integration => [integration]
  | None =>
      if default false config_flow
      then remove_dups (config_components hass ++ async_get_config_flows ext)
      else remove_dups (config_components hass)
  end.

(** [asyncio.gather] awaited over the one or two fetches of a
    request, under the process-wide lock, which keeps any other request
    out.  Every fetch is run to its end, also when the other one fails:
    [gather] passes on the failure that comes first and does not cancel
    the other fetch, so the host is taken once both are done.  The two
    fetches work on the partitions of two different languages and share
    nothing else they write; their effects on the host are composed here
    with the first fetch first.  When both fail, the event loop decides
    whose failure is passed on. *)
Definition gather_fetches {A} (ext : Externals) (first : coro A) (second : option (coro A))
    : coro (A * option A) := fun hass =>
  let '(hass1, result_0) := first hass in
  match second with
  | None => (hass1, r0 ← result_0; Return (r0, None))
  | Some second =>
      let '(hass2, result_1) := second hass1 in
      (hass2,
       match result_0, result_1 with
       | Return r0, Return r1 => Return (r0, Some r1)
       | Raise e, Return _ => Raise e
       | Return _, Raise e => Raise e
       | Raise e0, Raise e1 => Raise (if second_fails_first ext e0 e1 then e1 else e0)
       end)
  end.

Definition async_get_translations
    (ext : Externals) (language : string) (category integration : option string)
    (config_flow : option bool) : coro (dict json) :=
  hass ← (fun hass => (hass, Return hass));
  let components := select_components ext hass integration config_flow in
  let tasks_0 := async_get_component_resources ext language components in
  (* Fetch the English resources, as a fallback for missing keys *)
  let tasks_1 := if negb (String.eqb language "en")
                 then Some (async_get_component_resources ext "en" components)
                 else None in
  results ← gather_fetches ext tasks_0 tasks_1;
  resources ← lift (present category results.1);
  match results.2 with
  | Some base_resources =>
      base_resources ← lift (present category base_resources);
      mret (dict_merge base_resources resources)
  | None => mret resources
  end.

(** ** Structural induction on documents *)

Definition json_ind (P : json -> Prop)
    (HNull : P JNull) (HBool : forall b, P (JBool b)) (HInt : forall z, P (JInt z))
    (HFloat : forall f, P (JFloat f)) (HStr : forall s, P (JStr s))
    (HList : forall l, Forall P l -> P (JList l))
    (HDict : forall d, Forall (fun kv => P kv.2) d -> P (JDict d))
    : forall v, P v :=
  fix go (v : json) : P v :=
    match v with
    | JNull => HNull
    | JBool b => HBool b
    | JInt z => HInt z
    | JFloat f => HFloat f
    | JStr s => HStr s
    | JList l =>
        HList l ((fix all (l : list json) : Forall P l :=
                    match l with
                    | [] => Forall_nil_2 P
                    | x :: l' => Forall_cons_2 P x l' (go x) (all l')
                    end) l)
    | JDict d =>
        HDict d ((fix all (d : list (string * json)) : Forall (fun kv => P kv.2) d :=
                    match d with
                    | [] => Forall_nil_2 _
                    | kv :: d' => Forall_cons_2 _ kv d' (go kv.2) (all d')
                    end) d)
    end.

(** ** Specification-side views

    Reference definitions with which the functions above are compared:
    the leaves of a document, the merge per domain, the category filter
    and the phases of the cache fill, each stated outright rather than as
    a loop. *)

(** *** Documents *)

(** In every mapping of the document the keys are pairwise distinct, as in
    any Python dict. *)
Fixpoint well_formed (v : json) : bool :=
  match v with
  | JDict d => bool_decide (NoDup d.*1) && forallb (fun kv => well_formed kv.2) d
  | JList l => forallb well_formed l
  | _ => true
  end.

(** No key on the mapping spine of the document contains a dot. *)
Fixpoint dot_free (v : json) : bool :=
  match v with
  | JDict d => forallb (fun kv => negb (contains dot kv.1) && dot_free kv.2) d
  | _ => true
  end.

(** The leaves of a document: the values that are not mappings. *)
Fixpoint leaves (v : json) : nat :=
  match v with
  | JDict d => sum_list_with (fun kv => leaves kv.2) d
  | _ => 1
  end.

(** Every leaf with the keys of its ancestors, outermost first, in
    iteration order. *)
Fixpoint leaf_paths (v : json) : list (list string * json) :=
  match v with
  | JDict d =>
      d ≫= (fun kv => (fun pv => (kv.1 :: pv.1, pv.2)) <$> leaf_paths kv.2)
  | _ => [([], v)]
  end.

(** The entries [recursive_flatten] is meant to produce, as a plain list. *)
Fixpoint entries (prefix : string) (v : json) : list (string * json) :=
  match v with
  | JDict d =>
      d ≫= (fun kv =>
              if is_dict kv.2 then entries (prefix +:+ kv.1 +:+ ".") kv.2
              else [(prefix +:+ kv.1, kv.2)])
  | _ => []
  end.

(** The entries owed to one item of a mapping. *)
Definition item_entries (prefix : string) (kv : string * json) : list (string * json) :=
  if is_dict kv.2 then entries (prefix +:+ kv.1 +:+ ".") kv.2
  else [(prefix +:+ kv.1, kv.2)].

(** The document used as the example of flattening. *)
Definition flatten_example : tree :=
  [("a", JDict [("b", JStr "x"); ("c", JDict [("d", JStr "y")])])].

(** *** Aggregation *)

(** The substring before the first dot, or the whole string. *)
Fixpoint before_dot (s : string) : string :=
  match s with
  | EmptyString => EmptyString
  | String c s' => if Ascii.eqb c dot then EmptyString else String c (before_dot s')
  end.

(** The cached trees of the requested components of one domain, in the
    order in which the components are enumerated. *)
Definition domain_trees
    (translation_cache : gmap string tree) (components : list string) (domain : string)
    : list tree :=
  omap (fun c => translation_cache !! c)
       (filter (fun c => before_dot c = domain) components).

(** Their shallow merge, later trees overwriting earlier ones key by key. *)
Definition merged_tree
    (translation_cache : gmap string tree) (components : list string) (domain : string)
    : tree :=
  fold_left dict_update (domain_trees translation_cache components domain) [].

(** The value a key ends up with when [trees] are merged in turn: that of
    the last tree that has the key. *)
Definition last_value (k : string) (trees : list tree) (start : option json) : option json :=
  fold_left
    (fun found t => match dict_get k t with Some v => Some v | None => found end)
    trees start.

(** Python equality of two dicts: the same value under every key. *)
Definition dict_eq {V} (a b : dict V) : Prop := forall k, dict_get k a = dict_get k b.

(** Two looked-up values that are the same up to a comparison [R] of
    values: both absent, or both present and either the very same value or
    related by [R]. *)
Definition agree (R : json -> json -> Prop) (a b : option json) : Prop :=
  match a, b with
  | Some v, Some v' => v = v' \/ R v v'
  | None, None => True
  | _, _ => False
  end.

(** The cache used as the example of aggregation. *)
Definition hue_cache : gmap string tree :=
  <["hue" := [("title", JStr "Hue")]]> (<["hue.light" := [("name", JStr "Light")]]> ∅).

(** Two components of one domain whose trees share a top-level key. *)
Definition clash_cache : gmap string tree :=
  <["hue" := [("title", JStr "Hue")]]> (<["hue.light" := [("title", JStr "Light")]]> ∅).

(** *** Category filter *)

(** Every domain tree cut down to the one category. *)
Definition narrowed (category : string) (resources : dict tree) : dict tree :=
  (fun kv => (kv.1, [(category, get_or_empty category kv.2)])) <$> resources.

(** The values Python takes for false in [x or {}]: null, false, zero,
    and the empty string, list and mapping. *)
Definition empty_value (v : json) : Prop :=
  v = JNull \/ v = JBool false \/ v = JInt 0 \/ (exists s, v = JFloat (S754_zero s))
  \/ v = JStr "" \/ v = JList [] \/ v = JDict [].

(** The domain trees used as the examples of narrowing. *)
Definition light_tree : tree :=
  [("state", JDict [("on", JStr "On")]); ("config", JDict [("title", JStr "Setup")])].

Definition bare_tree : tree := [("config", JDict [("title", JStr "Setup")])].

(** *** The host state and the cache fill *)

(** The entry of the cache for a language and a component. *)
Definition cache_entry (hass : HomeAssistant) (language component : string) : option tree :=
  translation_string_cache hass !! language ≫= (fun part => part !! component).

(** The partition of a language, empty when there is none yet. *)
Definition partition_of (hass : HomeAssistant) (language : string) : gmap string tree :=
  default ∅ (translation_string_cache hass !! language).

Definition with_partition
    (language : string) (part : gmap string tree) (hass : HomeAssistant) : HomeAssistant :=
  with_cache hass (<[language := part]> (translation_string_cache hass)).

(** The ids a call finds missing, and the domains it resolves for them. *)
Definition missing_of (part : gmap string tree) (components : list string) : list string :=
  filter (fun c => part !! c = None) components.

Definition domains_of (missing : list string) : list string :=
  remove_dups ((fun loaded => last_part (split dot loaded)) <$> missing).

(** The path of a missing id, given the resolved integrations. *)
Definition path_in
    (language : string) (missing_integrations : dict Integration) (c : string)
    : option string :=
  match dict_get (last_part (split dot c)) missing_integrations with
  | Some integration => component_translation_file c language integration
  | None => None
  end.

(** The partition once the empty trees of the ids without a path are in. *)
Definition negative_markers
    (paths : string -> option string) (missing : list string) (part : gmap string tree)
    : gmap string tree :=
  fold_left (fun p c => match paths c with None => <[c := []]> p | Some _ => p end)
            missing part.

(** The batch of files to load. *)
Definition load_batch
    (paths : string -> option string) (missing : list string) (files : dict string)
    : dict string :=
  fold_left (fun f c => match paths c with Some path => dict_set c path f | None => f end)
            missing files.

(** The partition once the loaded trees are in. *)
Definition merge_loaded (loaded : dict tree) (part : gmap string tree) : gmap string tree :=
  fold_left (fun p kv => <[kv.1 := kv.2]> p) loaded part.

(** A file that loads and parses to a mapping. *)
Definition loadable (ext : Externals) (path : string) : bool :=
  match load_json ext path with Some (JDict _) => true | _ => false end.

(** What the registry and the path resolver say of a component: [None]
    when its integration does not resolve, [Some None] when it resolves and
    has no translation file, [Some (Some path)] when it has one. *)
Definition resolve_path (ext : Externals) (language c : string) : option (option string) :=
  match async_get_integration ext (last_part (split dot c)) with
  | Some integration => Some (component_translation_file c language integration)
  | None => None
  end.

(** *** A small installation

    The integration [hue] is a package with Dutch and English files for
    itself and for its [light] platform; [my] is a single file under
    [custom_components]; nothing else is registered, and no other file
    loads. *)

Definition hue_integration : Integration :=
  {| file_path := parse_path "/srv/components/hue"; name := "Philips Hue" |}.

Definition my_integration : Integration :=
  {| file_path := parse_path "/srv/custom_components"; name := "Mine" |}.

Definition demo_ext : Externals :=
  {| async_get_integration := fun d =>
       if String.eqb d "hue" then Some hue_integration
       else if String.eqb d "my" then Some my_integration
       else None;
     load_json := fun path =>
       if String.eqb path "/srv/components/hue/.translations/nl.json"
       then Some (JDict [("state", JDict [("on", JStr "Aan")])])
       else if String.eqb path "/srv/components/hue/.translations/light.nl.json"
       then Some (JDict [("name", JStr "Licht")])
       else if String.eqb path "/srv/components/hue/.translations/en.json"
       then Some (JDict [("title", JStr "Hue");
                         ("state", JDict [("on", JStr "On"); ("off", JStr "Off")])])
       else if String.eqb path "/srv/components/hue/.translations/light.en.json"
       then Some (JDict [("name", JStr "Light")])
       else None;
     async_get_config_flows := [];
     second_fails_first := fun _ _ => false |}.

Definition demo_hass : HomeAssistant :=
  {| config_components := ["hue"; "light.hue"; "my"];
     translation_string_cache := ∅;
     calls := [] |}.

(** The host with a Dutch entry for [hue] already cached. *)
Definition warm_hass : HomeAssistant :=
  {| config_components := ["hue"; "light.hue"; "my"];
     translation_string_cache := {["nl" := {["hue" := [("title", JStr "Tint")]]}]};
     calls := [] |}.

(** *** The components of a request *)

(** The components a request is for: the integration if one is given,
    and otherwise the loaded components, together with the integrations
    that have a config flow when [config_flow] is true. *)
Definition requested
    (ext : Externals) (hass : HomeAssistant) (integration : option string)
    (config_flow : option bool) (c : string) : Prop :=
  match integration with
  | Some i => c = i
  | None =>
      c ∈ config_components hass
      \/ (config_flow = Some true /\ c ∈ async_get_config_flows ext)
  end.

(** *** Loaded trees and their titles *)

(** The mapping a translation file parses to. *)
Definition parsed (ext : Externals) (path : string) : tree :=
  match load_json ext path with Some (JDict d) => d | _ => [] end.

(** A loaded tree once the title loop has seen it, the integration being
    looked up among the gathered ones. *)
Definition title_in (missing_integrations : dict Integration) (c : string) (t : tree) : tree :=
  if contains dot c then t
  else if dict_mem "title" t then t
  else match dict_get c missing_integrations with
       | Some integration => dict_set "title" (JStr (name integration)) t
       | None => t
       end.

(** The same, the integration being looked up in the registry. *)
Definition with_title (ext : Externals) (c : string) (t : tree) : tree :=
  if contains dot c then t
  else if dict_mem "title" t then t
  else match async_get_integration ext c with
       | Some integration => dict_set "title" (JStr (name integration)) t
       | None => t
       end.

(** The entry a fill that returns leaves for a component that had none. *)
Definition filled_entry (ext : Externals) (language c : string) : option tree :=
  match resolve_path ext language c with
  | Some None => Some []
  | Some (Some path) => Some (with_title ext c (parsed ext path))
  | None => None
  end.

(** * Properties *)

(** ** Strings *)

Lemma append_cons (x : ascii) (a b : string) : String x a +:+ b = String x (a +:+ b).
Proof. reflexivity. Qed.

Lemma append_nil_l (b : string) : "" +:+ b = b.
Proof. reflexivity. Qed.

Lemma append_assoc (a b c : string) : (a +:+ b) +:+ c = a +:+ b +:+ c.
Proof. induction a as [|x a IH]; [done | by rewrite !append_cons, IH]. Qed.

Lemma append_nil_r (a : string) : a +:+ "" = a.
Proof. induction a as [|x a IH]; [done | by rewrite append_cons, IH]. Qed.

Lemma split_no_sep sep s : contains sep s = false -> split sep s = [s].
Proof.
  induction s as [|c s IH]; simpl; [done |].
  destruct (Ascii.eqb c sep); [done |]. intros H. by rewrite IH.
Qed.

Lemma split_append sep a b :
  contains sep a = false ->
  split sep (a +:+ String sep b) = a :: split sep b.
Proof.
  induction a as [|c a IH]; [rewrite append_nil_l | rewrite append_cons]; simpl.
  - intros _. by rewrite Ascii.eqb_refl.
  - destruct (Ascii.eqb c sep); [done |]. intros H. by rewrite IH.
Qed.

Lemma contains_append sep a b :
  contains sep (a +:+ b) = contains sep a || contains sep b.
Proof.
  induction a as [|c a IH]; [done |]. rewrite append_cons. simpl.
  by destruct (Ascii.eqb c sep).
Qed.

(** Two dot-free segments, each followed by nothing or by a dotted rest,
    that spell the same string are the same segment. *)
Lemma segment_inj (k1 k2 r1 r2 : string) :
  contains dot k1 = false -> contains dot k2 = false ->
  (r1 = "" \/ exists r, r1 = String dot r) ->
  (r2 = "" \/ exists r, r2 = String dot r) ->
  k1 +:+ r1 = k2 +:+ r2 -> k1 = k2.
Proof.
  revert k2. induction k1 as [|c k1 IH]; intros [|c2 k2];
    rewrite ?append_nil_l, ?append_cons; simpl; try done.
  - intros _ H2 [->|[r ->]] _ E; [done |]. injection E as <- _.
    by rewrite Ascii.eqb_refl in H2.
  - intros H1 _ _ [->|[r ->]] E; [done |]. injection E as -> _.
    by rewrite Ascii.eqb_refl in H1.
  - destruct (Ascii.eqb c dot) eqn:?; [done |].
    destruct (Ascii.eqb c2 dot) eqn:?; [done |].
    intros H1 H2 Hr1 Hr2 E. injection E as -> E. f_equal. eauto.
Qed.

(** ** Dictionaries *)

Section DictFacts.
Context {V : Type}.
Implicit Types (d o : dict V) (k : string) (v : V).

Lemma dict_get_None k d : dict_get k d = None <-> k ∉ keys d.
Proof.
  unfold keys. induction d as [|[k' v'] d IH]; simpl.
  - split; [intros _; apply not_elem_of_nil | done].
  - rewrite not_elem_of_cons. destruct (String.eqb_spec k k') as [->|Hne].
    + split; [done | intros [? _]; done].
    + rewrite IH. tauto.
Qed.

Lemma dict_get_Some_elem k v d : dict_get k d = Some v -> (k, v) ∈ d.
Proof.
  induction d as [|[k' v'] d IH]; simpl; [done |].
  destruct (String.eqb_spec k k') as [->|Hne].
  - intros [= ->]. left.
  - intros H. right. auto.
Qed.

Lemma dict_get_elem k v d : NoDup (keys d) -> (k, v) ∈ d -> dict_get k d = Some v.
Proof.
  unfold keys. induction d as [|[k' v'] d IH]; simpl.
  - intros _ H. by apply elem_of_nil in H.
  - rewrite NoDup_cons. intros [Hk Hd] [[= -> ->]|Hin]%elem_of_cons.
    + by rewrite String.eqb_refl.
    + destruct (String.eqb_spec k k') as [->|Hne]; [| auto].
      exfalso. apply Hk. apply (list_elem_of_fmap_2 fst) in Hin. done.
Qed.

Lemma dict_mem_true k d : dict_mem k d = true <-> k ∈ keys d.
Proof.
  unfold dict_mem. destruct (dict_get k d) eqn:E.
  - split; [intros _ | done]. destruct (decide (k ∈ keys d)) as [|Hn]; [done |].
    apply dict_get_None in Hn. congruence.
  - apply dict_get_None in E. split; [done | intros; done].
Qed.

Lemma dict_get_set k k' v d :
  dict_get k (dict_set k' v d) = if String.eqb k k' then Some v else dict_get k d.
Proof.
  induction d as [|[k2 v2] d IH]; simpl; [done |].
  destruct (String.eqb_spec k' k2) as [->|Hne]; simpl.
  - by destruct (String.eqb k k2).
  - rewrite IH. destruct (String.eqb_spec k k2) as [->|?]; [| done].
    destruct (String.eqb_spec k2 k'); congruence.
Qed.

Lemma dict_set_fresh k v d : k ∉ keys d -> dict_set k v d = (d ++ [(k, v)])%list.
Proof.
  unfold keys. induction d as [|[k2 v2] d IH]; simpl; [done |].
  rewrite not_elem_of_cons. intros [Hne Hd].
  destruct (String.eqb_spec k k2); [done |]. by rewrite IH.
Qed.

Lemma keys_dict_set_elem k v d : k ∈ keys d -> keys (dict_set k v d) = keys d.
Proof.
  unfold keys. induction d as [|[k2 v2] d IH]; csimpl.
  - by intros ?%elem_of_nil.
  - destruct (String.eqb_spec k k2) as [->|Hne]; csimpl; [done |].
    intros [?|Hin]%elem_of_cons; [done |]. by rewrite IH.
Qed.

Lemma keys_dict_set k v d :
  keys (dict_set k v d) = if decide (k ∈ keys d) then keys d else (keys d ++ [k])%list.
Proof.
  destruct (decide (k ∈ keys d)) as [Hin|Hin].
  - by apply keys_dict_set_elem.
  - rewrite dict_set_fresh by done. unfold keys. by rewrite fmap_app.
Qed.

Lemma keys_cons k v d : keys ((k, v) :: d) = k :: keys d.
Proof. reflexivity. Qed.

Lemma elem_of_keys_dict_set k' k v d :
  k' ∈ keys (dict_set k v d) <-> k' = k \/ k' ∈ keys d.
Proof.
  rewrite keys_dict_set. destruct (decide (k ∈ keys d)).
  - split; [tauto |]. intros [->|?]; done.
  - rewrite elem_of_app, list_elem_of_singleton. tauto.
Qed.

Lemma dict_set_NoDup k v d : NoDup (keys d) -> NoDup (keys (dict_set k v d)).
Proof.
  intros H. rewrite keys_dict_set. case_decide; [done |].
  apply NoDup_app. split_and!; [done | | apply NoDup_singleton].
  intros x Hx ->%list_elem_of_singleton. done.
Qed.

Lemma dict_update_NoDup d o : NoDup (keys d) -> NoDup (keys (dict_update d o)).
Proof.
  unfold dict_update. revert d. induction o as [|[k v] o IH]; simpl; [done |].
  intros d H. apply IH. by apply dict_set_NoDup.
Qed.

Lemma dict_update_fresh d o :
  NoDup (keys (d ++ o)%list) -> dict_update d o = (d ++ o)%list.
Proof.
  unfold dict_update, keys. revert d. induction o as [|[k v] o IH]; simpl; intros d H.
  - by rewrite app_nil_r.
  - rewrite fmap_app in H. simpl in H.
    rewrite dict_set_fresh.
    + rewrite IH; [by rewrite <- app_assoc |].
      by rewrite <- app_assoc, !fmap_app.
    + apply NoDup_app in H as (_ & H & _). intros Hin. apply (H _ Hin). left.
Qed.

(** [update], read key by key: the other mapping wins. *)
Lemma dict_get_update k d o :
  NoDup (keys o) ->
  dict_get k (dict_update d o)
  = match dict_get k o with Some v => Some v | None => dict_get k d end.
Proof.
  unfold dict_update, keys. revert d. induction o as [|[k' v'] o IH]; simpl; [done |].
  intros d [Hk Ho]%NoDup_cons. rewrite IH by done. rewrite dict_get_set.
  destruct (String.eqb_spec k k') as [->|Hne]; [| done].
  apply dict_get_None in Hk. by rewrite Hk.
Qed.

Lemma dict_update_nil_l o : NoDup (keys o) -> dict_update [] o = o.
Proof. intros H. by rewrite dict_update_fresh. Qed.
End DictFacts.

(** ** Flattener *)

Lemma flatten_value_dict prefix d :
  flatten_value prefix (JDict d)
  = fold_left
      (fun output kv =>
         if is_dict kv.2
         then dict_update output (flatten_value (prefix +:+ kv.1 +:+ ".") kv.2)
         else dict_set (prefix +:+ kv.1) kv.2 output)
      d [].
Proof. reflexivity. Qed.

Lemma entries_dict prefix d :
  entries prefix (JDict d) = d ≫= item_entries prefix.
Proof. reflexivity. Qed.

Lemma well_formed_dict d :
  well_formed (JDict d) = true ->
  NoDup (keys d) /\ Forall (fun kv => well_formed kv.2 = true) d.
Proof.
  simpl. intros [H1 H2]%andb_prop. split.
  - by apply bool_decide_eq_true in H1.
  - apply Forall_forall. intros kv Hin. rewrite forallb_forall in H2.
    apply H2. by apply list_elem_of_In.
Qed.

Lemma dot_free_dict d :
  dot_free (JDict d) = true ->
  Forall (fun kv => contains dot kv.1 = false /\ dot_free kv.2 = true) d.
Proof.
  simpl. intros H. apply Forall_forall. intros kv Hin.
  rewrite forallb_forall in H. specialize (H kv). rewrite <- list_elem_of_In in H.
  apply H in Hin. apply andb_prop in Hin as [H1 H2].
  by apply negb_true_iff in H1.
Qed.

(** Every key produced under a prefix starts with that prefix. *)
Lemma entries_prefix v : forall prefix key,
  key ∈ keys (entries prefix v) -> exists r, key = prefix +:+ r.
Proof.
  induction v as [| | | | | |d IH] using json_ind; intros prefix key;
    try by intros ?%elem_of_nil.
  rewrite entries_dict. unfold keys.
  intros ([key' v] & -> & Hin)%list_elem_of_fmap.
  apply list_elem_of_bind in Hin as (kv & Hin & Hkv).
  rewrite Forall_forall in IH. specialize (IH kv Hkv).
  unfold item_entries in Hin. destruct (is_dict kv.2).
  - apply (list_elem_of_fmap_2 fst) in Hin. apply IH in Hin as [r Hr].
    exists (kv.1 +:+ "." +:+ r). simpl in *. by rewrite Hr, !append_assoc.
  - apply list_elem_of_singleton in Hin as [= -> ->]. by exists kv.1.
Qed.

(** The keys owed to an item spell the prefix, the item's key, and then
    nothing or a dotted rest. *)
Lemma item_entries_keys prefix kv key :
  key ∈ keys (item_entries prefix kv) ->
  exists r, key = prefix +:+ kv.1 +:+ r /\ (r = "" \/ exists r', r = String dot r').
Proof.
  unfold item_entries. destruct (is_dict kv.2).
  - intros [r ->]%entries_prefix. exists (String dot r). split; [| eauto].
    by rewrite !append_assoc.
  - unfold keys. csimpl. intros ->%list_elem_of_singleton. exists "".
    split; [| eauto]. by rewrite append_nil_r.
Qed.

Lemma item_entries_disjoint prefix kv1 kv2 key :
  contains dot kv1.1 = false -> contains dot kv2.1 = false ->
  key ∈ keys (item_entries prefix kv1) ->
  key ∈ keys (item_entries prefix kv2) ->
  kv1.1 = kv2.1.
Proof.
  intros H1 H2 (r1 & -> & Hr1)%item_entries_keys (r2 & E & Hr2)%item_entries_keys.
  apply (inj (String.app prefix)) in E.
  exact (segment_inj _ _ _ _ H1 H2 Hr1 Hr2 E).
Qed.

Lemma keys_app {V} (d1 d2 : dict V) : keys (d1 ++ d2)%list = (keys d1 ++ keys d2)%list.
Proof. unfold keys. apply fmap_app. Qed.

Lemma items_NoDup prefix d :
  NoDup (keys d) ->
  Forall (fun kv => contains dot kv.1 = false) d ->
  Forall (fun kv => NoDup (keys (item_entries prefix kv))) d ->
  NoDup (keys (d ≫= item_entries prefix)).
Proof.
  induction d as [|kv d IH]; [intros; apply NoDup_nil_2 |].
  unfold keys at 1. csimpl. fold (keys d).
  intros [Hk Hd]%NoDup_cons [Hdot Hdots]%Forall_cons [Hitem Hitems]%Forall_cons.
  rewrite keys_app. apply NoDup_app. split_and!; [done | | by apply IH].
  intros key Hin1 Hin2. apply Hk. unfold keys in Hin2.
  apply list_elem_of_fmap in Hin2 as ([key' v] & -> & Hin2).
  apply list_elem_of_bind in Hin2 as (kv2 & Hin2 & Hkv2).
  apply (list_elem_of_fmap_2 fst) in Hin2.
  rewrite Forall_forall in Hdots.
  rewrite (item_entries_disjoint prefix kv kv2 _ Hdot (Hdots _ Hkv2) Hin1 Hin2).
  by apply (list_elem_of_fmap_2 fst).
Qed.

Lemma entries_NoDup v : forall prefix,
  well_formed v = true -> dot_free v = true -> NoDup (keys (entries prefix v)).
Proof.
  induction v as [| | | | | |d IH] using json_ind; intros prefix Hwf Hdf;
    try apply NoDup_nil_2.
  apply well_formed_dict in Hwf as [Hnd Hwf]. apply dot_free_dict in Hdf.
  rewrite entries_dict. apply items_NoDup; [done | |].
  - eapply Forall_impl; [exact Hdf |]. by intros kv [? _].
  - rewrite Forall_forall in IH, Hwf, Hdf |- *. intros kv Hin.
    unfold item_entries. destruct (is_dict kv.2).
    + apply IH; [done | by apply Hwf | by apply Hdf].
    + apply NoDup_singleton.
Qed.

(** On fresh keys the loop of [recursive_flatten] only appends. *)
Lemma flatten_loop prefix d : forall acc,
  Forall (fun kv => forall p, flatten_value p kv.2 = entries p kv.2) d ->
  NoDup (keys (acc ++ (d ≫= item_entries prefix))%list) ->
  fold_left
    (fun output kv =>
       if is_dict kv.2
       then dict_update output (flatten_value (prefix +:+ kv.1 +:+ ".") kv.2)
       else dict_set (prefix +:+ kv.1) kv.2 output)
    d acc
  = (acc ++ (d ≫= item_entries prefix))%list.
Proof.
  induction d as [|kv d IH]; intros acc Hsub Hnd; csimpl.
  - by rewrite app_nil_r.
  - apply Forall_cons in Hsub as [Hkv Hsub]. csimpl in Hnd.
    rewrite app_assoc in Hnd |- *.
    assert (NoDup (keys (acc ++ item_entries prefix kv)%list)) as Hhead.
    { rewrite keys_app in Hnd. by apply NoDup_app in Hnd as (? & _ & _). }
    rewrite <- IH by done. f_equal.
    unfold item_entries in *. destruct (is_dict kv.2).
    + rewrite Hkv. by apply dict_update_fresh.
    + apply dict_set_fresh. rewrite keys_app in Hhead.
      apply NoDup_app in Hhead as (_ & Hfresh & _). intros Hin.
      apply (Hfresh _ Hin). unfold keys. csimpl. left.
Qed.

(** [recursive_flatten] on a well-formed document with dot-free keys
    produces exactly the entries owed to its leaves, in order. *)
Lemma flatten_value_entries v : forall prefix,
  well_formed v = true -> dot_free v = true ->
  flatten_value prefix v = entries prefix v.
Proof.
  induction v as [| | | | | |d IH] using json_ind; intros prefix Hwf Hdf; try done.
  rewrite flatten_value_dict, entries_dict.
  rewrite (flatten_loop prefix d []).
  - done.
  - pose proof (well_formed_dict _ Hwf) as [_ Hwfs].
    pose proof (dot_free_dict _ Hdf) as Hdfs.
    rewrite Forall_forall in IH, Hwfs, Hdfs |- *. intros kv Hin p.
    apply IH; [done | by apply Hwfs | by apply Hdfs].
  - rewrite app_nil_l, <- entries_dict. by apply entries_NoDup.
Qed.

Lemma leaf_paths_dict d :
  leaf_paths (JDict d)
  = d ≫= (fun kv => (fun pv => (kv.1 :: pv.1, pv.2)) <$> leaf_paths kv.2).
Proof. reflexivity. Qed.

Lemma leaf_paths_dict_nonempty d pv : pv ∈ leaf_paths (JDict d) -> pv.1 <> [].
Proof.
  rewrite leaf_paths_dict. intros (kv & Hin & _)%list_elem_of_bind.
  by apply list_elem_of_fmap in Hin as (? & -> & _).
Qed.

Lemma join_cons sep p ps : ps <> [] -> join sep (p :: ps) = p +:+ sep +:+ join sep ps.
Proof. by destruct ps. Qed.

(** The entries are the leaves, each keyed by its dotted path. *)
Lemma entries_leaf_paths v : forall prefix,
  is_dict v = true ->
  entries prefix v = (fun pv => (prefix +:+ join "." pv.1, pv.2)) <$> leaf_paths v.
Proof.
  induction v as [| | | | | |d IH] using json_ind; intros prefix Hd; try done.
  rewrite entries_dict, leaf_paths_dict. clear Hd.
  induction d as [|kv d IHd]; [done |].
  apply Forall_cons in IH as [Hkv IH]. rewrite !bind_cons, fmap_app.
  rewrite <- IHd by done. f_equal. clear IHd IH.
  unfold item_entries. rewrite <- list_fmap_compose.
  destruct kv as [k v]. simpl in *. destruct (is_dict v) eqn:E.
  - rewrite Hkv by done. apply list_fmap_ext. intros i pv Hin.
    unfold compose. cbn [fst snd]. apply list_elem_of_lookup_2 in Hin. destruct v; try done.
    rewrite join_cons by (by eapply leaf_paths_dict_nonempty).
    by rewrite !append_assoc.
  - by destruct v.
Qed.

Lemma leaf_paths_length v : length (leaf_paths v) = leaves v.
Proof.
  induction v as [| | | | | |d IH] using json_ind; try done.
  rewrite leaf_paths_dict. simpl.
  induction d as [|kv d IHd]; [done |].
  apply Forall_cons in IH as [Hkv IH]. rewrite bind_cons, length_app, length_fmap.
  simpl. by rewrite Hkv, IHd.
Qed.

(** C3. On a tree whose mappings have pairwise distinct keys, none of them
    containing a dot, [flatten] returns exactly one entry per leaf, keyed
    by the dot-joined keys of the leaf's ancestors: the entries are the
    leaves in order, their number is the number of leaves, no key occurs
    twice, and every leaf is found under its dotted path.  In particular
    the example document flattens to [a.b] and [a.c.d]. *)
Theorem flatten_one_entry_per_leaf :
  (forall data : tree,
     well_formed (JDict data) = true -> dot_free (JDict data) = true ->
     flatten data = (fun pv => (join "." pv.1, pv.2)) <$> leaf_paths (JDict data)
     /\ length (flatten data) = leaves (JDict data)
     /\ NoDup (keys (flatten data))
     /\ (forall path v, (path, v) ∈ leaf_paths (JDict data) ->
          dict_get (join "." path) (flatten data) = Some v))
  /\ flatten flatten_example = [("a.b", JStr "x"); ("a.c.d", JStr "y")].
Proof.
  split; [| reflexivity]. intros data Hwf Hdf.
  assert (flatten data = (fun pv => (join "." pv.1, pv.2)) <$> leaf_paths (JDict data))
    as Heq.
  { unfold flatten, recursive_flatten.
    rewrite flatten_value_entries, entries_leaf_paths by done. done. }
  assert (NoDup (keys (flatten data))) as Hnd.
  { unfold flatten, recursive_flatten. rewrite flatten_value_entries by done.
    by apply entries_NoDup. }
  split_and!; [done | | done |].
  - by rewrite Heq, length_fmap, leaf_paths_length.
  - intros path v Hin. apply dict_get_elem; [done |]. rewrite Heq.
    by apply (list_elem_of_fmap_2 (fun pv => (join "." pv.1, pv.2)) _ (path, v)).
Qed.

Lemma flatten_one_entry_per_leaf_witness :
  flatten flatten_example = [("a.b", JStr "x"); ("a.c.d", JStr "y")]
  /\ length (flatten flatten_example) = 2
  /\ dict_get "a.c.d" (flatten flatten_example) = Some (JStr "y").
Proof.
  destruct (proj1 flatten_one_entry_per_leaf flatten_example eq_refl eq_refl)
    as (H1 & H2 & _ & H4).
  split_and!; [exact H1 | exact H2 |].
  apply (H4 ["a"; "c"; "d"]). unfold flatten_example. simpl. set_solver.
Defined.

(** ** Resource aggregator *)

Lemma first_part_split1 c : first_part (split1 dot c) = before_dot c.
Proof.
  induction c as [|x c IH]; [done |]. simpl.
  destruct (Ascii.eqb x dot); [done |].
  destruct (split1 dot c) as [|p ps]; simpl in *; by rewrite <- IH.
Qed.

Lemma before_dot_no_dot c : contains dot c = false -> before_dot c = c.
Proof.
  induction c as [|x c IH]; [done |]. simpl.
  destruct (Ascii.eqb x dot); [done |]. intros H. by rewrite IH.
Qed.

(** The domain computed by the loop is the substring before the first dot,
    or the whole id if it has none. *)
Lemma build_resources_domain c :
  (if negb (contains dot c) then c else first_part (split1 dot c)) = before_dot c.
Proof.
  destruct (contains dot c) eqn:E; simpl.
  - apply first_part_split1.
  - by rewrite before_dot_no_dot.
Qed.

Lemma build_resources_step_spec cache c t acc :
  cache !! c = Some t ->
  exists res,
    build_resources_step cache c acc = Return res
    /\ (forall d, dict_get d res
                 = if String.eqb d (before_dot c)
                   then Some (dict_update (default [] (dict_get (before_dot c) acc)) t)
                   else dict_get d acc)
    /\ (NoDup (keys acc) -> NoDup (keys res)).
Proof.
  intros Hc. unfold build_resources_step. rewrite build_resources_domain, Hc.
  generalize (before_dot c). intros dom. unfold dict_mem, getitem.
  destruct (dict_get dom acc) as [t0|] eqn:E; simpl.
  - rewrite E. simpl. eexists. split; [done |]. split.
    + intros d. by rewrite dict_get_set.
    + apply dict_set_NoDup.
  - rewrite dict_get_set, String.eqb_refl. simpl. eexists. split; [done |]. split.
    + intros d. rewrite !dict_get_set. by destruct (String.eqb d dom).
    + intros H. by do 2 apply dict_set_NoDup.
Qed.

Lemma domain_trees_cons cache c l d :
  domain_trees cache (c :: l) d
  = if String.eqb d (before_dot c)
    then (match cache !! c with Some t => [t] | None => [] end ++ domain_trees cache l d)%list
    else domain_trees cache l d.
Proof.
  unfold domain_trees. rewrite filter_cons.
  destruct (String.eqb_spec d (before_dot c)) as [->|Hne].
  - rewrite decide_True by done. simpl. by destruct (cache !! c).
  - by rewrite decide_False by done.
Qed.

Lemma build_resources_loop cache l : forall acc,
  (forall c, c ∈ l -> is_Some (cache !! c)) ->
  exists res,
    for_each l acc (build_resources_step cache) = Return res
    /\ (forall d, dict_get d res
                 = if dict_mem d acc || bool_decide (d ∈ before_dot <$> l)
                   then Some (fold_left dict_update (domain_trees cache l d)
                                (default [] (dict_get d acc)))
                   else None)
    /\ (NoDup (keys acc) -> NoDup (keys res)).
Proof.
  induction l as [|c l IH]; intros acc Hall.
  - exists acc. split; [done |]. split; [| done]. intros d. unfold dict_mem.
    rewrite bool_decide_eq_false_2 by apply not_elem_of_nil.
    by destruct (dict_get d acc).
  - destruct (Hall c) as [t Ht]; [left |].
    destruct (build_resources_step_spec cache c t acc Ht) as (acc' & Hstep & Hget & Hnd).
    destruct (IH acc') as (res & Hres & Hget' & Hnd'); [intros; apply Hall; by right |].
    exists res. split; [simpl; by rewrite Hstep |]. split; [| auto].
    intros d. rewrite Hget', domain_trees_cons, Ht. unfold dict_mem. rewrite !Hget.
    rewrite fmap_cons.
    destruct (String.eqb_spec d (before_dot c)) as [->|Hne].
    + rewrite (bool_decide_eq_true_2 (_ ∈ _ :: _)) by left.
      rewrite orb_true_r. done.
    + destruct (dict_get d acc); [done |]. simpl.
      destruct (decide (d ∈ before_dot <$> l)).
      * rewrite !bool_decide_eq_true_2; [done | by right | done].
      * rewrite !bool_decide_eq_false_2; [done | | done].
        rewrite not_elem_of_cons. done.
Qed.

Lemma merged_tree_lookup k trees : forall acc,
  Forall (fun t => NoDup (keys t)) trees ->
  dict_get k (fold_left dict_update trees acc) = last_value k trees (dict_get k acc).
Proof.
  unfold last_value. induction trees as [|t trees IH]; intros acc Hnd; [done |].
  apply Forall_cons in Hnd as [Ht Hnd]. simpl. rewrite IH by done.
  by rewrite dict_get_update.
Qed.

Lemma build_resources_spec cache l :
  (forall c, c ∈ l -> is_Some (cache !! c)) ->
  exists res,
    build_resources cache l = Return res
    /\ NoDup (keys res)
    /\ (forall d, dict_get d res
                 = if bool_decide (d ∈ before_dot <$> l)
                   then Some (merged_tree cache l d) else None).
Proof.
  intros Hall. destruct (build_resources_loop cache l [] Hall) as (res & Hres & Hget & Hnd).
  exists res. split; [done |]. split; [apply Hnd, NoDup_nil_2 |].
  intros d. by rewrite Hget.
Qed.

(** C4. When every requested id is in the cache, [build_resources] returns
    a mapping whose keys are the domains of the requested ids, the domain
    of an id being its substring before the first dot (the whole id if it
    has none), and whose tree for a domain is the shallow merge, in
    enumeration order, of the trees of the ids of that domain: under every
    top-level key the value of the last of these trees that has the key.
    In particular the cache with [hue] and [hue.light] yields the one
    domain [hue] with both [title] and [name]. *)
Theorem build_resources_groups_by_domain :
  (forall (translation_cache : gmap string tree) (components : list string),
     (forall c, c ∈ components -> is_Some (translation_cache !! c)) ->
     exists resources,
       build_resources translation_cache components = Return resources
       /\ NoDup (keys resources)
       /\ (forall d, d ∈ keys resources <-> exists c, c ∈ components /\ before_dot c = d)
       /\ (forall c, c ∈ components ->
            (if negb (contains dot c) then c else first_part (split1 dot c)) = before_dot c
            /\ dict_get (before_dot c) resources
               = Some (merged_tree translation_cache components (before_dot c)))
       /\ (forall d k,
            Forall (fun t => NoDup (keys t)) (domain_trees translation_cache components d) ->
            dict_get k (merged_tree translation_cache components d)
            = last_value k (domain_trees translation_cache components d) None))
  /\ build_resources hue_cache ["hue"; "hue.light"]
     = Return [("hue", [("title", JStr "Hue"); ("name", JStr "Light")])]
  /\ (exists t, build_resources hue_cache ["hue.light"; "hue"] = Return [("hue", t)]
                /\ dict_eq t [("title", JStr "Hue"); ("name", JStr "Light")]).
Proof.
  split; [| split].
  - intros cache l Hall. destruct (build_resources_spec cache l Hall) as (res & Hres & Hnd & Hget).
    exists res. split_and!; [done | done | | |].
    + intros d. rewrite <- dict_mem_true. unfold dict_mem. rewrite Hget.
      case_bool_decide as Hd.
      * split; [intros _ | done].
        apply list_elem_of_fmap in Hd as (c & -> & Hc). eauto.
      * split; [done |]. intros (c & Hc & <-). exfalso. apply Hd.
        by apply list_elem_of_fmap_2.
    + intros c Hc. split; [apply build_resources_domain |]. rewrite Hget.
      rewrite bool_decide_eq_true_2; [done |]. by apply list_elem_of_fmap_2.
    + intros d k Hwf. unfold merged_tree. by rewrite merged_tree_lookup.
  - reflexivity.
  - eexists. split; [reflexivity |]. intros k. simpl.
    destruct (String.eqb_spec k "name") as [->|?]; [done |].
    by destruct (String.eqb_spec k "title").
Qed.

Lemma build_resources_groups_by_domain_witness :
  exists resources,
    build_resources hue_cache ["hue"; "hue.light"] = Return resources
    /\ dict_get "hue" resources
       = Some (merged_tree hue_cache ["hue"; "hue.light"] "hue").
Proof.
  assert (forall c, c ∈ ["hue"; "hue.light"] -> is_Some (hue_cache !! c)) as Hall.
  { intros c Hc. apply elem_of_cons in Hc as [->|Hc]; [by eexists |].
    apply list_elem_of_singleton in Hc as ->. by eexists. }
  destruct (proj1 build_resources_groups_by_domain hue_cache _ Hall)
    as (res & Hres & _ & _ & Hget & _).
  exists res. split; [exact Hres |]. apply (Hget "hue"). left.
Defined.

Lemma last_value_None k trees :
  last_value k trees None = None -> forall t, t ∈ trees -> dict_get k t = None.
Proof.
  unfold last_value.
  assert (forall start, fold_left
            (fun found t => match dict_get k t with Some v => Some v | None => found end)
            trees start = None ->
          start = None /\ forall t, t ∈ trees -> dict_get k t = None) as H.
  { induction trees as [|t trees IH]; intros start; simpl.
    - intros ->. split; [done |]. by intros t ?%elem_of_nil.
    - intros [Hs Hts]%IH. destruct (dict_get k t) eqn:E; [done |].
      split; [done |]. intros t' [->|Hin]%elem_of_cons; auto. }
  intros Hn. by apply H in Hn as [_ Hn].
Qed.

Lemma last_value_Some k trees v :
  last_value k trees None = Some v -> exists t, t ∈ trees /\ dict_get k t = Some v.
Proof.
  unfold last_value.
  assert (forall start, fold_left
            (fun found t => match dict_get k t with Some v => Some v | None => found end)
            trees start = Some v ->
          start = Some v \/ exists t, t ∈ trees /\ dict_get k t = Some v) as H.
  { induction trees as [|t trees IH]; intros start; simpl; [by left |].
    intros [Hs|(t' & Hin & Ht')]%IH.
    - destruct (dict_get k t) eqn:E; [| by left].
      right. exists t. split; [left | congruence].
    - right. exists t'. split; [by right | done]. }
  intros Hs. by apply H in Hs as [?|?].
Qed.

(** When the trees agree on a key, the merged value does not depend on the
    order of the merge. *)
Lemma last_value_perm (R : json -> json -> Prop) k trees trees' :
  trees ≡ₚ trees' ->
  (forall t1 t2 v1 v2, t1 ∈ trees -> t2 ∈ trees ->
     dict_get k t1 = Some v1 -> dict_get k t2 = Some v2 -> v1 = v2 \/ R v1 v2) ->
  agree R (last_value k trees None) (last_value k trees' None).
Proof.
  intros Hp Hagree.
  destruct (last_value k trees None) as [v|] eqn:E1;
    destruct (last_value k trees' None) as [v'|] eqn:E2; try done.
  - apply last_value_Some in E1 as (t1 & Hin1 & Ht1).
    apply last_value_Some in E2 as (t2 & Hin2 & Ht2).
    rewrite <- Hp in Hin2. simpl. eauto.
  - apply last_value_Some in E1 as (t1 & Hin1 & Ht1).
    rewrite Hp in Hin1. pose proof (last_value_None _ _ E2 _ Hin1). congruence.
  - apply last_value_Some in E2 as (t2 & Hin2 & Ht2).
    rewrite <- Hp in Hin2. pose proof (last_value_None _ _ E1 _ Hin2). congruence.
Qed.

(** Trees without the key leave the value found so far as it is. *)
Lemma last_value_absent k trees : forall start,
  (forall t, t ∈ trees -> dict_get k t = None) ->
  last_value k trees start = start.
Proof.
  unfold last_value. induction trees as [|t trees IH]; intros start Hnone; [done |].
  cbn [fold_left]. rewrite (Hnone t) by left. apply IH. intros t' Hin. apply Hnone. by right.
Qed.

Lemma last_value_app k trees1 trees2 start :
  last_value k (trees1 ++ trees2) start = last_value k trees2 (last_value k trees1 start).
Proof. unfold last_value. by rewrite fold_left_app. Qed.

Lemma domain_trees_app cache l1 l2 d :
  domain_trees cache (l1 ++ l2) d = (domain_trees cache l1 d ++ domain_trees cache l2 d)%list.
Proof. unfold domain_trees. by rewrite filter_app, omap_app. Qed.

Lemma domain_trees_perm cache l l' d :
  l ≡ₚ l' -> domain_trees cache l d ≡ₚ domain_trees cache l' d.
Proof.
  intros Hp. unfold domain_trees. apply omap_Permutation.
  by apply filter_Permutation.
Qed.

Lemma domain_trees_elem cache l d t :
  t ∈ domain_trees cache l d <-> exists c, c ∈ l /\ before_dot c = d /\ cache !! c = Some t.
Proof.
  unfold domain_trees. split.
  - intros (c & [? ?]%list_elem_of_filter & ?)%list_elem_of_omap. eauto.
  - intros (c & ? & ? & ?). apply list_elem_of_omap. exists c.
    split; [| done]. by apply list_elem_of_filter.
Qed.

(** C10, as stated, fails: with two components of one domain whose trees
    share the key [title], the value kept under [title] is that of the
    component enumerated last. *)
Lemma build_resources_order_dependent :
  ~ (forall (translation_cache : gmap string tree) (l l' : list string) r r',
       l ≡ₚ l' ->
       build_resources translation_cache l = Return r ->
       build_resources translation_cache l' = Return r' ->
       forall d k, dict_get d r ≫= dict_get k = dict_get d r' ≫= dict_get k).
Proof.
  intros H.
  specialize (H clash_cache ["hue"; "hue.light"] ["hue.light"; "hue"] _ _
                (Permutation_swap _ _ _) eq_refl eq_refl "hue" "title").
  discriminate H.
Qed.

(** C10, amended. When every requested id is in the cache and no two
    requested ids of one domain give different values to the same
    top-level key, the output of [build_resources] does not depend on the
    order in which the requested ids are enumerated: the same domains, and
    under every domain the same value for every key.  Values are compared
    by any relation [R] one likes, identity or Python's [==]: when the ids
    of a domain agree up to [R], so do the two outputs.  Whether or not
    they agree, the tree of a domain holds under a key the value of the id
    of that domain enumerated last among those that have the key; so with
    [hue] and [hue.light] both having [title], the value kept is that of
    whichever comes last. *)
Theorem build_resources_order_independent :
  (forall (translation_cache : gmap string tree) (R : json -> json -> Prop)
          (l l' : list string),
     l ≡ₚ l' ->
     (forall c, c ∈ l -> exists t, translation_cache !! c = Some t /\ NoDup (keys t)) ->
     (forall c1 c2 t1 t2 k v1 v2,
        c1 ∈ l -> c2 ∈ l -> c1 <> c2 -> before_dot c1 = before_dot c2 ->
        translation_cache !! c1 = Some t1 -> translation_cache !! c2 = Some t2 ->
        dict_get k t1 = Some v1 -> dict_get k t2 = Some v2 -> R v1 v2) ->
     exists r r',
       build_resources translation_cache l = Return r
       /\ build_resources translation_cache l' = Return r'
       /\ (forall d, d ∈ keys r <-> d ∈ keys r')
       /\ (forall d k,
             agree R (dict_get d r ≫= dict_get k) (dict_get d r' ≫= dict_get k)))
  /\ (forall (translation_cache : gmap string tree)
             (before : list string) c (after : list string) t k v,
        (forall c', c' ∈ (before ++ c :: after)%list ->
           exists t', translation_cache !! c' = Some t' /\ NoDup (keys t')) ->
        translation_cache !! c = Some t ->
        dict_get k t = Some v ->
        (forall c' t', c' ∈ after -> before_dot c' = before_dot c ->
           translation_cache !! c' = Some t' -> dict_get k t' = None) ->
        exists r,
          build_resources translation_cache (before ++ c :: after) = Return r
          /\ dict_get (before_dot c) r ≫= dict_get k = Some v)
  /\ build_resources clash_cache ["hue"; "hue.light"]
     = Return [("hue", [("title", JStr "Light")])]
  /\ build_resources clash_cache ["hue.light"; "hue"]
     = Return [("hue", [("title", JStr "Hue")])].
Proof.
  split_and!; [| | reflexivity | reflexivity].
  - intros translation_cache R l l' Hp Hall Hagree.
    assert (forall c, c ∈ l -> is_Some (translation_cache !! c)) as Hl.
    { intros c Hc. destruct (Hall c Hc) as (t & -> & _). by eexists. }
    assert (forall c, c ∈ l' -> is_Some (translation_cache !! c)) as Hl'.
    { intros c Hc. apply Hl. by rewrite Hp. }
    destruct (build_resources_spec _ _ Hl) as (r & Hr & _ & Hget).
    destruct (build_resources_spec _ _ Hl') as (r' & Hr' & _ & Hget').
    assert (forall d, bool_decide (d ∈ before_dot <$> l')
                      = bool_decide (d ∈ before_dot <$> l)) as Hdom.
    { intros d. apply bool_decide_ext. by rewrite Hp. }
    exists r, r'. split_and!; [done | done | |].
    + intros d. rewrite <- !dict_mem_true. unfold dict_mem. rewrite Hget, Hget', Hdom.
      by case_bool_decide.
    + intros d k. rewrite Hget, Hget', Hdom.
      case_bool_decide; [simpl | done]. unfold merged_tree.
      assert (forall m, m ≡ₚ l ->
              Forall (fun t => NoDup (keys t)) (domain_trees translation_cache m d)) as Hwf.
      { intros m Hm. apply Forall_forall. intros t (c & Hc & _ & Ht)%domain_trees_elem.
        rewrite Hm in Hc. destruct (Hall c Hc) as (t' & Ht' & Hnd). congruence. }
      rewrite !merged_tree_lookup by (apply Hwf; done). simpl.
      apply last_value_perm; [by apply domain_trees_perm |].
      intros t1 t2 v1 v2 (c1 & Hc1 & Hd1 & Ht1)%domain_trees_elem
        (c2 & Hc2 & Hd2 & Ht2)%domain_trees_elem Hv1 Hv2.
      destruct (decide (c1 = c2)) as [->|Hne]; [left; congruence |].
      right. apply (Hagree c1 c2 t1 t2 k); congruence.
  - intros translation_cache before c after t k v Hall Ht Hv Hlast.
    assert (forall c', c' ∈ (before ++ c :: after)%list ->
                       is_Some (translation_cache !! c')) as Hl.
    { intros c' Hc'. destruct (Hall c' Hc') as (t' & -> & _). by eexists. }
    destruct (build_resources_spec _ _ Hl) as (r & Hr & _ & Hget).
    exists r. split; [done |]. rewrite Hget.
    rewrite bool_decide_eq_true_2 by (apply list_elem_of_fmap_2; set_solver).
    simpl. unfold merged_tree. rewrite merged_tree_lookup.
    + rewrite domain_trees_app, last_value_app.
      change (c :: after) with ([c] ++ after)%list.
      rewrite domain_trees_app, last_value_app. rewrite last_value_absent.
      * unfold domain_trees. rewrite filter_cons_True by done.
        rewrite filter_nil. simpl. rewrite Ht. unfold last_value at 1. simpl.
        by rewrite Hv.
      * intros t' (c' & Hc' & Hd' & Ht')%domain_trees_elem. by apply (Hlast c' t').
    + apply Forall_forall. intros t' (c' & Hc' & _ & Ht')%domain_trees_elem.
      destruct (Hall c' Hc') as (t'' & Ht'' & Hnd). congruence.
Qed.

Lemma build_resources_order_independent_witness :
  (exists r r',
     build_resources hue_cache ["hue"; "hue.light"] = Return r
     /\ build_resources hue_cache ["hue.light"; "hue"] = Return r'
     /\ (forall d, d ∈ keys r <-> d ∈ keys r')
     /\ (forall d k, agree eq (dict_get d r ≫= dict_get k) (dict_get d r' ≫= dict_get k)))
  /\ (exists r,
        build_resources clash_cache (["hue"] ++ "hue.light" :: []) = Return r
        /\ dict_get (before_dot "hue.light") r ≫= dict_get "title" = Some (JStr "Light")).
Proof.
  split.
  - apply (proj1 build_resources_order_independent hue_cache eq ["hue"; "hue.light"]
             ["hue.light"; "hue"]).
    + apply Permutation_swap.
    + intros c [->|[->|[]%elem_of_nil]%elem_of_cons]%elem_of_cons;
        eexists; (split; [reflexivity | apply NoDup_singleton]).
    + intros c1 c2 t1 t2 k v1 v2 Hc1 Hc2 Hne Hdom Ht1 Ht2 Hv1 Hv2.
      assert (forall c t, c ∈ ["hue"; "hue.light"] -> hue_cache !! c = Some t ->
                (t = [("title", JStr "Hue")] \/ t = [("name", JStr "Light")])) as Hcases.
      { intros c t [->|[->|[]%elem_of_nil]%elem_of_cons]%elem_of_cons [= <-]; auto. }
      destruct (Hcases c1 t1 Hc1 Ht1) as [->| ->];
        destruct (Hcases c2 t2 Hc2 Ht2) as [->| ->]; simpl in Hv1, Hv2;
        destruct (String.eqb_spec k "title") as [->|?]; simpl in Hv1, Hv2;
        try destruct (String.eqb_spec k "name") as [->|?]; congruence.
  - apply (proj1 (proj2 build_resources_order_independent) clash_cache ["hue"] "hue.light" []
             [("title", JStr "Light")] "title" (JStr "Light")).
    + intros c [->|[->|[]%elem_of_nil]%elem_of_cons]%elem_of_cons;
        eexists; (split; [reflexivity | apply NoDup_singleton]).
    + reflexivity.
    + reflexivity.
    + by intros c' t' ?%elem_of_nil.
Defined.

(** ** Running coroutines *)

Lemma bind_run {A B} (m : coro A) (f : A -> coro B) hass :
  (m ≫= f) hass
  = match m hass with
    | (hass', Return a) => f a hass'
    | (hass', Raise e) => (hass', Raise e)
    end.
Proof. reflexivity. Qed.

Lemma for_each_co_cons {A S} (x : A) (l : list A) (acc : S) (body : A -> S -> coro S) :
  for_each_co (x :: l) acc body = body x acc ≫= fun acc' => for_each_co l acc' body.
Proof. reflexivity. Qed.

Lemma for_each_cons {A S} (x : A) (l : list A) (acc : S) (body : A -> S -> outcome S) :
  for_each (x :: l) acc body = body x acc ≫= fun acc' => for_each l acc' body.
Proof. reflexivity. Qed.

Lemma with_partition_twice language p p' hass :
  with_partition language p (with_partition language p' hass) = with_partition language p hass.
Proof. unfold with_partition, with_cache. simpl. by rewrite insert_insert_eq. Qed.

Lemma partition_of_with_partition language p hass :
  partition_of (with_partition language p hass) language = p.
Proof. unfold partition_of, with_partition. simpl. by rewrite lookup_insert_eq. Qed.

Lemma with_partition_id language hass part :
  translation_string_cache hass !! language = Some part ->
  with_partition language part hass = hass.
Proof.
  intros H. unfold with_partition, with_cache. rewrite insert_id by done. by destruct hass.
Qed.

Lemma cache_setdefault_run language hass :
  cache_setdefault language hass
  = (with_partition language (partition_of hass language) hass,
     Return (partition_of hass language)).
Proof.
  unfold cache_setdefault, partition_of. rewrite bind_run. simpl.
  destruct (translation_string_cache hass !! language) as [part|] eqn:E; simpl.
  - by rewrite with_partition_id.
  - reflexivity.
Qed.

Lemma cache_partition_run language hass :
  cache_partition language hass = (hass, Return (partition_of hass language)).
Proof. reflexivity. Qed.

Lemma cache_store_run language c t part hass :
  cache_store language c t (with_partition language part hass)
  = (with_partition language (<[c := t]> part) hass, Return ()).
Proof.
  unfold cache_store, with_partition, with_cache. rewrite bind_run. simpl.
  unfold set_cache, with_cache. simpl. by rewrite alter_insert_eq.
Qed.

Lemma cache_update_run language loaded : forall part hass,
  cache_update language loaded (with_partition language part hass)
  = (with_partition language (merge_loaded loaded part) hass, Return ()).
Proof.
  induction loaded as [|[c t] loaded IH]; intros part hass; [done |].
  simpl. change (cache_store language c t;; cache_update language loaded)
    with (cache_store language c t ≫= fun _ => cache_update language loaded).
  rewrite bind_run, cache_store_run. apply IH.
Qed.

Lemma determine_paths_run language mi l : forall files part hass,
  (forall c, c ∈ l -> is_Some (dict_get (last_part (split dot c)) mi)) ->
  for_each_co l files (determine_path language mi) (with_partition language part hass)
  = (with_partition language (negative_markers (path_in language mi) l part) hass,
     Return (load_batch (path_in language mi) l files)).
Proof.
  induction l as [|c l IH]; intros files part hass Hall; [done |].
  simpl. rewrite bind_run.
  destruct (Hall c) as [integration Hc]; [left |].
  assert (determine_path language mi c files (with_partition language part hass)
          = match path_in language mi c with
            | None => (with_partition language (<[c := []]> part) hass, Return files)
            | Some path => (with_partition language part hass,
                            Return (dict_set c path files))
            end) as ->.
  { unfold determine_path, path_in, getitem. rewrite Hc, bind_run. simpl.
    destruct (component_translation_file c language integration); [done |].
    change (cache_store language c [];; mret files)
      with (cache_store language c [] ≫= fun _ => mret files).
    by rewrite bind_run, cache_store_run. }
  destruct (path_in language mi c) eqn:E; rewrite IH; simpl; rewrite ?E; try done.
  all: intros; apply Hall; by right.
Qed.

Lemma gather_integrations_run ext domains hass :
  gather_integrations ext domains hass
  = (with_calls hass (calls hass ++ (Resolve <$> domains)), resolve_all ext domains).
Proof. reflexivity. Qed.

Lemma resolve_all_Return ext domains integrations :
  resolve_all ext domains = Return integrations ->
  Forall2 (fun d i => async_get_integration ext d = Some i) domains integrations.
Proof.
  revert integrations. induction domains as [|d domains IH]; intros integrations; simpl.
  - intros [= <-]. constructor.
  - destruct (async_get_integration ext d) as [i|] eqn:E; [| done].
    destruct (resolve_all ext domains) as [ints|]; [| done]. simpl.
    intros [= <-]. constructor; auto.
Qed.

Lemma resolve_all_Raise ext domains e :
  resolve_all ext domains = Raise e ->
  exists d, d ∈ domains /\ async_get_integration ext d = None
            /\ e = IntegrationNotFound d.
Proof.
  induction domains as [|d domains IH]; simpl; [done |].
  destruct (async_get_integration ext d) as [i|] eqn:E.
  - destruct (resolve_all ext domains) as [ints|e']; [done |]. simpl.
    intros [= <-]. destruct IH as (d' & ? & ? & ?); [done |].
    exists d'. split; [by right | done].
  - intros [= <-]. exists d. split; [left | done].
Qed.

(** The mapping built from the gathered integrations answers as the
    registry does on every resolved domain. *)
Lemma missing_integrations_lookup ext domains integrations d :
  NoDup domains ->
  resolve_all ext domains = Return integrations ->
  d ∈ domains ->
  dict_get d (dict_update [] (zip domains integrations)) = async_get_integration ext d.
Proof.
  intros Hnd Hres%resolve_all_Return Hd.
  assert (keys (zip domains integrations) = domains) as Hkeys.
  { unfold keys. apply fst_zip. by rewrite (Forall2_length _ _ _ Hres). }
  rewrite dict_update_nil_l by (by rewrite Hkeys).
  clear Hkeys. induction Hres as [|d' i domains integrations Hi Hres IH]; simpl.
  - by apply elem_of_nil in Hd.
  - apply NoDup_cons in Hnd as [Hd' Hnd].
    destruct (String.eqb_spec d d') as [->|Hne]; [done |].
    apply elem_of_cons in Hd as [?|Hd]; [done |]. auto.
Qed.

Lemma load_translations_file_run ext c p acc hass :
  load_translations_file ext (c, p) acc hass
  = (with_calls hass (calls hass ++ [Load p]),
     match load_json ext p with
     | Some (JDict d) => Return (dict_set c d acc)
     | Some _ => Raise AssertionError
     | None => Raise (LoadError p)
     end).
Proof.
  unfold load_translations_file.
  change (record_calls [Load p];; ?k) with (record_calls [Load p] ≫= fun _ => k).
  rewrite bind_run. simpl. rewrite bind_run. unfold lift at 1.
  destruct (load_json ext p) as [j|]; [| done]. by destruct j.
Qed.

Lemma load_translations_files_run ext files : forall acc hass,
  exists attempts o,
    for_each_co files acc (load_translations_file ext) hass
    = (with_calls hass (calls hass ++ (Load <$> attempts)), o)
    /\ (forall p, p ∈ attempts -> p ∈ files.*2)
    /\ match o with
       | Return loaded =>
           (forall c, c ∈ keys loaded <-> c ∈ keys acc \/ c ∈ keys files)
           /\ Forall (fun p => loadable ext p = true) files.*2
       | Raise e =>
           exists p, p ∈ files.*2 /\ loadable ext p = false
                     /\ (e = LoadError p \/ e = AssertionError)
       end.
Proof.
  induction files as [|[c p] files IH]; intros acc hass.
  - exists [], (Return acc). simpl. split_and!.
    + unfold with_calls. rewrite app_nil_r. by destruct hass.
    + by intros p ?%elem_of_nil.
    + intros c. split; [tauto | by intros [?|?%elem_of_nil]].
    + constructor.
  - rewrite for_each_co_cons, bind_run, load_translations_file_run. unfold loadable.
    destruct (load_json ext p) as [j|] eqn:E.
    + destruct j as [| | | | | |d];
        try (exists [p], (Raise AssertionError); split_and!;
             [done | intros ? ->%list_elem_of_singleton; left
             | exists p; split_and!; [left | by rewrite ?E | by right]]).
      destruct (IH (dict_set c d acc) (with_calls hass (calls hass ++ [Load p])))
        as (attempts & o & Hrun & Hsub & Ho).
      exists (p :: attempts), o. split_and!.
      * rewrite Hrun. unfold with_calls. simpl. by rewrite <- app_assoc.
      * intros q [->|Hq]%elem_of_cons; [left | right; auto].
      * destruct o as [loaded|e].
        -- destruct Ho as [Hkeys Hall]. split.
           ++ intros c'. rewrite Hkeys, keys_cons, elem_of_cons, elem_of_keys_dict_set.
              tauto.
           ++ csimpl. apply Forall_cons_2; [by rewrite ?E | done].
        -- destruct Ho as (q & ? & ? & ?). exists q. split; [by right | done].
    + exists [p], (Raise (LoadError p)). split_and!; [done | |].
      * intros ? ->%list_elem_of_singleton. left.
      * exists p. split_and!; [left | by rewrite ?E | by left].
Qed.

Lemma backfill_titles_run mi loaded : forall acc,
  (forall c, c ∈ keys loaded -> contains dot c = false -> is_Some (dict_get c mi)) ->
  exists loaded',
    for_each loaded acc (backfill_title mi) = Return (acc ++ loaded')%list
    /\ keys loaded' = keys loaded.
Proof.
  induction loaded as [|[c t] loaded IH]; intros acc Hall.
  - exists []. by rewrite app_nil_r.
  - assert (exists t', backfill_title mi (c, t) acc = Return (acc ++ [(c, t')])%list)
      as [t' Ht'].
    { unfold backfill_title. destruct (contains dot c) eqn:E; [eauto |].
      destruct (negb (dict_mem "title" t)); [| eauto].
      destruct (Hall c) as [i Hi]; [left | done |].
      unfold getitem. rewrite Hi. simpl. eauto. }
    destruct (IH (acc ++ [(c, t')])%list) as (loaded' & Hrun & Hkeys).
    { intros c' Hc'. apply Hall. by right. }
    exists ((c, t') :: loaded'). split.
    + rewrite for_each_cons, Ht'. simpl. rewrite Hrun. by rewrite <- app_assoc.
    + unfold keys in *. csimpl. by rewrite Hkeys.
Qed.

(** ** Cache manager *)

Lemma elem_of_missing_of part comps c :
  c ∈ missing_of part comps <-> c ∈ comps /\ part !! c = None.
Proof. unfold missing_of. rewrite list_elem_of_filter. tauto. Qed.

Lemma domains_of_NoDup missing : NoDup (domains_of missing).
Proof. apply NoDup_remove_dups. Qed.

Lemma elem_of_domains_of missing d :
  d ∈ domains_of missing <-> exists c, c ∈ missing /\ last_part (split dot c) = d.
Proof.
  unfold domains_of. rewrite elem_of_remove_dups, list_elem_of_fmap.
  split; intros (c & ? & ?); eauto.
Qed.

Lemma negative_markers_lookup paths l : forall part c,
  negative_markers paths l part !! c
  = if bool_decide (c ∈ l /\ paths c = None) then Some [] else part !! c.
Proof.
  unfold negative_markers. induction l as [|x l IH]; intros part c; cbn [fold_left].
  - case_bool_decide as H; [| done]. by destruct H as [?%elem_of_nil _].
  - rewrite IH. destruct (paths x) eqn:E.
    + apply (f_equal (fun b : bool => if b then _ else _)), bool_decide_ext.
      split; [intros [? ?]; split; [by right | done] |].
      intros [[->|?]%elem_of_cons ?]; [congruence | done].
    + case_bool_decide as H1.
      * rewrite bool_decide_eq_true_2; [done |]. split; [right |]; tauto.
      * destruct (decide (c = x)) as [->|Hne].
        -- rewrite lookup_insert_eq. rewrite bool_decide_eq_true_2; [done |].
           split; [left | done].
        -- rewrite lookup_insert_ne by done. rewrite bool_decide_eq_false_2; [done |].
           intros [[->|?]%elem_of_cons ?]; [done | tauto].
Qed.

Lemma load_batch_elem paths l : forall files c p,
  (c, p) ∈ load_batch paths l files -> (c, p) ∈ files \/ (c ∈ l /\ paths c = Some p).
Proof.
  unfold load_batch. induction l as [|x l IH]; intros files c p; simpl; [by left |].
  intros [Hin|[? ?]]%IH; [| right; split; [by right | done]].
  destruct (paths x) as [px|] eqn:E; [| by left].
  destruct (decide (c = x)) as [->|Hne].
  - apply (list_elem_of_fmap_2 fst) in Hin as Hk. 
    destruct (decide ((x, p) ∈ files)) as [?|Hnot]; [by left |].
    right. split; [left |].
    clear Hk. induction files as [|[k v] files IHf]; simpl in Hin.
    + apply list_elem_of_singleton in Hin as [= ->]. done.
    + destruct (String.eqb_spec x k) as [->|?].
      * apply elem_of_cons in Hin as [[= ->]|Hin]; [done |].
        exfalso. apply Hnot. by right.
      * apply elem_of_cons in Hin as [[= -> ->]|Hin]; [exfalso; apply Hnot; left |].
        apply IHf; [done |]. intros ?. apply Hnot. by right.
  - left. clear IH. induction files as [|[k v] files IHf]; simpl in Hin.
    + apply list_elem_of_singleton in Hin as [= -> ->]. done.
    + destruct (String.eqb_spec x k) as [->|?].
      * apply elem_of_cons in Hin as [[= -> ->]|Hin]; [done | by right].
      * apply elem_of_cons in Hin as [[= -> ->]|Hin]; [left | right; auto].
Qed.

Lemma load_batch_keys paths l : forall files c,
  c ∈ keys (load_batch paths l files) <-> c ∈ keys files \/ (c ∈ l /\ is_Some (paths c)).
Proof.
  unfold load_batch. induction l as [|x l IH]; intros files c; simpl.
  - split; [by left | intros [?|[?%elem_of_nil _]]; done].
  - rewrite IH, elem_of_cons. destruct (paths x) as [px|] eqn:E.
    + rewrite elem_of_keys_dict_set. split.
      * intros [[->|?]|[? ?]];
          [right; split; [by left | rewrite E; by eexists]
          | by left | right; split; [by right | done]].
      * intros [?|[[->|?] ?]]; [left; by right | left; by left | right; done].
    + split.
      * intros [?|[? ?]]; [by left | right; split; [by right | done]].
      * intros [?|[[->|?] Hs]];
          [by left | rewrite E in Hs; by destruct Hs | by right].
Qed.

Lemma merge_loaded_lookup_notin loaded : forall part c,
  c ∉ keys loaded -> merge_loaded loaded part !! c = part !! c.
Proof.
  unfold merge_loaded. induction loaded as [|[k v] loaded IH]; intros part c; [done |].
  rewrite keys_cons, not_elem_of_cons. intros [Hne Hnin]. simpl.
  rewrite IH by done. by rewrite lookup_insert_ne.
Qed.

Lemma merge_loaded_lookup_elem loaded : forall part c,
  c ∈ keys loaded -> is_Some (merge_loaded loaded part !! c).
Proof.
  unfold merge_loaded. induction loaded as [|[k v] loaded IH]; intros part c.
  - by intros ?%elem_of_nil.
  - rewrite keys_cons. intros Hin. simpl.
    destruct (decide (c ∈ keys loaded)) as [?|Hnin]; [by apply IH |].
    apply elem_of_cons in Hin as [->|?]; [| done].
    pose proof (merge_loaded_lookup_notin loaded (<[k := v]> part) k Hnin) as H.
    unfold merge_loaded in H. rewrite H, lookup_insert_eq. by eexists.
Qed.

Lemma resolve_all_is_Some ext domains integrations d :
  resolve_all ext domains = Return integrations ->
  d ∈ domains -> is_Some (async_get_integration ext d).
Proof.
  intros H%resolve_all_Return Hd. induction H as [|d' i ds ints Hi H IH].
  - by apply elem_of_nil in Hd.
  - apply elem_of_cons in Hd as [->|Hd]; [by eexists | auto].
Qed.

Lemma last_part_no_dot c : contains dot c = false -> last_part (split dot c) = c.
Proof. intros H. by rewrite split_no_sep. Qed.

(** The run of [async_get_component_resources] when a domain does not
    resolve: the partition exists, nothing else is written. *)
Lemma async_get_component_resources_unresolved ext language comps hass e :
  let part0 := partition_of hass language in
  let domains := domains_of (missing_of part0 comps) in
  resolve_all ext domains = Raise e ->
  async_get_component_resources ext language comps hass
  = (with_partition language part0
       (with_calls hass (calls hass ++ (Resolve <$> domains))),
     Raise e).
Proof.
  intros part0 domains Hres. unfold async_get_component_resources.
  rewrite bind_run, cache_setdefault_run. fold part0. fold (missing_of part0 comps).
  fold (domains_of (missing_of part0 comps)). fold domains.
  rewrite bind_run, gather_integrations_run, Hres. done.
Qed.

(** The run when every domain resolves, phase by phase: what it returns
    or raises, and the host state it leaves. *)
Lemma async_get_component_resources_resolved ext language comps hass integrations :
  let part0 := partition_of hass language in
  let missing := missing_of part0 comps in
  let domains := domains_of missing in
  let hass1 := with_calls hass (calls hass ++ (Resolve <$> domains)) in
  let mi := dict_update [] (zip domains integrations) in
  let paths := path_in language mi in
  let part1 := negative_markers paths missing part0 in
  let files := load_batch paths missing [] in
  resolve_all ext domains = Return integrations ->
  (forall c, c ∈ missing -> is_Some (dict_get (last_part (split dot c)) mi))
  /\ (files = [] ->
      async_get_component_resources ext language comps hass
      = (with_partition language part1 hass1, build_resources part1 comps))
  /\ (files <> [] ->
      exists attempts,
        let hass2 := with_calls hass (calls hass1 ++ (Load <$> attempts)) in
        (forall p, p ∈ attempts -> p ∈ files.*2)
        /\ ((exists e p,
               p ∈ files.*2 /\ loadable ext p = false
               /\ (e = LoadError p \/ e = AssertionError)
               /\ async_get_component_resources ext language comps hass
                  = (with_partition language part1 hass2, Raise e))
            \/ (exists loaded,
                  Forall (fun p => loadable ext p = true) files.*2
                  /\ (forall c, c ∈ keys loaded <-> c ∈ keys files)
                  /\ async_get_component_resources ext language comps hass
                     = (with_partition language (merge_loaded loaded part1) hass2,
                        build_resources (merge_loaded loaded part1) comps)))).
Proof.
  intros part0 missing domains hass1 mi paths part1 files Hres.
  assert (forall c, c ∈ missing -> is_Some (dict_get (last_part (split dot c)) mi)) as Hmi.
  { intros c Hc. unfold mi.
    assert (last_part (split dot c) ∈ domains) as Hd by (apply elem_of_domains_of; eauto).
    rewrite (missing_integrations_lookup ext) by (done || apply domains_of_NoDup).
    by eapply resolve_all_is_Some. }
  assert (forall c, c ∈ keys files -> c ∈ missing) as Hfiles.
  { intros c Hc. apply load_batch_keys in Hc as [?%elem_of_nil|[? _]]; done. }
  assert (async_get_component_resources ext language comps hass
          = ((match files with
              | [] => mret ()
              | _ :: _ =>
                  loaded_translations ← load_translations_files ext files;
                  loaded_translations ← lift (backfill_titles mi loaded_translations);
                  cache_update language loaded_translations
              end ≫= fun _ : () =>
              translation_cache ← cache_partition language;
              lift (build_resources translation_cache comps))
               (with_partition language part1 hass1))) as ->.
  { unfold async_get_component_resources.
    rewrite bind_run, cache_setdefault_run. fold part0. fold (missing_of part0 comps).
    fold missing. fold (domains_of missing). fold domains.
    rewrite bind_run, gather_integrations_run, Hres. fold mi.
    rewrite bind_run.
    change (with_calls (with_partition language part0 hass)
              (calls (with_partition language part0 hass) ++ (Resolve <$> domains)))
      with (with_partition language part0 hass1).
    by rewrite (determine_paths_run language mi missing [] part0 hass1 Hmi). }
  split; [done |]. split.
  - intros ->. rewrite bind_run. simpl.
    by rewrite bind_run, cache_partition_run, partition_of_with_partition.
  - intros Hne. destruct files as [|file files'] eqn:Efiles; [done |].
    rewrite <- Efiles in *. clear Efiles file files' Hne.
    rewrite !bind_run. unfold load_translations_files.
    destruct (load_translations_files_run ext files [] (with_partition language part1 hass1))
      as (attempts & o & Hrun & Hsub & Ho).
    rewrite Hrun. exists attempts. split; [done |].
    change (with_calls (with_partition language part1 hass1)
              (calls (with_partition language part1 hass1) ++ (Load <$> attempts)))
      with (with_partition language part1
              (with_calls hass (calls hass1 ++ (Load <$> attempts)))).
    destruct o as [loaded|e].
    + right. destruct Ho as [Hkeys Hall].
      destruct (backfill_titles_run mi loaded []) as (loaded' & Hback & Hkeys').
      { intros c Hc Hdot. apply Hkeys in Hc as [?%elem_of_nil|Hc]; [done |].
        rewrite <- (last_part_no_dot c) at 1 by done. apply Hmi. by apply Hfiles. }
      exists loaded'. split; [done |]. split.
      { intros c. rewrite Hkeys', Hkeys. split; [by intros [?%elem_of_nil|?] | by right]. }
      unfold lift at 1, backfill_titles. rewrite Hback. simpl.
      rewrite bind_run. cbv beta iota.
      rewrite cache_update_run, bind_run, cache_partition_run.
      by rewrite partition_of_with_partition.
    + left. destruct Ho as (p & Hp & Hl & He). exists e, p. done.
Qed.

Lemma cache_entry_partition hass language c :
  partition_of hass language !! c = cache_entry hass language c.
Proof.
  unfold partition_of, cache_entry.
  by destruct (translation_string_cache hass !! language).
Qed.

Lemma cache_entry_with_partition language part hass cs lang c :
  cache_entry (with_partition language part (with_calls hass cs)) lang c
  = if decide (lang = language) then part !! c else cache_entry hass lang c.
Proof.
  unfold cache_entry, with_partition, with_cache. simpl.
  destruct (decide (lang = language)) as [->|Hne].
  - by rewrite lookup_insert_eq.
  - by rewrite lookup_insert_ne.
Qed.

(** On the missing ids the gathered integrations give the paths the
    registry and the resolver give. *)
Lemma path_in_resolve_path ext language missing integrations c :
  resolve_all ext (domains_of missing) = Return integrations ->
  c ∈ missing ->
  resolve_path ext language c
  = Some (path_in language (dict_update [] (zip (domains_of missing) integrations)) c).
Proof.
  intros Hres Hc. unfold resolve_path, path_in.
  assert (last_part (split dot c) ∈ domains_of missing) as Hd
    by (apply elem_of_domains_of; eauto).
  rewrite (missing_integrations_lookup ext) by (done || apply domains_of_NoDup).
  destruct (resolve_all_is_Some _ _ _ _ Hres Hd) as [i ->]. done.
Qed.

Lemma load_batch_get paths l : forall files c,
  dict_get c (load_batch paths l files)
  = if bool_decide (c ∈ l)
    then match paths c with Some p => Some p | None => dict_get c files end
    else dict_get c files.
Proof.
  unfold load_batch. induction l as [|x l IH]; intros files c; cbn [fold_left].
  - by rewrite bool_decide_eq_false_2 by apply not_elem_of_nil.
  - rewrite IH. destruct (decide (c = x)) as [->|Hne].
    + rewrite (bool_decide_eq_true_2 (x ∈ x :: l)) by left.
      destruct (paths x) as [p|] eqn:E.
      * rewrite dict_get_set, String.eqb_refl. by case_bool_decide.
      * by case_bool_decide.
    + assert (bool_decide (c ∈ x :: l) = bool_decide (c ∈ l)) as ->.
      { apply bool_decide_ext. rewrite elem_of_cons. tauto. }
      destruct (paths x) as [p|]; [| done]. rewrite dict_get_set.
      destruct (String.eqb_spec c x); [done |]. done.
Qed.

Lemma load_batch_path paths l c p :
  c ∈ l -> paths c = Some p -> p ∈ (load_batch paths l []).*2.
Proof.
  intros Hc Hp. apply (list_elem_of_fmap_2 snd _ (c, p)).
  apply dict_get_Some_elem. rewrite load_batch_get, bool_decide_eq_true_2 by done.
  by rewrite Hp.
Qed.

Lemma missing_of_nil part comps :
  (forall c, c ∈ comps -> is_Some (part !! c)) -> missing_of part comps = [].
Proof.
  intros Hall. destruct (missing_of part comps) as [|c l] eqn:E; [done |].
  assert (c ∈ missing_of part comps) as [Hc Hn]%elem_of_missing_of by (rewrite E; left).
  destruct (Hall c Hc) as [t Ht]. congruence.
Qed.

(** Every call a run makes is made for a requested id that was missing. *)
Lemma resolve_calls_missing part comps k :
  k ∈ Resolve <$> domains_of (missing_of part comps) ->
  exists c, c ∈ comps /\ part !! c = None /\ k = Resolve (last_part (split dot c)).
Proof.
  intros (d & -> & Hd)%list_elem_of_fmap.
  apply elem_of_domains_of in Hd as (c & [Hc Hn]%elem_of_missing_of & <-). eauto.
Qed.

Lemma load_calls_missing ext language part comps integrations
    (attempts : list string) k :
  let missing := missing_of part comps in
  let paths := path_in language (dict_update [] (zip (domains_of missing) integrations)) in
  resolve_all ext (domains_of missing) = Return integrations ->
  (forall p, p ∈ attempts -> p ∈ (load_batch paths missing []).*2) ->
  k ∈ Load <$> attempts ->
  exists c p, c ∈ comps /\ part !! c = None
              /\ resolve_path ext language c = Some (Some p) /\ k = Load p.
Proof.
  intros missing paths Hres Hsub (p & -> & Hp)%list_elem_of_fmap.
  apply Hsub in Hp. apply list_elem_of_fmap in Hp as ([c p'] & -> & Hin).
  apply load_batch_elem in Hin as [?%elem_of_nil|[Hc Hpath]]; [done |].
  exists c, p'. pose proof Hc as [? ?]%elem_of_missing_of.
  rewrite (path_in_resolve_path ext language missing integrations) by done.
  fold paths. rewrite Hpath. done.
Qed.

(** The partition after the markers: old entries stay, new ones are empty
    trees of ids without a path. *)
Lemma negative_markers_kept paths missing part c t :
  (forall c, c ∈ missing -> part !! c = None) ->
  part !! c = Some t -> negative_markers paths missing part !! c = Some t.
Proof.
  intros Hm Hc. rewrite negative_markers_lookup. case_bool_decide as H; [| done].
  destruct H as [H _]. apply Hm in H. congruence.
Qed.

Lemma negative_markers_new paths missing part c t :
  part !! c = None -> negative_markers paths missing part !! c = Some t ->
  c ∈ missing /\ paths c = None /\ t = [].
Proof.
  intros Hc. rewrite negative_markers_lookup. case_bool_decide as H; [| congruence].
  intros [= <-]. tauto.
Qed.

(** What a run of [async_get_component_resources] does to the host: the
    partition it leaves, the calls it makes and its outcome. *)
Lemma async_get_component_resources_effect ext language comps hass :
  exists part' cs o,
    async_get_component_resources ext language comps hass
    = (with_partition language part' (with_calls hass (calls hass ++ cs)), o)
    /\ (forall c t, partition_of hass language !! c = Some t -> part' !! c = Some t)
    /\ (forall c t, partition_of hass language !! c = None -> part' !! c = Some t ->
          c ∈ comps
          /\ ((resolve_path ext language c = Some None /\ t = [])
              \/ (exists p r, resolve_path ext language c = Some (Some p)
                              /\ loadable ext p = true /\ o = Return r)))
    /\ (forall k, k ∈ cs ->
          exists c, c ∈ comps /\ partition_of hass language !! c = None
                    /\ (k = Resolve (last_part (split dot c))
                        \/ exists p, resolve_path ext language c = Some (Some p)
                                     /\ k = Load p))
    /\ ((forall c, c ∈ comps -> is_Some (partition_of hass language !! c)) ->
          cs = [] /\ part' = partition_of hass language)
    /\ match o with
       | Return r =>
           (forall c, c ∈ comps -> is_Some (part' !! c))
           /\ build_resources part' comps = Return r
           /\ (forall c, c ∈ comps -> partition_of hass language !! c = None ->
                 exists q, resolve_path ext language c = Some q
                           /\ forall p, q = Some p -> loadable ext p = true)
       | Raise e =>
           exists c, c ∈ comps /\ partition_of hass language !! c = None
             /\ ((resolve_path ext language c = None
                  /\ e = IntegrationNotFound (last_part (split dot c))
                  /\ part' = partition_of hass language)
                 \/ (exists p, resolve_path ext language c = Some (Some p)
                       /\ loadable ext p = false
                       /\ (e = LoadError p \/ e = AssertionError)
                       /\ (forall c', c' ∈ comps -> partition_of hass language !! c' = None ->
                             is_Some (resolve_path ext language c'))))
       end
    /\ ((forall c, c ∈ comps -> partition_of hass language !! c = None ->
           is_Some (resolve_path ext language c)) ->
        forall c, c ∈ comps -> partition_of hass language !! c = None ->
                  resolve_path ext language c = Some None -> part' !! c = Some []).
Proof.
  set (part0 := partition_of hass language).
  set (missing := missing_of part0 comps).
  set (domains := domains_of missing).
  assert (forall c, c ∈ missing <-> c ∈ comps /\ part0 !! c = None) as Hmissing.
  { intros c. apply elem_of_missing_of. }
  assert (forall c, c ∈ missing -> part0 !! c = None) as Hmissing'.
  { intros c Hc. by apply Hmissing in Hc as [_ ?]. }
  destruct (resolve_all ext domains) as [integrations|e] eqn:Hres.
  2: {
    (* a domain does not resolve *)
    pose proof (async_get_component_resources_unresolved ext language comps hass e Hres)
      as Hrun.
    exists part0, (Resolve <$> domains), (Raise e). split; [exact Hrun |].
    apply resolve_all_Raise in Hres as Hbad. destruct Hbad as (d & Hd & Hnone & ->).
    apply elem_of_domains_of in Hd as (c & Hc & <-).
    assert (resolve_path ext language c = None) as Hpath.
    { unfold resolve_path. by rewrite Hnone. }
    split_and!.
    - done.
    - congruence.
    - intros k Hk. apply resolve_calls_missing in Hk as (c' & ? & ? & ?). eauto 10.
    - intros Hall. apply missing_of_nil in Hall. fold missing in Hall.
      rewrite Hall in Hc. by apply elem_of_nil in Hc.
    - exists c. apply Hmissing in Hc as [? ?]. split_and!; [done | done |].
      left. by split_and!.
    - intros Hall. apply Hmissing in Hc as [Hc Hn]. destruct (Hall c Hc Hn) as [? ?].
      congruence. }
  pose proof (async_get_component_resources_resolved
                ext language comps hass integrations Hres) as Hrun.
  cbv zeta in Hrun. fold part0 missing domains in Hrun.
  set (mi := dict_update [] (zip domains integrations)) in *.
  set (paths := path_in language mi) in *.
  set (part1 := negative_markers paths missing part0) in *.
  set (files := load_batch paths missing []) in *.
  destruct Hrun as (Hmi & Hempty & Hload).
  assert (forall c, c ∈ missing -> resolve_path ext language c = Some (paths c)) as Hpaths.
  { intros c Hc. by apply (path_in_resolve_path ext language missing integrations). }
  assert (forall c t, part0 !! c = Some t -> part1 !! c = Some t) as Hkept.
  { intros c t. by apply negative_markers_kept. }
  assert (forall c t, part0 !! c = None -> part1 !! c = Some t ->
            c ∈ comps /\ resolve_path ext language c = Some None /\ t = []) as Hnew.
  { intros c t Hn Ht. apply negative_markers_new in Ht as (Hc & Hp & ->); [| done].
    rewrite Hpaths, Hp by done. apply Hmissing in Hc as [? _]. done. }
  assert (forall c, c ∈ comps -> part0 !! c = None ->
            resolve_path ext language c = Some None -> part1 !! c = Some []) as Hmark.
  { intros c Hc Hn Hp. unfold part1. rewrite negative_markers_lookup.
    assert (c ∈ missing) as Hm by (by apply Hmissing).
    rewrite Hpaths in Hp by done. injection Hp as Hp.
    by rewrite bool_decide_eq_true_2. }
  assert (forall c, c ∈ keys files <-> c ∈ missing /\ is_Some (paths c)) as Hfiles.
  { intros c. unfold files. rewrite load_batch_keys. split; [| by right].
    by intros [?%elem_of_nil|?]. }
  assert (forall k, k ∈ Resolve <$> domains ->
            exists c, c ∈ comps /\ part0 !! c = None
              /\ (k = Resolve (last_part (split dot c))
                  \/ exists p, resolve_path ext language c = Some (Some p) /\ k = Load p))
    as Hcalls.
  { intros k Hk. apply resolve_calls_missing in Hk as (c' & ? & ? & ?). eauto 10. }
  destruct (decide (files = [])) as [Hnil|Hne].
  - (* nothing to load *)
    rewrite (Hempty Hnil).
    assert (forall c, c ∈ comps -> is_Some (part1 !! c)) as Hall.
    { intros c Hc. destruct (part0 !! c) as [t|] eqn:E; [by erewrite Hkept |].
      assert (c ∈ missing) as Hm by (by apply Hmissing).
      destruct (paths c) as [p|] eqn:Ep.
      - assert (c ∈ keys files) as Hk by (apply Hfiles; split; [done | by rewrite Ep]).
        rewrite Hnil in Hk. by apply elem_of_nil in Hk.
      - rewrite Hmark; [done | done | done |]. by rewrite Hpaths, Ep. }
    destruct (build_resources_spec part1 comps Hall) as (r & Hr & _).
    exists part1, (Resolve <$> domains), (Return r). rewrite Hr.
    split_and!; try done.
    + intros c t Hn Ht. destruct (Hnew c t Hn Ht) as (? & ? & ?). split; [done |]. by left.
    + intros Hpresent. apply missing_of_nil in Hpresent. fold missing in Hpresent.
      unfold part1, domains. by rewrite Hpresent.
    + intros c Hc Hn. assert (c ∈ missing) as Hm by (by apply Hmissing).
      exists (paths c). split; [by apply Hpaths |]. intros p Hp.
      assert (c ∈ keys files) as Hk by (apply Hfiles; split; [done | by rewrite Hp]).
      rewrite Hnil in Hk. by apply elem_of_nil in Hk.
  - destruct (Hload Hne) as (attempts & Hsub & Hcase). cbv zeta in Hcase.
    assert (forall k, k ∈ ((Resolve <$> domains) ++ (Load <$> attempts))%list ->
            exists c, c ∈ comps /\ part0 !! c = None
              /\ (k = Resolve (last_part (split dot c))
                  \/ exists p, resolve_path ext language c = Some (Some p) /\ k = Load p))
      as Hcalls'.
    { intros k [Hk|Hk]%elem_of_app; [by apply Hcalls |].
      eapply (load_calls_missing ext language part0 comps integrations) in Hk
          as (c & p & ? & ? & ? & ?); [| done | done].
      exists c. split_and!; [done | done |]. right. eauto. }
    assert ((forall c, c ∈ comps -> is_Some (part0 !! c)) -> False) as Hpresent.
    { intros Hall. apply missing_of_nil in Hall. fold missing in Hall.
      apply Hne. unfold files. by rewrite Hall. }
    assert (forall p, p ∈ files.*2 ->
              exists c, c ∈ comps /\ part0 !! c = None
                        /\ resolve_path ext language c = Some (Some p)) as Hbatch.
    { intros p ([c p'] & -> & Hin)%list_elem_of_fmap.
      apply load_batch_elem in Hin as [?%elem_of_nil|[Hc Hp]]; [done |].
      exists c. pose proof Hc as [? ?]%Hmissing. rewrite Hpaths, Hp by done. done. }
    destruct Hcase as [(e & p & Hp & Hbad & He & Hrun)|(loaded & Hgood & Hkeys & Hrun)].
    + (* a file of the batch does not load *)
      exists part1, ((Resolve <$> domains) ++ (Load <$> attempts))%list, (Raise e).
      split; [by rewrite Hrun, app_assoc |].
      split_and!; try done.
      * intros c t Hn Ht. destruct (Hnew c t Hn Ht) as (? & ? & ?). split; [done |]. by left.
      * destruct (Hbatch p Hp) as (c & Hc & Hn & Hpath).
        exists c. split_and!; [done | done |]. right. exists p. split_and!; try done.
        intros c' Hc' Hn'. rewrite Hpaths by (by apply Hmissing). by eexists.
    + (* the batch loads *)
      set (part2 := merge_loaded loaded part1) in *.
      assert (forall c, c ∉ keys files -> part2 !! c = part1 !! c) as Hout.
      { intros c Hc. apply merge_loaded_lookup_notin. by rewrite Hkeys. }
      assert (forall c, c ∈ comps -> is_Some (part2 !! c)) as Hall.
      { intros c Hc. destruct (decide (c ∈ keys files)) as [Hk|Hk].
        { apply merge_loaded_lookup_elem. by apply Hkeys. }
        rewrite Hout by done.
        destruct (part0 !! c) as [t|] eqn:E; [by erewrite Hkept |].
        assert (c ∈ missing) as Hm by (by apply Hmissing).
        destruct (paths c) as [p|] eqn:Ep.
        - exfalso. apply Hk, Hfiles. split; [done | by rewrite Ep].
        - rewrite Hmark; [done | done | done |]. by rewrite Hpaths, Ep. }
      destruct (build_resources_spec part2 comps Hall) as (r & Hr & _).
      exists part2, ((Resolve <$> domains) ++ (Load <$> attempts))%list, (Return r).
      split; [by rewrite Hrun, Hr, app_assoc |].
      assert (forall c p, c ∈ missing -> paths c = Some p -> loadable ext p = true)
        as Hloadable.
      { intros c p Hc Hp. rewrite Forall_forall in Hgood. apply Hgood.
        by apply (load_batch_path paths missing c). }
      split_and!; try done.
      * intros c t Ht. rewrite Hout; [by apply Hkept |].
        intros [Hm _]%Hfiles. apply Hmissing' in Hm. congruence.
      * intros c t Hn Ht. destruct (decide (c ∈ keys files)) as [Hk|Hk].
        -- apply Hfiles in Hk as [Hm [p Hp]]. pose proof Hm as [? _]%Hmissing.
           split; [done |]. right. exists p, r. split_and!; [| by eapply Hloadable | done].
           by rewrite Hpaths, Hp.
        -- rewrite Hout in Ht by done. destruct (Hnew c t Hn Ht) as (? & ? & ?).
           split; [done |]. by left.
      * intros c Hc Hn. assert (c ∈ missing) as Hm by (by apply Hmissing).
        exists (paths c). split; [by apply Hpaths |]. intros p Hp. by eapply Hloadable.
      * intros _ c Hc Hn Hp. rewrite Hout; [by apply Hmark |].
        intros [Hm [p Hp']]%Hfiles. rewrite Hpaths in Hp by done. congruence.
Qed.

(** C9. The cache is append-only under [async_get_component_resources]:
    whatever the outcome, every entry (language, component, tree) present
    before the call is present and unchanged after it; an entry that is new
    belongs to the language of the call and to a requested component; and
    every call made to the registry or to the loader is made for a
    requested component that had no entry, so that an entry already
    present, an empty tree included, is never fetched again. *)
Theorem cache_append_only ext language comps hass :
  (forall lang c t,
     cache_entry hass lang c = Some t ->
     cache_entry (async_get_component_resources ext language comps hass).1 lang c = Some t)
  /\ (forall lang c,
        cache_entry hass lang c = None ->
        is_Some (cache_entry (async_get_component_resources ext language comps hass).1
                   lang c) ->
        lang = language /\ c ∈ comps)
  /\ (exists cs,
        calls (async_get_component_resources ext language comps hass).1
        = (calls hass ++ cs)%list
        /\ forall k, k ∈ cs ->
             exists c, c ∈ comps /\ cache_entry hass language c = None
               /\ (k = Resolve (last_part (split dot c))
                   \/ exists p, resolve_path ext language c = Some (Some p) /\ k = Load p)).
Proof.
  destruct (async_get_component_resources_effect ext language comps hass)
    as (part' & cs & o & -> & Hkept & Hnew & Hcalls & _).
  cbn [fst]. split_and!.
  - intros lang c t Ht. rewrite cache_entry_with_partition.
    case_decide as Hl; [subst lang | done].
    apply Hkept. by rewrite cache_entry_partition.
  - intros lang c Hn [t Ht]. rewrite cache_entry_with_partition in Ht.
    case_decide as Hl; [subst lang | congruence].
    split; [done |]. rewrite <- cache_entry_partition in Hn.
    by destruct (Hnew c t Hn Ht).
  - exists cs. split; [done |]. intros k Hk.
    destruct (Hcalls k Hk) as (c & ? & ? & ?). exists c.
    by rewrite <- cache_entry_partition.
Qed.

Lemma cache_append_only_witness :
  cache_entry (async_get_component_resources demo_ext "nl" ["hue"; "light.hue"; "my"]
                 warm_hass).1 "nl" "hue"
  = Some [("title", JStr "Tint")].
Proof.
  apply (proj1 (cache_append_only demo_ext "nl" ["hue"; "light.hue"; "my"] warm_hass)).
  reflexivity.
Defined.

Lemma with_calls_id hass : with_calls hass (calls hass ++ []) = hass.
Proof. unfold with_calls. rewrite app_nil_r. by destruct hass. Qed.

Lemma with_partition_partition_of language part hass :
  with_partition language (partition_of (with_partition language part hass) language)
    (with_partition language part hass)
  = with_partition language part hass.
Proof. by rewrite partition_of_with_partition, with_partition_twice. Qed.

(** C5. A call that returned, repeated on the host it left and with the
    same registry and files, returns the same output, makes no call to the
    registry or to the loader and leaves the host as it is.  After the
    first call every requested id has an entry in the partition of the
    language, and the calls the first call made were each made for a
    requested id that had none. *)
Theorem fetch_idempotent ext language comps hass hass1 r :
  async_get_component_resources ext language comps hass = (hass1, Return r) ->
  async_get_component_resources ext language comps hass1 = (hass1, Return r)
  /\ calls (async_get_component_resources ext language comps hass1).1 = calls hass1
  /\ (forall c, c ∈ comps -> is_Some (cache_entry hass1 language c))
  /\ (exists cs,
        calls hass1 = (calls hass ++ cs)%list
        /\ forall k, k ∈ cs ->
             exists c, c ∈ comps /\ cache_entry hass language c = None
               /\ (k = Resolve (last_part (split dot c))
                   \/ exists p, resolve_path ext language c = Some (Some p) /\ k = Load p)).
Proof.
  intros Hrun.
  destruct (async_get_component_resources_effect ext language comps hass)
    as (part' & cs & o & Hrun' & _ & _ & Hcalls & _ & Ho & _).
  rewrite Hrun in Hrun'. injection Hrun' as -> <-.
  destruct Ho as (Hall & Hbuild & _).
  set (hass1 := with_partition language part' (with_calls hass (calls hass ++ cs))).
  assert (forall c, c ∈ comps -> is_Some (partition_of hass1 language !! c)) as Hall1.
  { intros c Hc. unfold hass1. rewrite partition_of_with_partition. by apply Hall. }
  assert (async_get_component_resources ext language comps hass1 = (hass1, Return r))
    as Hagain.
  { destruct (async_get_component_resources_effect ext language comps hass1)
      as (part2 & cs2 & o2 & -> & _ & _ & _ & Hnone & Ho2 & _).
    destruct (Hnone Hall1) as [-> ->].
    rewrite with_calls_id. unfold hass1 at 1 2 3.
    rewrite with_partition_partition_of. fold hass1. f_equal.
    destruct o2 as [r2|e].
    - destruct Ho2 as (_ & Hbuild2 & _). unfold hass1 in Hbuild2.
      rewrite partition_of_with_partition in Hbuild2. congruence.
    - destruct Ho2 as (c & Hc & Hn & _). destruct (Hall1 c Hc) as [t Ht]. congruence. }
  split_and!.
  - done.
  - by rewrite Hagain.
  - intros c Hc. rewrite <- cache_entry_partition. by apply Hall1.
  - exists cs. split; [done |]. intros k Hk.
    destruct (Hcalls k Hk) as (c & ? & ? & ?). exists c.
    by rewrite <- cache_entry_partition.
Qed.

Lemma fetch_idempotent_witness :
  exists hass1 r,
    async_get_component_resources demo_ext "nl" ["hue"; "light.hue"; "my"] demo_hass
    = (hass1, Return r)
    /\ async_get_component_resources demo_ext "nl" ["hue"; "light.hue"; "my"] hass1
       = (hass1, Return r).
Proof.
  destruct (async_get_component_resources demo_ext "nl" ["hue"; "light.hue"; "my"] demo_hass)
    as [hass1 [r|e]] eqn:Hrun; [| by vm_compute in Hrun].
  exists hass1, r. split; [done |].
  apply (fetch_idempotent demo_ext "nl" ["hue"; "light.hue"; "my"] demo_hass hass1 r Hrun).
Defined.

(** C6. Loading is all-or-nothing.  When the integrations of the missing
    requested ids all resolve and the file of one of them does not load
    (the loader raises, or the document is not a mapping), the call raises
    a load error and merges no loaded tree: every entry of the cache is
    as it was, except that a requested id of the language of the call
    that had no entry and has no translation file now has the empty
    tree, and each such id does have it. *)
Theorem load_all_or_nothing ext language comps hass c integration path :
  (forall c', c' ∈ comps -> cache_entry hass language c' = None ->
     is_Some (async_get_integration ext (last_part (split dot c')))) ->
  c ∈ comps -> cache_entry hass language c = None ->
  async_get_integration ext (last_part (split dot c)) = Some integration ->
  component_translation_file c language integration = Some path ->
  loadable ext path = false ->
  exists hass' e,
    async_get_component_resources ext language comps hass = (hass', Raise e)
    /\ (exists q, loadable ext q = false /\ (e = LoadError q \/ e = AssertionError))
    /\ (forall lang c',
          cache_entry hass' lang c' = cache_entry hass lang c'
          \/ (cache_entry hass lang c' = None
              /\ cache_entry hass' lang c' = Some []
              /\ lang = language /\ c' ∈ comps
              /\ resolve_path ext language c' = Some None))
    /\ (forall c', c' ∈ comps -> cache_entry hass language c' = None ->
          resolve_path ext language c' = Some None ->
          cache_entry hass' language c' = Some []).
Proof.
  intros Hresolve Hc Hn Hi Hpath Hbad.
  destruct (async_get_component_resources_effect ext language comps hass)
    as (part' & cs & o & Hrun & Hkept & Hnew & _ & _ & Ho & Hmark).
  assert (resolve_path ext language c = Some (Some path)) as Hrp.
  { unfold resolve_path. by rewrite Hi, Hpath. }
  rewrite <- cache_entry_partition in Hn.
  destruct o as [r|e].
  { destruct Ho as (_ & _ & Hgood). destruct (Hgood c Hc Hn) as (q & Hq & Hload).
    rewrite Hrp in Hq. injection Hq as <-. rewrite (Hload path) in Hbad; done. }
  eexists _, e. split; [exact Hrun |]. split; [| split].
  - destruct Ho as (c0 & Hc0 & Hn0 & [(Hnone & _)|(q & _ & Hq & He & _)]).
    + rewrite cache_entry_partition in Hn0. destruct (Hresolve c0 Hc0 Hn0) as [i0 Hi0].
      unfold resolve_path in Hnone. by rewrite Hi0 in Hnone.
    + eauto.
  - intros lang c'. rewrite cache_entry_with_partition.
    case_decide as Hl; [subst lang | by left].
    rewrite <- cache_entry_partition.
    destruct (partition_of hass language !! c') as [t|] eqn:E.
    + left. by apply Hkept.
    + destruct (part' !! c') as [t|] eqn:E'; [| by left]. right.
      destruct (Hnew c' t E E') as (? & [[? ->]|(? & ? & _ & _ & ?)]); done.
  - intros c' Hc' Hn' Hna. rewrite cache_entry_with_partition, decide_True by done.
    rewrite <- cache_entry_partition in Hn'. apply Hmark; try done.
    intros c0 Hc0 Hn0. rewrite cache_entry_partition in Hn0.
    destruct (Hresolve c0 Hc0 Hn0) as [i0 Hi0]. unfold resolve_path. rewrite Hi0.
    by eexists.
Qed.

Lemma load_all_or_nothing_witness :
  exists hass' e,
    async_get_component_resources demo_ext "de" ["my"; "hue"] demo_hass = (hass', Raise e)
    /\ (exists q, loadable demo_ext q = false /\ (e = LoadError q \/ e = AssertionError))
    /\ (forall lang c',
          cache_entry hass' lang c' = cache_entry demo_hass lang c'
          \/ (cache_entry demo_hass lang c' = None
              /\ cache_entry hass' lang c' = Some []
              /\ lang = "de" /\ c' ∈ ["my"; "hue"]
              /\ resolve_path demo_ext "de" c' = Some None))
    /\ (forall c', c' ∈ ["my"; "hue"] -> cache_entry demo_hass "de" c' = None ->
          resolve_path demo_ext "de" c' = Some None ->
          cache_entry hass' "de" c' = Some []).
Proof.
  apply (load_all_or_nothing demo_ext "de" ["my"; "hue"] demo_hass "hue" hue_integration
           "/srv/components/hue/.translations/de.json").
  - intros c' [->|[->|[]%elem_of_nil]%elem_of_cons]%elem_of_cons _; by eexists.
  - right. left.
  - reflexivity.
  - reflexivity.
  - reflexivity.
  - reflexivity.
Defined.

Lemma component_translation_file_single c language integration :
  contains dot c = false ->
  path_name (file_path integration) <> c ->
  component_translation_file c language integration = None.
Proof.
  intros Hdot Hname. unfold component_translation_file.
  rewrite split_no_sep by done. simpl.
  change (last_part [c]) with c.
  by apply String.eqb_neq in Hname as ->.
Qed.

Lemma build_resources_single part c t :
  contains dot c = false -> part !! c = Some t ->
  build_resources part [c] = Return [(c, dict_update [] t)].
Proof.
  intros Hdot Hc. unfold build_resources, for_each, build_resources_step.
  rewrite Hdot, Hc. simpl. unfold getitem. simpl. by rewrite String.eqb_refl.
Qed.

Lemma present_empty_domain category c : present category [(c, [])] = Return [].
Proof.
  destruct category as [category|]; [| reflexivity].
  unfold present, narrow, keys, for_each, getitem. simpl.
  rewrite String.eqb_refl. reflexivity.
Qed.

Lemma merged_tree_skip_empty cache comps c d :
  cache !! c = Some [] ->
  merged_tree cache comps d = merged_tree cache (filter (fun c' => c' <> c) comps) d.
Proof.
  intros Hc. unfold merged_tree. generalize (@nil (string * json)).
  induction comps as [|x comps IH]; intros acc; [done |].
  rewrite filter_cons. destruct (decide (x = c)) as [->|Hne].
  - rewrite decide_False by (intros H; by apply H).
    rewrite domain_trees_cons, Hc. destruct (String.eqb d (before_dot c)); apply IH.
  - rewrite decide_True by done. rewrite !domain_trees_cons.
    destruct (String.eqb d (before_dot x)); [| apply IH].
    destruct (cache !! x); simpl; apply IH.
Qed.

(** C7. A single-segment component whose integration directory is not
    named after it has no translation file: the path resolver returns
    [None]; a fill that gets past the registry records the empty tree for
    it, whatever happens to the files of the other components, and when
    the fill returns, the tree of its domain is the merge of the trees of
    the other requested components alone; a request for that component
    alone returns its domain with the empty tree, which flattens to no
    entry at all, with or without a category. *)
Theorem single_file_plugin_empty_tree :
  (forall c language integration,
     contains dot c = false ->
     path_name (file_path integration) <> c ->
     component_translation_file c language integration = None)
  /\ (forall ext language comps hass c integration,
        contains dot c = false ->
        c ∈ comps -> cache_entry hass language c = None ->
        (forall c', c' ∈ comps -> cache_entry hass language c' = None ->
           is_Some (async_get_integration ext (last_part (split dot c')))) ->
        async_get_integration ext c = Some integration ->
        path_name (file_path integration) <> c ->
        let run := async_get_component_resources ext language comps hass in
        cache_entry run.1 language c = Some []
        /\ (forall r, run.2 = Return r ->
              dict_get c r
              = Some (merged_tree (partition_of run.1 language)
                        (filter (fun c' => c' <> c) comps) c)))
  /\ (forall ext language hass c integration category,
        contains dot c = false ->
        cache_entry hass language c = None ->
        async_get_integration ext c = Some integration ->
        path_name (file_path integration) <> c ->
        (async_get_component_resources ext language [c] hass).2 = Return [(c, [])]
        /\ present category [(c, [])] = Return []).
Proof.
  assert (forall ext language c integration,
            contains dot c = false ->
            async_get_integration ext c = Some integration ->
            path_name (file_path integration) <> c ->
            resolve_path ext language c = Some None) as Hna.
  { intros ext language c integration Hdot Hi Hname. unfold resolve_path.
    rewrite last_part_no_dot, Hi by done.
    by rewrite component_translation_file_single. }
  split_and!.
  - apply component_translation_file_single.
  - intros ext language comps hass c integration Hdot Hc Hn Hresolve Hi Hname run.
    unfold run.
    destruct (async_get_component_resources_effect ext language comps hass)
      as (part' & cs & o & -> & _ & _ & _ & _ & Ho & Hmark).
    cbn [fst snd]. rewrite cache_entry_with_partition, decide_True by done.
    assert (part' !! c = Some []) as Hpart.
    { apply Hmark; [| done | by rewrite cache_entry_partition | by eapply Hna].
      intros c' Hc' Hn'. rewrite cache_entry_partition in Hn'.
      destruct (Hresolve c' Hc' Hn') as [i' Hi']. unfold resolve_path. rewrite Hi'.
      by eexists. }
    split; [done |]. intros r ->. destruct Ho as (Hall & Hbuild & _).
    destruct (build_resources_spec part' comps Hall) as (r' & Hr' & _ & Hget).
    rewrite Hbuild in Hr'. injection Hr' as <-.
    rewrite Hget, bool_decide_eq_true_2.
    + rewrite partition_of_with_partition. f_equal. by apply merged_tree_skip_empty.
    + apply list_elem_of_fmap. exists c. by rewrite before_dot_no_dot.
  - intros ext language hass c integration category Hdot Hn Hi Hname.
    split; [| apply present_empty_domain].
    pose proof (Hna ext language c integration Hdot Hi Hname) as Hrp.
    rewrite <- cache_entry_partition in Hn.
    destruct (async_get_component_resources_effect ext language [c] hass)
      as (part' & cs & o & -> & _ & _ & _ & _ & Ho & Hmark).
    cbn [snd].
    assert (part' !! c = Some []) as Hpart.
    { apply Hmark; [| left | done | done].
      intros c' ->%list_elem_of_singleton _. rewrite Hrp. by eexists. }
    destruct o as [r|e].
    + destruct Ho as (_ & Hbuild & _).
      rewrite (build_resources_single part' c []) in Hbuild by done. by rewrite <- Hbuild.
    + destruct Ho as (c0 & ->%list_elem_of_singleton & _ & [(Hnone & _)|(p & Hp & _)]);
        congruence.
Qed.

Lemma single_file_plugin_empty_tree_witness :
  component_translation_file "my" "nl" my_integration = None
  /\ cache_entry (async_get_component_resources demo_ext "nl" ["hue"; "my"] demo_hass).1
       "nl" "my" = Some []
  /\ (async_get_component_resources demo_ext "nl" ["my"] demo_hass).2 = Return [("my", [])].
Proof.
  destruct single_file_plugin_empty_tree as (H1 & H2 & H3). split_and!.
  - apply H1; [reflexivity | discriminate].
  - apply (H2 demo_ext "nl" ["hue"; "my"] demo_hass "my" my_integration).
    + reflexivity.
    + right. left.
    + reflexivity.
    + intros c' [->|[->|[]%elem_of_nil]%elem_of_cons]%elem_of_cons _; by eexists.
    + reflexivity.
    + discriminate.
  - apply (H3 demo_ext "nl" demo_hass "my" my_integration None);
      [reflexivity | reflexivity | reflexivity | discriminate].
Defined.

(** ** Translation service *)

Lemma getitem_Some {V} k (d : dict V) v : dict_get k d = Some v -> getitem k d = Return v.
Proof. unfold getitem. by intros ->. Qed.

Lemma narrow_loop category resources l : forall acc,
  (forall d t, (d, t) ∈ l -> dict_get d resources = Some t) ->
  NoDup (keys acc ++ keys l)%list ->
  for_each (keys l) acc (fun domain narrowed =>
    translations ← getitem domain resources;
    Return (dict_set domain [(category, get_or_empty category translations)] narrowed))
  = Return (acc ++ narrowed category l)%list.
Proof.
  induction l as [|[d t] l IH]; intros acc Hget Hnd.
  - by rewrite app_nil_r.
  - rewrite keys_cons, for_each_cons. cbv beta.
    rewrite (getitem_Some d resources t) by (apply Hget; left). simpl.
    rewrite keys_cons in Hnd.
    assert (d ∉ keys acc) as Hfresh.
    { intros Hin. apply NoDup_app in Hnd as (_ & Hdis & _). apply (Hdis d Hin). left. }
    rewrite dict_set_fresh by done. rewrite IH.
    + by rewrite <- app_assoc.
    + intros d' t' Hin. apply Hget. by right.
    + rewrite keys_app. change (keys [(d, [(category, get_or_empty category t)])]) with [d].
      rewrite <- app_assoc. done.
Qed.

(** The category filter never raises. *)
Lemma narrow_run category resources :
  NoDup (keys resources) ->
  narrow category resources = Return (narrowed category resources).
Proof.
  intros Hnd. unfold narrow.
  rewrite (narrow_loop category resources resources []); [done | | done].
  intros d t Hin. by apply dict_get_elem.
Qed.

Lemma keys_narrowed category resources : keys (narrowed category resources) = keys resources.
Proof.
  unfold narrowed, keys. rewrite <- list_fmap_compose. done.
Qed.

Lemma build_resources_step_NoDup cache c acc res :
  build_resources_step cache c acc = Return res ->
  NoDup (keys acc) -> NoDup (keys res).
Proof.
  unfold build_resources_step.
  set (domain := if negb (contains dot c) then c else first_part (split1 dot c)).
  set (resources := if negb (dict_mem domain acc) then dict_set domain [] acc else acc).
  intros Hstep Hnd.
  assert (NoDup (keys resources)) as Hnd'.
  { unfold resources. destruct (negb (dict_mem domain acc)); [| done].
    by apply dict_set_NoDup. }
  destruct (getitem domain resources) as [target|]; [| done].
  destruct (cache !! c) as [t|]; [| done]. simpl in Hstep.
  injection Hstep as <-. by apply dict_set_NoDup.
Qed.

Lemma build_resources_NoDup cache l r :
  build_resources cache l = Return r -> NoDup (keys r).
Proof.
  unfold build_resources.
  assert (forall acc, for_each l acc (build_resources_step cache) = Return r ->
                      NoDup (keys acc) -> NoDup (keys r)) as H.
  { induction l as [|c l IH]; intros acc.
    - by intros [= ->].
    - rewrite for_each_cons.
      destruct (build_resources_step cache c acc) as [acc'|] eqn:E; [| done].
      simpl. intros Hrun Hnd. apply (IH acc' Hrun).
      by eapply build_resources_step_NoDup. }
  intros Hrun. apply (H [] Hrun). apply NoDup_nil_2.
Qed.

(** What a fetch returns is a dict: its domains are pairwise distinct. *)
Lemma async_get_component_resources_NoDup ext language comps hass hass' r :
  async_get_component_resources ext language comps hass = (hass', Return r) ->
  NoDup (keys r).
Proof.
  intros Hrun.
  destruct (async_get_component_resources_effect ext language comps hass)
    as (part' & cs & o & Hrun' & _ & _ & _ & _ & Ho & _).
  rewrite Hrun in Hrun'. injection Hrun' as _ <-.
  destruct Ho as (_ & Hbuild & _). by eapply build_resources_NoDup.
Qed.

Lemma present_run category resources :
  NoDup (keys resources) ->
  present category resources
  = Return (flatten (under_component
                       (match category with
                        | Some category => narrowed category resources
                        | None => resources
                        end))).
Proof.
  intros Hnd. unfold present. destruct category as [category|]; [| done].
  by rewrite narrow_run.
Qed.

Lemma flatten_value_NoDup v : forall prefix, NoDup (keys (flatten_value prefix v)).
Proof.
  induction v as [| | | | | |d IH] using json_ind; intros prefix; try apply NoDup_nil_2.
  rewrite flatten_value_dict.
  assert (forall acc, NoDup (keys acc) ->
            NoDup (keys (fold_left
              (fun output kv =>
                 if is_dict kv.2
                 then dict_update output (flatten_value (prefix +:+ kv.1 +:+ ".") kv.2)
                 else dict_set (prefix +:+ kv.1) kv.2 output) d acc))) as H.
  { clear IH. induction d as [|kv d IHd]; intros acc Hacc; [done |].
    cbn [fold_left]. apply IHd. destruct (is_dict kv.2).
    - by apply dict_update_NoDup.
    - by apply dict_set_NoDup. }
  apply H, NoDup_nil_2.
Qed.

Lemma flatten_NoDup data : NoDup (keys (flatten data)).
Proof. apply flatten_value_NoDup. Qed.

(** [{**base, **resources}], read key by key. *)
Lemma dict_merge_lookup {V} (base resources : dict V) k :
  NoDup (keys base) -> NoDup (keys resources) ->
  dict_get k (dict_merge base resources)
  = match dict_get k resources with Some v => Some v | None => dict_get k base end.
Proof.
  intros Hb Hr. unfold dict_merge. rewrite dict_get_update by done.
  by rewrite dict_update_nil_l.
Qed.

(** The run of [async_get_translations]: the fetch for the requested
    language, then, unless that language is English, the fetch for
    English, then filter, flatten and merge. *)
Lemma async_get_translations_run ext language category integration config_flow hass :
  async_get_translations ext language category integration config_flow hass
  = let comps := select_components ext hass integration config_flow in
    match async_get_component_resources ext language comps hass with
    | (hass1, Raise e) =>
        if String.eqb language "en" then (hass1, Raise e)
        else
          match async_get_component_resources ext "en" comps hass1 with
          | (hass2, Raise e') =>
              (hass2, Raise (if second_fails_first ext e e' then e' else e))
          | (hass2, Return _) => (hass2, Raise e)
          end
    | (hass1, Return results_0) =>
        if String.eqb language "en" then (hass1, present category results_0)
        else
          match async_get_component_resources ext "en" comps hass1 with
          | (hass2, Raise e) => (hass2, Raise e)
          | (hass2, Return results_1) =>
              (hass2,
               resources ← present category results_0;
               base_resources ← present category results_1;
               Return (dict_merge base_resources resources))
          end
    end.
Proof.
  unfold async_get_translations. rewrite bind_run. cbv beta iota zeta.
  rewrite bind_run. unfold gather_fetches.
  destruct (async_get_component_resources ext language
              (select_components ext hass integration config_flow) hass)
    as [hass1 [results_0|e]];
    (destruct (String.eqb language "en"); cbn [negb];
     [| destruct (async_get_component_resources ext "en"
                    (select_components ext hass integration config_flow) hass1)
          as [hass2 [results_1|e']]]);
    try reflexivity; cbn [mbind outcome_bind fst snd]; rewrite bind_run; unfold lift.
  - destruct (present category results_0); reflexivity.
  - destruct (present category results_0) as [resources|e]; [| done].
    cbv beta iota. rewrite bind_run.
    destruct (present category results_1); reflexivity.
Qed.

Lemma narrowed_lookup category resources d t :
  dict_get d resources = Some t ->
  dict_get d (narrowed category resources) = Some [(category, get_or_empty category t)].
Proof.
  unfold narrowed. induction resources as [|[d' t'] resources IH]; [done |].
  csimpl. destruct (String.eqb d d'); [by intros [= ->] | done].
Qed.

(** C8. With a category, every domain tree is replaced by the tree with
    the one key [category], whose value is the tree's value under that key
    if it has one that is truthy, and the empty mapping otherwise; the
    filter never raises, and both the primary and the fallback result go
    through it before they are flattened.  In particular a tree with
    [state] and [config] is cut down to its [state], and a tree without
    [state] to [state] with the empty mapping.  A value that is there but
    empty (null, false, zero, the empty string, list or mapping) gives the
    empty mapping as well, and every other value is kept as it is. *)
Theorem category_narrowing :
  (forall category resources,
     NoDup (keys resources) ->
     narrow category resources = Return (narrowed category resources)
     /\ keys (narrowed category resources) = keys resources
     /\ (forall d t, dict_get d resources = Some t ->
           dict_get d (narrowed category resources)
           = Some [(category, get_or_empty category t)]))
  /\ (forall category t,
        dict_get category t = None
        \/ (exists v, dict_get category t = Some v /\ truthy v = false) ->
        get_or_empty category t = JDict [])
  /\ (forall category t v,
        dict_get category t = Some v -> truthy v = true -> get_or_empty category t = v)
  /\ (forall ext language category integration config_flow hass hass1 prim,
        let comps := select_components ext hass integration config_flow in
        async_get_component_resources ext language comps hass = (hass1, Return prim) ->
        (language = "en" ->
         async_get_translations ext language (Some category) integration config_flow hass
         = (hass1, Return (flatten (under_component (narrowed category prim)))))
        /\ (language <> "en" ->
            forall hass2 eng,
              async_get_component_resources ext "en" comps hass1 = (hass2, Return eng) ->
              async_get_translations ext language (Some category) integration config_flow hass
              = (hass2,
                 Return (dict_merge
                           (flatten (under_component (narrowed category eng)))
                           (flatten (under_component (narrowed category prim)))))))
  /\ narrow "state" [("light", light_tree)]
     = Return [("light", [("state", JDict [("on", JStr "On")])])]
  /\ narrow "state" [("light", bare_tree)] = Return [("light", [("state", JDict [])])]
  /\ (forall category t v,
        dict_get category t = Some v -> empty_value v ->
        get_or_empty category t = JDict [])
  /\ (forall category t v,
        dict_get category t = Some v -> ~ empty_value v ->
        get_or_empty category t = v)
  /\ narrow "state" [("light", [("state", JStr "")]); ("switch", [("state", JNull)]);
                     ("sensor", [("state", JDict [])]); ("cover", [("state", JInt 0)]);
                     ("fan", [("state", JList [])]); ("lock", [("state", JBool false)])]
     = Return [("light", [("state", JDict [])]); ("switch", [("state", JDict [])]);
               ("sensor", [("state", JDict [])]); ("cover", [("state", JDict [])]);
               ("fan", [("state", JDict [])]); ("lock", [("state", JDict [])])].
Proof.
  split_and!; [| | | | reflexivity | reflexivity | | | reflexivity].
  - intros category resources Hnd. split_and!.
    + by apply narrow_run.
    + apply keys_narrowed.
    + apply narrowed_lookup.
  - intros category t [Hn|(v & Hv & Hf)]; unfold get_or_empty.
    + by rewrite Hn.
    + by rewrite Hv, Hf.
  - intros category t v Hv Ht. unfold get_or_empty. by rewrite Hv, Ht.
  - intros ext language category integration config_flow hass hass1 prim comps Hprim.
    pose proof (async_get_component_resources_NoDup _ _ _ _ _ _ Hprim) as Hnd.
    split.
    + intros ->. rewrite async_get_translations_run. cbv zeta. fold comps.
      rewrite Hprim. simpl. by rewrite present_run.
    + intros Hne hass2 eng Heng.
      pose proof (async_get_component_resources_NoDup _ _ _ _ _ _ Heng) as Hnd'.
      rewrite async_get_translations_run. cbv zeta. fold comps. rewrite Hprim.
      apply String.eqb_neq in Hne as ->. rewrite Heng.
      by rewrite !present_run.
  - intros category t v Hv Hempty. unfold get_or_empty. rewrite Hv.
    by destruct Hempty as [->|[->|[->|[[s ->]|[->|[->| ->]]]]]].
  - intros category t v Hv Hfull. unfold get_or_empty. rewrite Hv.
    assert (truthy v = true) as ->; [| done].
    unfold empty_value in Hfull. destruct v as [|b|z|f|s|l|d]; simpl.
    + tauto.
    + destruct b; tauto.
    + destruct (Z.eqb_spec z 0) as [->|]; [tauto | done].
    + destruct f; [| done | done | done]. exfalso. apply Hfull. eauto 10.
    + destruct (String.eqb_spec s "") as [->|]; [tauto | done].
    + destruct l; [tauto | done].
    + destruct d; [tauto | done].
Qed.

Lemma category_narrowing_witness :
  narrow "state" [("light", light_tree); ("switch", bare_tree)]
  = Return [("light", [("state", JDict [("on", JStr "On")])]);
            ("switch", [("state", JDict [])])]
  /\ get_or_empty "state" bare_tree = JDict []
  /\ get_or_empty "state" [("state", JStr "")] = JDict [].
Proof.
  destruct category_narrowing as (H1 & H2 & _ & _ & _ & _ & H7 & _). split_and!.
  - apply (H1 "state" [("light", light_tree); ("switch", bare_tree)]).
    unfold keys. csimpl.
    apply NoDup_cons_2; [by intros ?%list_elem_of_singleton | apply NoDup_singleton].
  - apply H2. left. reflexivity.
  - apply (H7 "state" [("state", JStr "")] (JStr "")); [reflexivity |].
    unfold empty_value. tauto.
Defined.

(** C2. For a language other than English, when both fetches return,
    [async_get_translations] returns the flattened English mapping
    overwritten key by key with the flattened mapping of the requested
    language: under every key the value of the requested language if it
    has one, and the English value otherwise.  For English there is one
    fetch only: the host is left as that fetch leaves it and the result is
    its flattened mapping alone.  In particular the Dutch [title] wins over
    the English one and the English [extra] survives. *)
Theorem fallback_merge :
  (forall ext language category integration config_flow hass hass1 hass2 prim eng,
     let comps := select_components ext hass integration config_flow in
     language <> "en" ->
     async_get_component_resources ext language comps hass = (hass1, Return prim) ->
     async_get_component_resources ext "en" comps hass1 = (hass2, Return eng) ->
     exists primary fallback,
       present category prim = Return primary
       /\ present category eng = Return fallback
       /\ async_get_translations ext language category integration config_flow hass
          = (hass2, Return (dict_merge fallback primary))
       /\ (forall k,
             dict_get k (dict_merge fallback primary)
             = match dict_get k primary with
               | Some v => Some v
               | None => dict_get k fallback
               end))
  /\ (forall ext category integration config_flow hass hass1 prim,
        let comps := select_components ext hass integration config_flow in
        async_get_component_resources ext "en" comps hass = (hass1, Return prim) ->
        exists primary,
          present category prim = Return primary
          /\ async_get_translations ext "en" category integration config_flow hass
             = (hass1, Return primary))
  /\ dict_merge [("component.title", JStr "Light"); ("component.extra", JStr "x")]
                [("component.title", JStr "Licht")]
     = [("component.title", JStr "Licht"); ("component.extra", JStr "x")].
Proof.
  split_and!; [| | reflexivity].
  - intros ext language category integration config_flow hass hass1 hass2 prim eng comps
      Hne Hprim Heng.
    pose proof (async_get_component_resources_NoDup _ _ _ _ _ _ Hprim) as Hnd.
    pose proof (async_get_component_resources_NoDup _ _ _ _ _ _ Heng) as Hnd'.
    eexists _, _. split; [by apply present_run |]. split; [by apply present_run |].
    split.
    + rewrite async_get_translations_run. cbv zeta. fold comps. rewrite Hprim.
      apply String.eqb_neq in Hne as ->. rewrite Heng.
      by rewrite !present_run.
    + intros k. apply dict_merge_lookup; apply flatten_NoDup.
  - intros ext category integration config_flow hass hass1 prim comps Hprim.
    pose proof (async_get_component_resources_NoDup _ _ _ _ _ _ Hprim) as Hnd.
    eexists. split; [by apply present_run |].
    rewrite async_get_translations_run. cbv zeta. fold comps. rewrite Hprim. simpl.
    by rewrite present_run.
Qed.

Lemma fallback_merge_witness :
  exists hass2 primary fallback,
    async_get_translations demo_ext "nl" None None None demo_hass
    = (hass2, Return (dict_merge fallback primary))
    /\ dict_get "component.hue.state.on" primary = Some (JStr "Aan")
    /\ dict_get "component.hue.state.off" primary = None
    /\ dict_get "component.hue.state.off" fallback = Some (JStr "Off")
    /\ dict_get "component.hue.state.on" (dict_merge fallback primary) = Some (JStr "Aan")
    /\ dict_get "component.hue.state.off" (dict_merge fallback primary) = Some (JStr "Off").
Proof.
  pose (comps := select_components demo_ext demo_hass None None).
  destruct (async_get_component_resources demo_ext "nl" comps demo_hass)
    as [hass1 [prim|e]] eqn:Hprim; [| by vm_compute in Hprim].
  destruct (async_get_component_resources demo_ext "en" comps hass1)
    as [hass2 [eng|e]] eqn:Heng;
    [| vm_compute in Hprim; injection Hprim as <- <-; by vm_compute in Heng].
  destruct (proj1 fallback_merge demo_ext "nl" None None None demo_hass hass1 hass2 prim eng)
    as (primary & fallback & Hp & Hf & Hrun & Hget); [discriminate | done | done |].
  exists hass2, primary, fallback. split; [exact Hrun |].
  vm_compute in Hprim. injection Hprim as <- <-.
  vm_compute in Heng. injection Heng as <- <-.
  vm_compute in Hp. injection Hp as <-.
  vm_compute in Hf. injection Hf as <-.
  split_and!; reflexivity.
Defined.

(** ** Path resolver *)

Lemma length_append (a b : string) :
  String.length (a +:+ b) = String.length a + String.length b.
Proof. induction a as [|x a IH]; [done |]. rewrite append_cons. simpl. by rewrite IH. Qed.

(** A string without a slash that is neither empty nor a single dot is one
    relative part. *)
Lemma parse_path_plain s :
  contains slash s = false -> 2 <= String.length s ->
  parse_path s = {| path_root := ""; path_parts := [s] |}.
Proof.
  intros Hslash Hlen. unfold parse_path.
  assert (splitroot s = ("", s)) as ->.
  { destruct s as [|c s]; [done |]. simpl in *. by destruct (Ascii.eqb c slash). }
  rewrite split_no_sep by done. rewrite filter_cons_True; [done |].
  split; intros ->; simpl in Hlen; lia.
Qed.

Lemma truediv_plain p s :
  contains slash s = false -> 2 <= String.length s ->
  (p / s)%path = {| path_root := path_root p; path_parts := path_parts p ++ [s] |}.
Proof. intros Hslash Hlen. unfold truediv. by rewrite parse_path_plain. Qed.

Lemma join_last_length sep l x : String.length x <= String.length (join sep (l ++ [x])).
Proof.
  induction l as [|y l IH]; [done |].
  change ((y :: l) ++ [x])%list with (y :: (l ++ [x]))%list.
  rewrite join_cons by (by destruct l). rewrite !length_append. lia.
Qed.

Lemma path_str_nonempty root parts x :
  0 < String.length x ->
  path_str {| path_root := root; path_parts := parts ++ [x] |}
  = root +:+ join "/" (parts ++ [x]).
Proof.
  intros Hx. unfold path_str. cbn [path_root path_parts].
  destruct (String.eqb_spec (root +:+ join "/" (parts ++ [x])) "") as [E|]; [| done].
  apply (f_equal String.length) in E. rewrite length_append in E.
  pose proof (join_last_length "/" parts x). simpl in E. lia.
Qed.

Lemma filename_plain prefix language :
  contains slash prefix = false -> contains slash language = false ->
  contains slash (prefix +:+ "." +:+ language +:+ ".json") = false
  /\ 2 <= String.length (prefix +:+ "." +:+ language +:+ ".json").
Proof.
  intros Hp Hl. split.
  - rewrite contains_append, Hp. change ("." +:+ language +:+ ".json")
      with (String dot (language +:+ ".json")).
    simpl. by rewrite contains_append, Hl.
  - rewrite !length_append. simpl. lia.
Qed.

(** C1, as stated, fails: for [light.hue] the file is named after the
    first segment, [light], as in the docstring of the resolver, not after
    the second, [hue]. *)
Lemma platform_file_not_second_segment :
  ~ (forall domain platform language integration,
       contains dot domain = false -> contains dot platform = false ->
       component_translation_file (domain +:+ "." +:+ platform) language integration
       = Some (path_str (file_path integration / ".translations"
                         / (platform +:+ "." +:+ language +:+ ".json"))%path)).
Proof.
  intros H. specialize (H "light" "hue" "nl" hue_integration eq_refl eq_refl).
  discriminate H.
Qed.

(** C1, amended. For a component id with exactly two dot-separated
    segments and every language, the path resolver returns the path of
    the file [<first segment>.<language>.json] in the directory
    [.translations] of the integration: the file is named after the
    segment before the dot.  When neither that segment nor the language
    contains a slash, the path reads
    [<integration directory>/.translations/<first segment>.<language>.json]. *)
Theorem component_translation_file_platform first second language integration :
  contains dot first = false -> contains dot second = false ->
  component_translation_file (first +:+ "." +:+ second) language integration
  = Some (path_str (file_path integration / ".translations"
                    / (first +:+ "." +:+ language +:+ ".json"))%path)
  /\ (contains slash first = false -> contains slash language = false ->
      component_translation_file (first +:+ "." +:+ second) language integration
      = Some (path_root (file_path integration)
              +:+ join "/" (path_parts (file_path integration)
                            ++ [".translations"; first +:+ "." +:+ language +:+ ".json"]))).
Proof.
  intros Hfirst Hsecond.
  assert (component_translation_file (first +:+ "." +:+ second) language integration
          = Some (path_str (file_path integration / ".translations"
                            / (first +:+ "." +:+ language +:+ ".json"))%path)) as Heq.
  { unfold component_translation_file.
    change ("." +:+ second) with (String dot second).
    rewrite split_append, split_no_sep by done. done. }
  split; [done |]. intros Hs Hl. rewrite Heq. f_equal.
  destruct (filename_plain first language Hs Hl) as [Hslash Hlen].
  rewrite (truediv_plain _ ".translations") by (done || simpl; lia).
  rewrite truediv_plain by done. cbn [path_root path_parts].
  rewrite path_str_nonempty by lia. by rewrite <- app_assoc.
Qed.

Lemma component_translation_file_platform_witness :
  component_translation_file "light.hue" "nl" hue_integration
  = Some "/srv/components/hue/.translations/light.nl.json".
Proof.
  apply (proj2 (component_translation_file_platform "light" "hue" "nl" hue_integration
                  eq_refl eq_refl) eq_refl eq_refl).
Defined.

(** * Further properties *)

(** ** Flattener, on any document *)

Lemma elem_of_dict_set {V} (kv : string * V) k v d :
  kv ∈ dict_set k v d -> kv = (k, v) \/ kv ∈ d.
Proof.
  induction d as [|[k' v'] d IH]; simpl.
  - intros ->%list_elem_of_singleton. by left.
  - destruct (String.eqb_spec k k') as [->|Hne].
    + intros [->|?]%elem_of_cons; [by left | right; by right].
    + intros [->|Hin]%elem_of_cons; [right; left |].
      destruct (IH Hin); [by left | right; by right].
Qed.

Lemma elem_of_dict_update {V} (kv : string * V) d o :
  kv ∈ dict_update d o -> kv ∈ d \/ kv ∈ o.
Proof.
  unfold dict_update. revert d. induction o as [|[k v] o IH]; intros d; simpl.
  - by left.
  - intros [[->|?]%elem_of_dict_set|?]%IH.
    + right. left.
    + by left.
    + right. by right.
Qed.

Lemma length_dict_set {V} k (v : V) d : length (dict_set k v d) <= S (length d).
Proof.
  induction d as [|[k' v'] d IH]; simpl; [lia |].
  destruct (String.eqb k k'); simpl; lia.
Qed.

Lemma length_dict_update {V} (d o : dict V) :
  length (dict_update d o) <= length d + length o.
Proof.
  unfold dict_update. revert d. induction o as [|[k v] o IH]; intros d; simpl; [lia |].
  pose proof (IH (dict_set k v d)). pose proof (length_dict_set k v d). lia.
Qed.

(** An entry of the flattened mapping comes from one item of the mapping:
    from the flattening of its value under the extended prefix when that
    value is a mapping, and else it is the item under the prefixed key. *)
Lemma flatten_value_elem prefix items kx :
  kx ∈ flatten_value prefix (JDict items) ->
  exists kv, kv ∈ items
    /\ if is_dict kv.2 then kx ∈ flatten_value (prefix +:+ kv.1 +:+ ".") kv.2
       else kx = (prefix +:+ kv.1, kv.2).
Proof.
  rewrite flatten_value_dict.
  assert (forall acc,
            kx ∈ fold_left
                   (fun output kv =>
                      if is_dict kv.2
                      then dict_update output (flatten_value (prefix +:+ kv.1 +:+ ".") kv.2)
                      else dict_set (prefix +:+ kv.1) kv.2 output) items acc ->
            kx ∈ acc
            \/ exists kv, kv ∈ items
                 /\ if is_dict kv.2 then kx ∈ flatten_value (prefix +:+ kv.1 +:+ ".") kv.2
                    else kx = (prefix +:+ kv.1, kv.2)) as H.
  { induction items as [|kv items IH]; intros acc; cbn [fold_left]; [by left |].
    intros [Hin|(kv' & Hkv' & H')]%IH.
    - destruct (is_dict kv.2) eqn:E.
      + apply elem_of_dict_update in Hin as [?|?]; [by left |].
        right. exists kv. split; [left |]. by rewrite E.
      + apply elem_of_dict_set in Hin as [?|?]; [| by left].
        right. exists kv. split; [left |]. by rewrite E.
    - right. exists kv'. split; [by right | done]. }
  intros [?%elem_of_nil|?]%H; done.
Qed.

Lemma flatten_value_keys_prefix v : forall prefix kx,
  kx ∈ flatten_value prefix v -> exists rest, kx.1 = prefix +:+ rest.
Proof.
  induction v as [| | | | | |d IH] using json_ind; intros prefix kx;
    try by intros ?%elem_of_nil.
  intros (kv & Hkv & H)%flatten_value_elem.
  rewrite Forall_forall in IH. destruct (is_dict kv.2).
  - apply (IH kv Hkv) in H as [rest ->]. exists (kv.1 +:+ "." +:+ rest).
    by rewrite !append_assoc.
  - subst kx. by exists kv.1.
Qed.

Lemma flatten_value_values_leaf v : forall prefix kx,
  kx ∈ flatten_value prefix v -> is_dict kx.2 = false.
Proof.
  induction v as [| | | | | |d IH] using json_ind; intros prefix kx;
    try by intros ?%elem_of_nil.
  intros (kv & Hkv & H)%flatten_value_elem.
  rewrite Forall_forall in IH. destruct (is_dict kv.2) eqn:E.
  - by apply (IH kv Hkv) in H.
  - by subst kx.
Qed.

Lemma flatten_value_length v : forall prefix, length (flatten_value prefix v) <= leaves v.
Proof.
  induction v as [| | | | | |d IH] using json_ind; intros prefix; simpl; try lia.
  change (length (flatten_value prefix (JDict d)) <= sum_list_with (fun kv => leaves kv.2) d).
  rewrite flatten_value_dict.
  assert (forall acc,
            length (fold_left
                      (fun output kv =>
                         if is_dict kv.2
                         then dict_update output
                                (flatten_value (prefix +:+ kv.1 +:+ ".") kv.2)
                         else dict_set (prefix +:+ kv.1) kv.2 output) d acc)
            <= length acc + sum_list_with (fun kv => leaves kv.2) d) as H.
  { induction d as [|kv d IHd]; intros acc; cbn [fold_left]; [simpl; lia |].
    apply Forall_cons in IH as [Hkv IH]. specialize (IHd IH).
    etrans; [apply IHd |]. simpl.
    destruct (is_dict kv.2) eqn:E.
    - pose proof (length_dict_update acc (flatten_value (prefix +:+ kv.1 +:+ ".") kv.2)).
      pose proof (Hkv (prefix +:+ kv.1 +:+ ".")). lia.
    - pose proof (length_dict_set (prefix +:+ kv.1) kv.2 acc).
      assert (leaves kv.2 = 1) as -> by (by destruct (kv.2)). lia. }
  apply (H []).
Qed.

(** X1. Whatever the document, also with dots in its keys, [flatten]
    returns a single-level mapping: no key occurs twice, no value is a
    mapping, and there are at most as many entries as the document has
    leaves; there can be fewer, as two leaves whose dotted paths spell the
    same key share one entry. *)
Theorem flatten_is_flat :
  (forall data : tree,
     NoDup (keys (flatten data))
     /\ (forall k v, (k, v) ∈ flatten data -> is_dict v = false)
     /\ length (flatten data) <= leaves (JDict data))
  /\ (exists data : tree, length (flatten data) < leaves (JDict data)).
Proof.
  split.
  - intros data. split_and!.
    + apply flatten_NoDup.
    + intros k v Hin. by apply flatten_value_values_leaf in Hin.
    + apply flatten_value_length.
  - exists [("a.b", JStr "x"); ("a", JDict [("b", JStr "y")])]. simpl. lia.
Qed.

Lemma flatten_is_flat_witness :
  is_dict (JStr "y") = false.
Proof.
  apply (proj1 (proj2 (proj1 flatten_is_flat
                         [("a.b", JStr "x"); ("a", JDict [("b", JStr "y")])]))
           "a.b" (JStr "y")).
  simpl. left.
Defined.

(** ** The shape of the returned mapping *)

Lemma under_component_elem resources kx :
  kx ∈ flatten (under_component resources) ->
  exists d t, (d, t) ∈ resources
    /\ kx ∈ flatten_value ("component." +:+ d +:+ ".") (JDict t).
Proof.
  unfold flatten, recursive_flatten, under_component.
  intros (kv & ->%list_elem_of_singleton & H)%flatten_value_elem. cbn [fst snd is_dict] in H.
  apply flatten_value_elem in H as (kv & Hkv & H).
  apply list_elem_of_fmap in Hkv as ([d t] & -> & Hin). cbn [fst snd is_dict] in H.
  exists d, t. split; [done |].
  by rewrite append_assoc in H.
Qed.

Lemma present_elem category resources kx :
  NoDup (keys resources) ->
  kx ∈ flatten (under_component
                  (match category with
                   | Some category => narrowed category resources
                   | None => resources
                   end)) ->
  is_dict kx.2 = false
  /\ exists d rest,
       d ∈ keys resources
       /\ kx.1 = "component." +:+ d +:+ "." +:+ rest
       /\ forall cat, category = Some cat ->
            exists rest', rest = cat +:+ rest' /\ (rest' = "" \/ exists r, rest' = String dot r).
Proof.
  intros Hnd Hin. split; [by apply flatten_value_values_leaf in Hin |].
  apply under_component_elem in Hin as (d & t & Hdt & Hin).
  destruct category as [cat|].
  - unfold narrowed in Hdt. apply list_elem_of_fmap in Hdt as ([d' t'] & [= -> ->] & Hin').
    cbn [fst snd] in *. exists d'.
    apply flatten_value_elem in Hin as (kv & ->%list_elem_of_singleton & H).
    cbn [fst snd] in H.
    assert (d' ∈ keys resources) as Hd by (by apply (list_elem_of_fmap_2 fst _ (d', t'))).
    destruct (is_dict (get_or_empty cat t')).
    + apply flatten_value_keys_prefix in H as [rest Hrest].
      exists (cat +:+ "." +:+ rest). split_and!; [done | |].
      * by rewrite Hrest, !append_assoc.
      * intros ? [= <-]. exists (String dot rest). split; [done | eauto].
    + exists cat. split_and!; [done | |].
      * subst kx. cbn [fst]. by rewrite !append_assoc.
      * intros ? [= <-]. exists "". split; [by rewrite append_nil_r | by left].
  - exists d. apply flatten_value_keys_prefix in Hin as [rest Hrest]. exists rest.
    split_and!; [by apply (list_elem_of_fmap_2 fst _ (d, t)) | | done].
    by rewrite Hrest, !append_assoc.
Qed.

(** The domains a fetch returns are those of the requested components. *)
Lemma async_get_component_resources_domains ext language comps hass hass' r :
  async_get_component_resources ext language comps hass = (hass', Return r) ->
  forall d, d ∈ keys r <-> exists c, c ∈ comps /\ before_dot c = d.
Proof.
  intros Hrun d.
  destruct (async_get_component_resources_effect ext language comps hass)
    as (part' & cs & o & Hrun' & _ & _ & _ & _ & Ho & _).
  rewrite Hrun in Hrun'. injection Hrun' as _ <-.
  destruct Ho as (Hall & Hbuild & _).
  destruct (build_resources_spec part' comps Hall) as (r' & Hr' & _ & Hget).
  rewrite Hbuild in Hr'. injection Hr' as <-.
  rewrite <- dict_mem_true. unfold dict_mem. rewrite Hget. case_bool_decide as Hd.
  - split; [intros _ | done]. apply list_elem_of_fmap in Hd as (c & -> & Hc). eauto.
  - split; [done |]. intros (c & Hc & <-). exfalso. apply Hd. by apply list_elem_of_fmap_2.
Qed.

(** What [async_get_translations] returns, entry by entry. *)
Lemma async_get_translations_elem
    ext language category integration config_flow hass hass' r kx :
  async_get_translations ext language category integration config_flow hass
  = (hass', Return r) ->
  kx ∈ r ->
  is_dict kx.2 = false
  /\ exists c rest,
       c ∈ select_components ext hass integration config_flow
       /\ kx.1 = "component." +:+ before_dot c +:+ "." +:+ rest
       /\ forall cat, category = Some cat ->
            exists rest', rest = cat +:+ rest' /\ (rest' = "" \/ exists r, rest' = String dot r).
Proof.
  rewrite async_get_translations_run. cbv zeta.
  set (comps := select_components ext hass integration config_flow).
  destruct (async_get_component_resources ext language comps hass)
    as [hass1 [prim|e]] eqn:Hprim; [| by repeat case_match].
  pose proof (async_get_component_resources_NoDup _ _ _ _ _ _ Hprim) as Hnd.
  pose proof (async_get_component_resources_domains _ _ _ _ _ _ Hprim) as Hdom.
  assert (forall resources,
            NoDup (keys resources) ->
            (forall d, d ∈ keys resources <-> exists c, c ∈ comps /\ before_dot c = d) ->
            kx ∈ flatten (under_component
                            (match category with
                             | Some category => narrowed category resources
                             | None => resources
                             end)) ->
            is_dict kx.2 = false
            /\ exists c rest,
                 c ∈ comps
                 /\ kx.1 = "component." +:+ before_dot c +:+ "." +:+ rest
                 /\ forall cat, category = Some cat ->
                      exists rest', rest = cat +:+ rest'
                                    /\ (rest' = "" \/ exists r, rest' = String dot r)) as Hshape.
  { intros resources Hnd' Hdom' Hin.
    destruct (present_elem category resources kx Hnd' Hin) as (Hleaf & d & rest & Hd & Hk & Hcat).
    split; [done |]. apply Hdom' in Hd as (c & Hc & <-). eauto. }
  destruct (String.eqb language "en").
  - rewrite present_run by done. intros [= _ <-]. by apply Hshape.
  - destruct (async_get_component_resources ext "en" comps hass1)
      as [hass2 [eng|e]] eqn:Heng; [| done].
    pose proof (async_get_component_resources_NoDup _ _ _ _ _ _ Heng) as Hnd'.
    pose proof (async_get_component_resources_domains _ _ _ _ _ _ Heng) as Hdom'.
    rewrite !present_run by done. simpl. intros [= _ <-]. unfold dict_merge.
    intros [[?%elem_of_nil|?]%elem_of_dict_update|?]%elem_of_dict_update;
      [done | by apply (Hshape eng) | by apply (Hshape prim)].
Qed.

(** X2. What [async_get_translations] returns is a flat mapping: no key
    occurs twice, no value is a mapping, and every key reads
    [component.<domain>.<rest>], the domain being that of one of the
    components of the request. *)
Theorem translations_keys_under_component
    ext language category integration config_flow hass hass' r :
  async_get_translations ext language category integration config_flow hass
  = (hass', Return r) ->
  NoDup (keys r)
  /\ forall k v, (k, v) ∈ r ->
       is_dict v = false
       /\ exists c rest,
            c ∈ select_components ext hass integration config_flow
            /\ k = "component." +:+ before_dot c +:+ "." +:+ rest.
Proof.
  intros Hrun. split.
  - revert Hrun. rewrite async_get_translations_run. cbv zeta.
    destruct (async_get_component_resources ext language _ hass)
      as [hass1 [prim|e]] eqn:Hprim; [| by repeat case_match].
    pose proof (async_get_component_resources_NoDup _ _ _ _ _ _ Hprim) as Hnd.
    destruct (String.eqb language "en").
    + rewrite present_run by done. intros [= _ <-]. apply flatten_NoDup.
    + destruct (async_get_component_resources ext "en" _ hass1)
        as [hass2 [eng|e]] eqn:Heng; [| done].
      pose proof (async_get_component_resources_NoDup _ _ _ _ _ _ Heng) as Hnd'.
      rewrite !present_run by done. simpl. intros [= _ <-]. unfold dict_merge.
      apply dict_update_NoDup, dict_update_NoDup, NoDup_nil_2.
  - intros k v Hin.
    destruct (async_get_translations_elem _ _ _ _ _ _ _ _ (k, v) Hrun Hin)
      as (Hleaf & c & rest & Hc & Hk & _).
    eauto.
Qed.

(** X3. With a category, every key [async_get_translations] returns reads
    [component.<domain>.<category>] or [component.<domain>.<category>.<rest>]:
    nothing of another category comes through the filter. *)
Theorem translations_keys_of_category
    ext language category integration config_flow hass hass' r :
  async_get_translations ext language (Some category) integration config_flow hass
  = (hass', Return r) ->
  forall k, k ∈ keys r ->
    exists c rest,
      c ∈ select_components ext hass integration config_flow
      /\ k = "component." +:+ before_dot c +:+ "." +:+ category +:+ rest
      /\ (rest = "" \/ exists rest', rest = String dot rest').
Proof.
  intros Hrun k ([k' v] & -> & Hin)%list_elem_of_fmap.
  destruct (async_get_translations_elem _ _ _ _ _ _ _ _ (k', v) Hrun Hin)
    as (_ & c & rest & Hc & Hk & Hcat).
  destruct (Hcat category eq_refl) as (rest' & -> & Hrest').
  exists c, rest'. done.
Qed.

Lemma translations_keys_under_component_witness :
  exists hass' r,
    async_get_translations demo_ext "nl" None None None demo_hass = (hass', Return r)
    /\ NoDup (keys r).
Proof.
  destruct (async_get_translations demo_ext "nl" None None None demo_hass)
    as [hass' [r|e]] eqn:Hrun; [| by vm_compute in Hrun].
  exists hass', r. split; [done |].
  apply (translations_keys_under_component demo_ext "nl" None None None demo_hass hass' r Hrun).
Defined.

Lemma translations_keys_of_category_witness :
  exists c rest,
    c ∈ select_components demo_ext demo_hass None None
    /\ "component.hue.state.on" = "component." +:+ before_dot c +:+ "." +:+ "state" +:+ rest
    /\ (rest = "" \/ exists rest', rest = String dot rest').
Proof.
  destruct (async_get_translations demo_ext "nl" (Some "state") None None demo_hass)
    as [hass' [r|e]] eqn:Hrun; [| by vm_compute in Hrun].
  apply (translations_keys_of_category demo_ext "nl" "state" None None demo_hass hass' r Hrun).
  vm_compute in Hrun. injection Hrun as _ <-. unfold keys. csimpl. left.
Defined.

(** ** From a flattened key back to the path *)

Lemma split_join_dot_free path :
  Forall (fun p => contains dot p = false) path -> path <> [] ->
  split dot (join "." path) = path.
Proof.
  induction path as [|p path IH]; [done |]. intros [Hp Hpath]%Forall_cons _.
  destruct path as [|q path]; [by apply split_no_sep |].
  rewrite join_cons by done. change ("." +:+ ?x) with (String dot x).
  rewrite split_append by done. by rewrite IH.
Qed.

Lemma leaf_paths_dot_free v :
  dot_free v = true ->
  forall pv, pv ∈ leaf_paths v -> Forall (fun p => contains dot p = false) pv.1.
Proof.
  induction v as [| | | | | |d IH] using json_ind; intros Hdf pv;
    try (intros ->%list_elem_of_singleton; constructor).
  rewrite leaf_paths_dict. intros (kv & Hin & Hkv)%list_elem_of_bind.
  apply list_elem_of_fmap in Hin as (pv' & -> & Hpv').
  apply dot_free_dict in Hdf. rewrite Forall_forall in IH, Hdf.
  destruct (Hdf kv Hkv) as [Hk Hv]. cbn [fst]. apply Forall_cons_2; [done |].
  by apply (IH kv Hkv).
Qed.

(** X4. On a tree with pairwise distinct, dot-free keys a flattened key
    determines its leaf: cutting the key at its dots gives back the keys
    of the leaf's ancestors, outermost first. *)
Theorem flatten_key_gives_path (data : tree) :
  well_formed (JDict data) = true -> dot_free (JDict data) = true ->
  forall k v, (k, v) ∈ flatten data -> (split dot k, v) ∈ leaf_paths (JDict data).
Proof.
  intros Hwf Hdf k v. unfold flatten, recursive_flatten.
  rewrite flatten_value_entries, entries_leaf_paths by done.
  intros ([path v'] & [= -> ->] & Hin)%list_elem_of_fmap. cbn [fst snd].
  rewrite append_nil_l, split_join_dot_free; [done | |].
  - by apply (leaf_paths_dot_free (JDict data) Hdf (path, v')).
  - by apply (leaf_paths_dict_nonempty data (path, v')).
Qed.

Lemma flatten_key_gives_path_witness :
  (split dot "a.c.d", JStr "y") ∈ leaf_paths (JDict flatten_example).
Proof.
  apply (flatten_key_gives_path flatten_example eq_refl eq_refl "a.c.d" (JStr "y")).
  simpl. right. left.
Defined.

(** ** Path resolver, on the other ids *)

Lemma split_parts_no_sep sep s : Forall (fun p => contains sep p = false) (split sep s).
Proof.
  induction s as [|c s IH]; simpl; [by repeat constructor |].
  destruct (Ascii.eqb c sep) eqn:E; [by constructor |].
  destruct (split sep s) as [|p ps]; [repeat constructor; simpl; by rewrite E |].
  apply Forall_cons in IH as [Hp Hps]. constructor; [| done]. simpl. by rewrite E.
Qed.

Lemma last_part_no_sep s : contains dot (last_part (split dot s)) = false.
Proof.
  unfold last_part. pose proof (split_parts_no_sep dot s) as H.
  induction H as [|p ps Hp Hps IH]; [done |].
  destruct ps as [|q ps]; [done |]. exact IH.
Qed.



(** X6. A component id that does not have exactly two segments is resolved
    as its last segment alone would be: the segments before the last play
    no part in the path. *)
Theorem component_translation_file_last_segment c language integration :
  length (split dot c) <> 2 ->
  component_translation_file c language integration
  = component_translation_file (last_part (split dot c)) language integration.
Proof.
  intros Hlen. unfold component_translation_file at 2.
  rewrite (split_no_sep dot (last_part (split dot c))) by apply last_part_no_sep.
  change (Nat.eqb (length [last_part (split dot c)]) 2) with false.
  change (last_part [last_part (split dot c)]) with (last_part (split dot c)).
  unfold component_translation_file.
  by apply Nat.eqb_neq in Hlen as ->.
Qed.

Lemma component_translation_file_last_segment_witness :
  component_translation_file "sensor.light.hue" "nl" hue_integration
  = component_translation_file "hue" "nl" hue_integration.
Proof.
  apply (component_translation_file_last_segment "sensor.light.hue" "nl" hue_integration).
  vm_compute. lia.
Defined.

(** ** Loops cut in two *)

Lemma for_each_app {A S} (l1 l2 : list A) (acc : S) (body : A -> S -> outcome S) :
  for_each (l1 ++ l2) acc body
  = for_each l1 acc body ≫= fun acc' => for_each l2 acc' body.
Proof.
  revert acc. induction l1 as [|x l1 IH]; intros acc; [done |].
  change ((x :: l1) ++ l2)%list with (x :: (l1 ++ l2))%list.
  rewrite !for_each_cons. destruct (body x acc) as [acc'|e]; [| done].
  simpl. apply IH.
Qed.

Lemma for_each_co_app {A S} (l1 l2 : list A) (acc : S) (body : A -> S -> coro S) hass :
  for_each_co (l1 ++ l2) acc body hass
  = match for_each_co l1 acc body hass with
    | (hass', Return acc') => for_each_co l2 acc' body hass'
    | (hass', Raise e) => (hass', Raise e)
    end.
Proof.
  revert acc hass. induction l1 as [|x l1 IH]; intros acc hass; [done |].
  change ((x :: l1) ++ l2)%list with (x :: (l1 ++ l2))%list.
  rewrite !for_each_co_cons, !bind_run.
  destruct (body x acc hass) as [hass' [acc'|e]]; [| done]. apply IH.
Qed.

(** ** Resource aggregator, on a cache with a hole *)

(** X7. When a requested id has no entry in the cache, [build_resources]
    raises [KeyError] for the first such id in the order of enumeration,
    whatever comes after it. *)
Theorem build_resources_missing_entry cache (before : list string) c (after : list string) :
  (forall c', c' ∈ before -> is_Some (cache !! c')) ->
  cache !! c = None ->
  build_resources cache (before ++ c :: after) = Raise (KeyError c).
Proof.
  intros Hbefore Hc. unfold build_resources. rewrite for_each_app.
  destruct (build_resources_loop cache before [] Hbefore) as (res & -> & _).
  change (for_each (c :: after) res (build_resources_step cache) = Raise (KeyError c)).
  rewrite for_each_cons.
  assert (build_resources_step cache c res = Raise (KeyError c)) as ->; [| done].
  unfold build_resources_step. rewrite Hc.
  generalize (if negb (contains dot c) then c else first_part (split1 dot c)).
  intros domain. unfold dict_mem, getitem.
  destruct (dict_get domain res) as [t|] eqn:E; simpl.
  - by rewrite E.
  - by rewrite dict_get_set, String.eqb_refl.
Qed.

Lemma build_resources_missing_entry_witness :
  build_resources hue_cache (["hue"] ++ "hue.switch" :: ["hue.light"])
  = Raise (KeyError "hue.switch").
Proof.
  apply (build_resources_missing_entry hue_cache ["hue"] "hue.switch" ["hue.light"]).
  - intros c' ->%list_elem_of_singleton. by eexists.
  - reflexivity.
Defined.

(** ** File loader *)

Lemma load_translations_files_loop ext files : forall acc hass,
  Forall (fun p => loadable ext p = true) files.*2 ->
  for_each_co files acc (load_translations_file ext) hass
  = (with_calls hass (calls hass ++ (Load <$> files.*2)),
     Return (dict_update acc ((fun cp => (cp.1, parsed ext cp.2)) <$> files))).
Proof.
  induction files as [|[c p] files IH]; intros acc hass Hall.
  - simpl. rewrite with_calls_id. reflexivity.
  - csimpl in Hall. apply Forall_cons in Hall as [Hp Hall].
    rewrite for_each_co_cons, bind_run, load_translations_file_run.
    assert (exists d, load_json ext p = Some (JDict d)) as [d E].
    { unfold loadable in Hp. destruct (load_json ext p) as [[| | | | | |d]|]; try done.
      by exists d. }
    assert (parsed ext p = d) as Hd by (unfold parsed; by rewrite E).
    rewrite E, IH by done. unfold with_calls, dict_update. csimpl.
    by rewrite Hd, <- app_assoc.
Qed.

(** X8. When every file of a batch loads and parses to a mapping,
    [load_translations_files] opens each file once, in the order of the
    batch, and returns the batch with every path replaced by the mapping
    its file parses to. *)
Theorem load_translations_files_loads_all ext (files : dict string) hass :
  NoDup (keys files) ->
  Forall (fun p => loadable ext p = true) files.*2 ->
  load_translations_files ext files hass
  = (with_calls hass (calls hass ++ (Load <$> files.*2)),
     Return ((fun cp => (cp.1, parsed ext cp.2)) <$> files)).
Proof.
  intros Hnd Hall. unfold load_translations_files.
  rewrite load_translations_files_loop by done. do 2 f_equal.
  apply dict_update_nil_l. unfold keys in *. by rewrite <- list_fmap_compose.
Qed.

Lemma load_translations_files_loads_all_witness :
  load_translations_files demo_ext
    [("hue", "/srv/components/hue/.translations/nl.json");
     ("light.hue", "/srv/components/hue/.translations/light.nl.json")] demo_hass
  = (with_calls demo_hass
       [Load "/srv/components/hue/.translations/nl.json";
        Load "/srv/components/hue/.translations/light.nl.json"],
     Return [("hue", [("state", JDict [("on", JStr "Aan")])]);
             ("light.hue", [("name", JStr "Licht")])]).
Proof.
  apply (load_translations_files_loads_all demo_ext
           [("hue", "/srv/components/hue/.translations/nl.json");
            ("light.hue", "/srv/components/hue/.translations/light.nl.json")] demo_hass).
  - unfold keys. csimpl.
    apply NoDup_cons_2; [by intros ?%list_elem_of_singleton | apply NoDup_singleton].
  - csimpl. repeat apply Forall_cons_2; [reflexivity | reflexivity | apply Forall_nil_2].
Defined.

(** X9. The loader stops at the first file that does not load: the files
    before it are opened, it is opened, the files after it are not; the
    error is [LoadError] when the loader raises and [AssertionError] when
    the document is not a mapping; and nothing but the record of the calls
    changes in the host. *)
Theorem load_translations_files_stops ext (before : dict string) c p (after : dict string) hass :
  Forall (fun q => loadable ext q = true) before.*2 ->
  loadable ext p = false ->
  load_translations_files ext (before ++ (c, p) :: after) hass
  = (with_calls hass (calls hass ++ (Load <$> (before.*2 ++ [p])%list)),
     Raise (match load_json ext p with
            | None => LoadError p
            | Some _ => AssertionError
            end)).
Proof.
  intros Hbefore Hp. unfold load_translations_files.
  rewrite for_each_co_app, load_translations_files_loop by done.
  rewrite for_each_co_cons, bind_run, load_translations_file_run.
  unfold loadable in Hp. unfold with_calls. simpl.
  rewrite fmap_app, <- app_assoc. simpl.
  by destruct (load_json ext p) as [[| | | | | |d]|].
Qed.

Lemma load_translations_files_stops_witness :
  load_translations_files demo_ext
    ([("hue", "/srv/components/hue/.translations/nl.json")]
     ++ ("hue", "/srv/components/hue/.translations/de.json")
     :: [("light.hue", "/srv/components/hue/.translations/light.nl.json")]) demo_hass
  = (with_calls demo_hass
       [Load "/srv/components/hue/.translations/nl.json";
        Load "/srv/components/hue/.translations/de.json"],
     Raise (LoadError "/srv/components/hue/.translations/de.json")).
Proof.
  apply (load_translations_files_stops demo_ext
           [("hue", "/srv/components/hue/.translations/nl.json")] "hue"
           "/srv/components/hue/.translations/de.json"
           [("light.hue", "/srv/components/hue/.translations/light.nl.json")] demo_hass).
  - csimpl. apply Forall_cons_2; [reflexivity | apply Forall_nil_2].
  - reflexivity.
Defined.

(** ** Cache manager: failing, returning, and running on a full cache *)

(** X10. When the integration of a missing requested id does not resolve,
    the call raises [IntegrationNotFound] for a domain the registry does
    not know, before any path is determined: no entry of the cache
    changes, no empty tree is recorded, and the calls made are registry
    lookups only. *)
Theorem unresolved_integration_aborts ext language comps hass c :
  c ∈ comps -> cache_entry hass language c = None ->
  async_get_integration ext (last_part (split dot c)) = None ->
  exists hass' d,
    async_get_component_resources ext language comps hass
    = (hass', Raise (IntegrationNotFound d))
    /\ async_get_integration ext d = None
    /\ (forall lang c', cache_entry hass' lang c' = cache_entry hass lang c')
    /\ (exists domains, calls hass' = (calls hass ++ (Resolve <$> domains))%list).
Proof.
  intros Hc Hn Hnone. rewrite <- cache_entry_partition in Hn.
  set (domains := domains_of (missing_of (partition_of hass language) comps)).
  assert (last_part (split dot c) ∈ domains) as Hd.
  { apply elem_of_domains_of. exists c. split; [| done]. by apply elem_of_missing_of. }
  destruct (resolve_all ext domains) as [integrations|e] eqn:Hres.
  { destruct (resolve_all_is_Some _ _ _ _ Hres Hd) as [i Hi]. congruence. }
  pose proof (async_get_component_resources_unresolved ext language comps hass e Hres) as Hrun.
  apply resolve_all_Raise in Hres as (d & _ & Hdnone & ->).
  eexists _, d. split; [exact Hrun |]. split_and!; [done | | by exists domains].
  intros lang c'. rewrite cache_entry_with_partition. case_decide as Hl; [| done].
  subst lang. apply cache_entry_partition.
Qed.

Lemma unresolved_integration_aborts_witness :
  exists hass' d,
    async_get_component_resources demo_ext "nl" ["my"; "zwave"] demo_hass
    = (hass', Raise (IntegrationNotFound d))
    /\ async_get_integration demo_ext d = None
    /\ (forall lang c', cache_entry hass' lang c' = cache_entry demo_hass lang c')
    /\ (exists domains, calls hass' = (calls demo_hass ++ (Resolve <$> domains))%list).
Proof.
  apply (unresolved_integration_aborts demo_ext "nl" ["my"; "zwave"] demo_hass "zwave").
  - right. left.
  - reflexivity.
  - reflexivity.
Defined.

(** X11. A call returns exactly when every requested id without an entry
    has an integration that resolves and, if it has a translation file,
    a file that loads and parses to a mapping; what it then returns has
    one domain for every substring before the first dot of a requested
    id, and no other. *)
Theorem fetch_returns_iff ext language comps hass :
  ((exists hass' r,
      async_get_component_resources ext language comps hass = (hass', Return r))
   <-> (forall c, c ∈ comps -> cache_entry hass language c = None ->
          exists q, resolve_path ext language c = Some q
                    /\ forall p, q = Some p -> loadable ext p = true))
  /\ (forall hass' r,
        async_get_component_resources ext language comps hass = (hass', Return r) ->
        forall d, d ∈ keys r <-> exists c, c ∈ comps /\ before_dot c = d).
Proof.
  split; [| apply async_get_component_resources_domains].
  destruct (async_get_component_resources_effect ext language comps hass)
    as (part' & cs & o & Hrun & _ & _ & _ & _ & Ho & _).
  split.
  - intros (hass' & r & Hr). rewrite Hr in Hrun. injection Hrun as _ <-.
    destruct Ho as (_ & _ & Hgood). intros c Hc Hn.
    rewrite <- cache_entry_partition in Hn. by apply Hgood.
  - intros Hgood. destruct o as [r|e]; [by eexists _, r |].
    destruct Ho as (c & Hc & Hn & Hbad). rewrite cache_entry_partition in Hn.
    destruct (Hgood c Hc Hn) as (q & Hq & Hload).
    destruct Hbad as [(Hnone & _)|(p & Hp & Hfalse & _)]; [congruence |].
    rewrite Hp in Hq. injection Hq as <-. rewrite (Hload p eq_refl) in Hfalse. done.
Qed.

Lemma fetch_returns_iff_witness :
  exists hass' r,
    async_get_component_resources demo_ext "nl" ["hue"; "light.hue"; "my"] demo_hass
    = (hass', Return r).
Proof.
  apply (proj1 (fetch_returns_iff demo_ext "nl" ["hue"; "light.hue"; "my"] demo_hass)).
  intros c [->|[->|[->|[]%elem_of_nil]%elem_of_cons]%elem_of_cons]%elem_of_cons _;
    eexists; (split; [reflexivity |]); intros p [= <-]; reflexivity.
Defined.

Lemma cache_entry_with_partition_alone language part hass lang c :
  cache_entry (with_partition language part hass) lang c
  = if decide (lang = language) then part !! c else cache_entry hass lang c.
Proof.
  unfold cache_entry, with_partition, with_cache. simpl.
  destruct (decide (lang = language)) as [->|Hne].
  - by rewrite lookup_insert_eq.
  - by rewrite lookup_insert_ne.
Qed.

(** A call on a partition that has every requested id. *)
Lemma async_get_component_resources_cached ext language comps hass :
  (forall c, c ∈ comps -> is_Some (partition_of hass language !! c)) ->
  exists r,
    async_get_component_resources ext language comps hass
    = (with_partition language (partition_of hass language) hass, Return r)
    /\ build_resources (partition_of hass language) comps = Return r.
Proof.
  intros Hall.
  destruct (async_get_component_resources_effect ext language comps hass)
    as (part' & cs & o & -> & _ & _ & _ & Hnone & Ho & _).
  destruct (Hnone Hall) as [-> ->]. rewrite with_calls_id.
  destruct o as [r|e].
  - exists r. by destruct Ho as (_ & ? & _).
  - destruct Ho as (c & Hc & Hn & _). destruct (Hall c Hc) as [t Ht]. congruence.
Qed.

(** X12. On a partition that already has every requested id the call
    reads neither the registry nor any file: it makes no call, changes no
    entry, returns, and returns the same with any other registry and any
    other files.  A cached entry is never refreshed. *)
Theorem cached_fetch_ignores_files ext ext' language comps hass :
  (forall c, c ∈ comps -> is_Some (cache_entry hass language c)) ->
  async_get_component_resources ext language comps hass
  = async_get_component_resources ext' language comps hass
  /\ calls (async_get_component_resources ext language comps hass).1 = calls hass
  /\ (forall lang c,
        cache_entry (async_get_component_resources ext language comps hass).1 lang c
        = cache_entry hass lang c)
  /\ (exists r, (async_get_component_resources ext language comps hass).2 = Return r).
Proof.
  intros Hall.
  assert (forall c, c ∈ comps -> is_Some (partition_of hass language !! c)) as Hall'.
  { intros c Hc. rewrite cache_entry_partition. by apply Hall. }
  destruct (async_get_component_resources_cached ext language comps hass Hall')
    as (r & -> & Hr).
  destruct (async_get_component_resources_cached ext' language comps hass Hall')
    as (r' & -> & Hr').
  split_and!.
  - congruence.
  - done.
  - intros lang c. cbn [fst]. rewrite cache_entry_with_partition_alone.
    case_decide as Hl; [| done]. subst lang. apply cache_entry_partition.
  - by exists r.
Qed.

Lemma cached_fetch_ignores_files_witness :
  async_get_component_resources demo_ext "nl" ["hue"] warm_hass
  = async_get_component_resources
      {| async_get_integration := fun _ => None;
         load_json := fun _ => None;
         async_get_config_flows := [];
         second_fails_first := fun _ _ => true |} "nl" ["hue"] warm_hass.
Proof.
  apply (cached_fetch_ignores_files demo_ext _ "nl" ["hue"] warm_hass).
  intros c ->%list_elem_of_singleton. by eexists.
Defined.

(** ** Translation service, called again *)

(** A fetch that returned, run again on any host whose partition for the
    language is the one the fetch left, returns the same and leaves that
    host as it is. *)
Lemma async_get_component_resources_again ext ext' language comps hass hass1 r hass' :
  async_get_component_resources ext language comps hass = (hass1, Return r) ->
  translation_string_cache hass' !! language = translation_string_cache hass1 !! language ->
  async_get_component_resources ext' language comps hass' = (hass', Return r).
Proof.
  intros Hrun Hsame.
  destruct (async_get_component_resources_effect ext language comps hass)
    as (part' & cs & o & Hrun' & _ & _ & _ & _ & Ho & _).
  rewrite Hrun in Hrun'. injection Hrun' as -> <-.
  destruct Ho as (Hall & Hbuild & _).
  assert (translation_string_cache hass' !! language = Some part') as Hpart.
  { rewrite Hsame. unfold with_partition, with_cache. simpl. apply lookup_insert_eq. }
  assert (partition_of hass' language = part') as Hp.
  { unfold partition_of. by rewrite Hpart. }
  destruct (async_get_component_resources_cached ext' language comps hass')
    as (r' & -> & Hr').
  { intros c Hc. rewrite Hp. by apply Hall. }
  rewrite Hp in *. rewrite with_partition_id by done. congruence.
Qed.

(** A fetch leaves the components of the host and the partitions of the
    other languages as they are. *)
Lemma async_get_component_resources_frame ext language comps hass :
  config_components (async_get_component_resources ext language comps hass).1
  = config_components hass
  /\ forall lang, lang <> language ->
       translation_string_cache (async_get_component_resources ext language comps hass).1
         !! lang
       = translation_string_cache hass !! lang.
Proof.
  destruct (async_get_component_resources_effect ext language comps hass)
    as (part' & cs & o & -> & _).
  split; [done |]. intros lang Hne. unfold with_partition, with_cache. simpl.
  by rewrite lookup_insert_ne.
Qed.

Lemma select_components_frame ext hass hass' integration config_flow :
  config_components hass' = config_components hass ->
  select_components ext hass' integration config_flow
  = select_components ext hass integration config_flow.
Proof. unfold select_components. by intros ->. Qed.

(** X13. A request that returned, repeated on the host it left, returns
    the same mapping and leaves the host as it is: it makes no call to the
    registry or to the loader, for either language. *)
Theorem translations_idempotent ext language category integration config_flow hass hass' r :
  async_get_translations ext language category integration config_flow hass
  = (hass', Return r) ->
  async_get_translations ext language category integration config_flow hass'
  = (hass', Return r).
Proof.
  rewrite !async_get_translations_run. cbv zeta.
  set (comps := select_components ext hass integration config_flow).
  destruct (async_get_component_resources ext language comps hass)
    as [hass1 [prim|e]] eqn:Hprim; [| by repeat case_match].
  pose proof (async_get_component_resources_frame ext language comps hass) as [Hc1 Hf1].
  rewrite Hprim in Hc1, Hf1. cbn [fst] in Hc1, Hf1.
  destruct (String.eqb_spec language "en") as [->|Hne].
  - intros [= <- Hr]. rewrite (select_components_frame _ hass) by done. fold comps.
    rewrite (async_get_component_resources_again _ ext _ _ _ _ _ hass1 Hprim eq_refl).
    by rewrite Hr.
  - destruct (async_get_component_resources ext "en" comps hass1)
      as [hass2 [eng|e]] eqn:Heng; [| done].
    pose proof (async_get_component_resources_frame ext "en" comps hass1) as [Hc2 Hf2].
    rewrite Heng in Hc2, Hf2. cbn [fst] in Hc2, Hf2.
    intros [= <- Hr]. rewrite (select_components_frame _ hass) by congruence. fold comps.
    rewrite (async_get_component_resources_again _ ext _ _ _ _ _ hass2 Hprim)
      by (by apply Hf2).
    rewrite (async_get_component_resources_again _ ext _ _ _ _ _ hass2 Heng eq_refl).
    by rewrite Hr.
Qed.

Lemma translations_idempotent_witness :
  exists hass' r,
    async_get_translations demo_ext "nl" None None None demo_hass = (hass', Return r)
    /\ async_get_translations demo_ext "nl" None None None hass' = (hass', Return r).
Proof.
  destruct (async_get_translations demo_ext "nl" None None None demo_hass)
    as [hass' [r|e]] eqn:Hrun; [| by vm_compute in Hrun].
  exists hass', r. split; [done |].
  apply (translations_idempotent demo_ext "nl" None None None demo_hass hass' r Hrun).
Defined.

(** X14. After a request for a language other than English has returned,
    the English partition holds every component of the request: a request
    for English on the host it left makes no call, leaves the host as it
    is, and returns the very mapping that served as the fallback, that
    is, the flattened result of the English fetch of the first request,
    which that request merged under the flattened result of its own
    language. *)
Theorem english_cached_after_fallback
    ext language category integration config_flow hass hass' r :
  language <> "en" ->
  async_get_translations ext language category integration config_flow hass
  = (hass', Return r) ->
  exists hass1 prim eng primary fallback,
    async_get_component_resources ext language
      (select_components ext hass integration config_flow) hass = (hass1, Return prim)
    /\ async_get_component_resources ext "en"
         (select_components ext hass integration config_flow) hass1 = (hass', Return eng)
    /\ present category prim = Return primary
    /\ present category eng = Return fallback
    /\ r = dict_merge fallback primary
    /\ async_get_translations ext "en" category integration config_flow hass'
       = (hass', Return fallback).
Proof.
  intros Hne. rewrite async_get_translations_run. cbv zeta.
  set (comps := select_components ext hass integration config_flow).
  destruct (async_get_component_resources ext language comps hass)
    as [hass1 [prim|e]] eqn:Hprim; [| by repeat case_match].
  pose proof (async_get_component_resources_frame ext language comps hass) as [Hc1 _].
  rewrite Hprim in Hc1. cbn [fst] in Hc1.
  apply String.eqb_neq in Hne as ->.
  destruct (async_get_component_resources ext "en" comps hass1)
    as [hass2 [eng|e]] eqn:Heng; [| done].
  pose proof (async_get_component_resources_frame ext "en" comps hass1) as [Hc2 _].
  rewrite Heng in Hc2. cbn [fst] in Hc2.
  pose proof (async_get_component_resources_NoDup _ _ _ _ _ _ Hprim) as Hnd.
  pose proof (async_get_component_resources_NoDup _ _ _ _ _ _ Heng) as Hnd'.
  rewrite !present_run by done. simpl. intros [= <- <-].
  exists hass1, prim, eng. eexists _, _.
  split_and!; [done | done | by apply present_run | by apply present_run | done |].
  rewrite async_get_translations_run. cbv zeta.
  rewrite (select_components_frame _ hass) by congruence. fold comps.
  rewrite (async_get_component_resources_again _ ext _ _ _ _ _ hass2 Heng eq_refl).
  simpl. by rewrite present_run.
Qed.

Lemma english_cached_after_fallback_witness :
  exists hass' fallback primary,
    async_get_translations demo_ext "nl" None None None demo_hass
    = (hass', Return (dict_merge fallback primary))
    /\ async_get_translations demo_ext "en" None None None hass' = (hass', Return fallback)
    /\ dict_get "component.hue.state.off" fallback = Some (JStr "Off").
Proof.
  destruct (async_get_translations demo_ext "nl" None None None demo_hass)
    as [hass' [r|e]] eqn:Hrun; [| by vm_compute in Hrun].
  destruct (english_cached_after_fallback demo_ext "nl" None None None demo_hass hass' r)
    as (hass1 & prim & eng & primary & fallback & _ & _ & _ & _ & Hr & Hen);
    [discriminate | done |].
  exists hass', fallback, primary. split; [by rewrite Hr |]. split; [exact Hen |].
  vm_compute in Hrun. injection Hrun as <- <-.
  vm_compute in Hen. injection Hen as <-. reflexivity.
Defined.

(** ** Cache manager: what a fill stores *)

Lemma backfill_titles_loop mi loaded : forall acc,
  (forall c, c ∈ keys loaded -> contains dot c = false -> is_Some (dict_get c mi)) ->
  for_each loaded acc (backfill_title mi)
  = Return (acc ++ ((fun ct => (ct.1, title_in mi ct.1 ct.2)) <$> loaded))%list.
Proof.
  induction loaded as [|[c t] loaded IH]; intros acc Hall.
  - simpl. by rewrite app_nil_r.
  - assert (backfill_title mi (c, t) acc = Return (acc ++ [(c, title_in mi c t)])%list)
      as Hstep.
    { unfold backfill_title, title_in. destruct (contains dot c) eqn:E; [done |].
      destruct (dict_mem "title" t); [done |]. simpl.
      destruct (Hall c) as [i Hi]; [left | done |].
      unfold getitem. by rewrite Hi. }
    rewrite for_each_cons, Hstep. simpl. rewrite IH.
    + csimpl. by rewrite <- app_assoc.
    + intros c' Hc'. apply Hall. by right.
Qed.

Lemma load_batch_NoDup paths l : forall files,
  NoDup (keys files) -> NoDup (keys (load_batch paths l files)).
Proof.
  unfold load_batch. induction l as [|x l IH]; intros files Hnd; [done |].
  cbn [fold_left]. apply IH. destruct (paths x); [by apply dict_set_NoDup | done].
Qed.

Lemma merge_loaded_lookup loaded : forall part c,
  NoDup (keys loaded) ->
  merge_loaded loaded part !! c
  = match dict_get c loaded with Some t => Some t | None => part !! c end.
Proof.
  unfold merge_loaded. induction loaded as [|[k v] loaded IH]; intros part c Hnd; [done |].
  rewrite keys_cons in Hnd. apply NoDup_cons in Hnd as [Hk Hnd].
  cbn [fold_left fst snd]. rewrite IH by done. simpl.
  destruct (String.eqb_spec c k) as [->|Hne].
  - apply dict_get_None in Hk. by rewrite Hk, lookup_insert_eq.
  - by rewrite lookup_insert_ne.
Qed.

Lemma dict_get_fmap {V W} (g : string -> V -> W) (l : dict V) c :
  dict_get c ((fun ct => (ct.1, g ct.1 ct.2)) <$> l) = g c <$> dict_get c l.
Proof.
  induction l as [|[k v] l IH]; [done |]. csimpl.
  destruct (String.eqb_spec c k) as [->|?]; [done | apply IH].
Qed.

Lemma keys_fmap_values {V W} (g : string -> V -> W) (l : dict V) :
  keys ((fun ct => (ct.1, g ct.1 ct.2)) <$> l) = keys l.
Proof. unfold keys. by rewrite <- list_fmap_compose. Qed.

Lemma resolve_all_returns ext domains :
  (forall d, d ∈ domains -> is_Some (async_get_integration ext d)) ->
  exists integrations, resolve_all ext domains = Return integrations.
Proof.
  induction domains as [|d domains IH]; intros Hall; [by eexists |].
  destruct (Hall d) as [i Hi]; [left |].
  destruct IH as [ints Hints]; [intros; apply Hall; by right |].
  exists (i :: ints). simpl. by rewrite Hi, Hints.
Qed.

(** The run of a fill whose integrations all resolve and whose files all
    load, with the trees it stores. *)
Lemma async_get_component_resources_filled ext language comps hass integrations :
  let part0 := partition_of hass language in
  let missing := missing_of part0 comps in
  let domains := domains_of missing in
  let mi := dict_update [] (zip domains integrations) in
  let paths := path_in language mi in
  let part1 := negative_markers paths missing part0 in
  let files := load_batch paths missing [] in
  let loaded := (fun ct => (ct.1, title_in mi ct.1 (parsed ext ct.2))) <$> files in
  resolve_all ext domains = Return integrations ->
  Forall (fun p => loadable ext p = true) files.*2 ->
  async_get_component_resources ext language comps hass
  = (with_partition language (merge_loaded loaded part1)
       (with_calls hass
          (calls hass ++ (Resolve <$> domains) ++ (Load <$> files.*2))),
     build_resources (merge_loaded loaded part1) comps).
Proof.
  intros part0 missing domains mi paths part1 files loaded Hres Hload. subst loaded.
  destruct (async_get_component_resources_resolved
              ext language comps hass integrations Hres) as (Hmi & Hempty & _).
  fold part0 missing domains mi paths part1 files in Hmi, Hempty.
  assert (NoDup (keys files)) as Hnd by (apply load_batch_NoDup, NoDup_nil_2).
  destruct (decide (files = [])) as [Hnil|Hne].
  { rewrite (Hempty Hnil), Hnil. simpl.
    unfold with_calls. simpl. by rewrite app_nil_r. }
  set (hass1 := with_calls hass (calls hass ++ (Resolve <$> domains))).
  assert (async_get_component_resources ext language comps hass
          = ((match files with
              | [] => mret ()
              | _ :: _ =>
                  loaded_translations ← load_translations_files ext files;
                  loaded_translations ← lift (backfill_titles mi loaded_translations);
                  cache_update language loaded_translations
              end ≫= fun _ : () =>
              translation_cache ← cache_partition language;
              lift (build_resources translation_cache comps))
               (with_partition language part1 hass1))) as ->.
  { unfold async_get_component_resources.
    rewrite bind_run, cache_setdefault_run. fold part0. fold (missing_of part0 comps).
    fold missing. fold (domains_of missing). fold domains.
    rewrite bind_run, gather_integrations_run, Hres. fold mi.
    rewrite bind_run.
    change (with_calls (with_partition language part0 hass)
              (calls (with_partition language part0 hass) ++ (Resolve <$> domains)))
      with (with_partition language part0 hass1).
    by rewrite (determine_paths_run language mi missing [] part0 hass1 Hmi). }
  destruct files as [|file files'] eqn:Efiles; [done |].
  rewrite <- Efiles in *. clear Efiles file files' Hne.
  rewrite !bind_run. rewrite load_translations_files_loads_all by done.
  unfold lift at 1, backfill_titles.
  rewrite (backfill_titles_loop mi _ []).
  - rewrite app_nil_l, <- list_fmap_compose.
    change ((fun ct : string * tree => (ct.1, title_in mi ct.1 ct.2))
            ∘ (fun cp : string * string => (cp.1, parsed ext cp.2)))
      with (fun ct : string * string => (ct.1, title_in mi ct.1 (parsed ext ct.2))).
    cbv beta iota. rewrite bind_run. cbv beta iota.
    change (with_calls (with_partition language part1 hass1)
              (calls (with_partition language part1 hass1) ++ (Load <$> files.*2)))
      with (with_partition language part1
              (with_calls hass
                 ((calls hass ++ (Resolve <$> domains)) ++ (Load <$> files.*2)))).
    rewrite cache_update_run, bind_run, cache_partition_run.
    rewrite partition_of_with_partition. unfold lift. by rewrite <- app_assoc.
  - intros c Hc Hdot. rewrite (keys_fmap_values (fun _ p => parsed ext p)) in Hc.
    rewrite <- (last_part_no_dot c) at 1 by done. apply Hmi.
    apply load_batch_keys in Hc as [?%elem_of_nil|[? _]]; done.
Qed.

(** X15. When a fill returns, a requested id that had no entry has the
    empty tree if it has no translation file, and otherwise the mapping
    its file parses to, which for a single-segment id without a [title]
    is completed with the display name of its integration under [title];
    the tree of an id with a dot is stored as loaded. *)
Theorem fill_stores_loaded_trees ext language comps hass hass' r :
  async_get_component_resources ext language comps hass = (hass', Return r) ->
  forall c, c ∈ comps -> cache_entry hass language c = None ->
    cache_entry hass' language c = filled_entry ext language c.
Proof.
  intros Hrun c Hc Hn.
  destruct (async_get_component_resources_effect ext language comps hass)
    as (part' & cs & o & Hrun' & _ & _ & _ & _ & Ho & _).
  rewrite Hrun in Hrun'. injection Hrun' as _ <-. destruct Ho as (_ & _ & Hgood).
  clear part' cs.
  set (part0 := partition_of hass language) in *.
  set (missing := missing_of part0 comps).
  set (domains := domains_of missing).
  assert (forall c, c ∈ missing <-> c ∈ comps /\ part0 !! c = None) as Hmissing.
  { intros c'. apply elem_of_missing_of. }
  destruct (resolve_all_returns ext domains) as [integrations Hres].
  { intros d (c' & [Hc' Hn']%Hmissing & <-)%elem_of_domains_of.
    destruct (Hgood c' Hc' Hn') as (q & Hq & _). unfold resolve_path in Hq.
    destruct (async_get_integration ext (last_part (split dot c'))); [by eexists | done]. }
  pose proof (async_get_component_resources_filled
                ext language comps hass integrations Hres) as Hfilled.
  cbv zeta in Hfilled. fold part0 missing domains in Hfilled.
  set (mi := dict_update [] (zip domains integrations)) in *.
  set (paths := path_in language mi) in *.
  set (files := load_batch paths missing []) in *.
  assert (forall c, c ∈ missing -> resolve_path ext language c = Some (paths c)) as Hpaths.
  { intros c' Hc'. by apply (path_in_resolve_path ext language missing integrations). }
  rewrite Hfilled in Hrun.
  2: { apply Forall_forall. intros p ([c' p'] & -> & Hin)%list_elem_of_fmap.
       apply load_batch_elem in Hin as [?%elem_of_nil|[Hc' Hp']]; [done |].
       pose proof Hc' as [Hc'' Hn'']%Hmissing.
       destruct (Hgood c' Hc'' Hn'') as (q & Hq & Hload). apply Hload.
       rewrite Hpaths, Hp' in Hq by done. by injection Hq as <-. }
  injection Hrun as <- _.
  rewrite <- cache_entry_partition in Hn. fold part0 in Hn.
  assert (c ∈ missing) as Hm by (by apply Hmissing).
  rewrite cache_entry_with_partition, decide_True by done.
  rewrite merge_loaded_lookup.
  2: { rewrite (keys_fmap_values (fun c p => title_in mi c (parsed ext p))).
       apply load_batch_NoDup, NoDup_nil_2. }
  rewrite (dict_get_fmap (fun c p => title_in mi c (parsed ext p))).
  unfold files. rewrite load_batch_get, bool_decide_eq_true_2 by done.
  unfold filled_entry. rewrite Hpaths by done.
  destruct (paths c) as [p|] eqn:Ep; simpl.
  - f_equal. unfold title_in, with_title.
    destruct (contains dot c) eqn:Hdot; [done |].
    destruct (dict_mem "title" (parsed ext p)); [done |].
    unfold mi. rewrite (missing_integrations_lookup ext); [done | | done |].
    + apply domains_of_NoDup.
    + apply elem_of_domains_of. exists c. split; [done |]. by apply last_part_no_dot.
  - rewrite negative_markers_lookup, bool_decide_eq_true_2; done.
Qed.

Lemma fill_stores_loaded_trees_witness :
  exists hass',
    (async_get_component_resources demo_ext "nl" ["hue"; "light.hue"; "my"] demo_hass).1
    = hass'
    /\ cache_entry hass' "nl" "hue"
       = Some [("state", JDict [("on", JStr "Aan")]); ("title", JStr "Philips Hue")]
    /\ cache_entry hass' "nl" "light.hue" = Some [("name", JStr "Licht")]
    /\ cache_entry hass' "nl" "my" = Some [].
Proof.
  destruct (async_get_component_resources demo_ext "nl" ["hue"; "light.hue"; "my"] demo_hass)
    as [hass' [r|e]] eqn:Hrun; [| by vm_compute in Hrun].
  exists hass'. split; [done |].
  pose proof (fill_stores_loaded_trees demo_ext "nl" ["hue"; "light.hue"; "my"]
                demo_hass hass' r Hrun) as H.
  split_and!.
  - apply (H "hue"); [left | reflexivity].
  - apply (H "light.hue"); [right; left | reflexivity].
  - apply (H "my"); [right; right; left | reflexivity].
Defined.

(** ** Translation service: what a request touches *)

Lemma async_get_component_resources_touch ext language comps hass :
  (forall lang c t,
     cache_entry hass lang c = Some t ->
     cache_entry (async_get_component_resources ext language comps hass).1 lang c = Some t)
  /\ (forall lang c,
        c ∉ comps \/ lang <> language ->
        cache_entry (async_get_component_resources ext language comps hass).1 lang c
        = cache_entry hass lang c)
  /\ (exists cs,
        calls (async_get_component_resources ext language comps hass).1
        = (calls hass ++ cs)%list
        /\ forall k, k ∈ cs ->
             exists c, c ∈ comps
               /\ (k = Resolve (last_part (split dot c))
                   \/ exists p, resolve_path ext language c = Some (Some p) /\ k = Load p)).
Proof.
  destruct (async_get_component_resources_effect ext language comps hass)
    as (part' & cs & o & -> & Hkept & Hnew & Hcalls & _).
  cbn [fst].
  assert (forall lang c t,
            cache_entry hass lang c = Some t ->
            cache_entry (with_partition language part' (with_calls hass (calls hass ++ cs)))
              lang c = Some t) as Hkeep.
  { intros lang c t Ht. rewrite cache_entry_with_partition.
    case_decide as Hl; [subst lang | done].
    apply Hkept. by rewrite cache_entry_partition. }
  split_and!; [done | |].
  - intros lang c Hout.
    destruct (cache_entry hass lang c) as [t|] eqn:E; [by apply Hkeep |].
    rewrite cache_entry_with_partition. case_decide as Hl; [subst lang | done].
    destruct (part' !! c) as [t|] eqn:E'; [| done].
    rewrite <- cache_entry_partition in E. destruct (Hnew c t E E') as [Hc _].
    by destruct Hout.
  - exists cs. split; [done |]. intros k Hk.
    destruct (Hcalls k Hk) as (c & ? & _ & ?). eauto.
Qed.

Lemma async_get_component_resources_complete ext language comps hass r :
  (async_get_component_resources ext language comps hass).2 = Return r ->
  forall c, c ∈ comps ->
    is_Some (cache_entry (async_get_component_resources ext language comps hass).1 language c).
Proof.
  destruct (async_get_component_resources_effect ext language comps hass)
    as (part' & cs & o & -> & _ & _ & _ & _ & Ho & _).
  cbn [fst snd]. intros -> c Hc. destruct Ho as (Hall & _).
  rewrite cache_entry_with_partition. rewrite decide_True by done. by apply Hall.
Qed.

Lemma select_components_requested ext hass integration config_flow c :
  c ∈ select_components ext hass integration config_flow
  <-> requested ext hass integration config_flow c.
Proof.
  unfold select_components, requested. destruct integration as [i|].
  - apply list_elem_of_singleton.
  - destruct config_flow as [[|]|]; simpl; rewrite elem_of_remove_dups.
    + rewrite elem_of_app. split; [intros [?|?]; auto | intros [?|[_ ?]]; auto].
    + split; [auto | by intros [?|[[=] _]]].
    + split; [auto | by intros [?|[[=] _]]].
Qed.

(** The host a request leaves: that of the fetch for the requested
    language and, unless that language is English, of the English fetch
    after it, whether or not they return. *)
Lemma async_get_translations_host ext language category integration config_flow hass :
  (async_get_translations ext language category integration config_flow hass).1
  = let comps := select_components ext hass integration config_flow in
    let hass1 := (async_get_component_resources ext language comps hass).1 in
    if String.eqb language "en" then hass1
    else (async_get_component_resources ext "en" comps hass1).1.
Proof.
  rewrite async_get_translations_run. cbv zeta.
  destruct (async_get_component_resources ext language
              (select_components ext hass integration config_flow) hass)
    as [hass1 [prim|e]]; cbn [fst];
    (destruct (String.eqb language "en"); [done |]);
    by destruct (async_get_component_resources ext "en"
                   (select_components ext hass integration config_flow) hass1)
      as [hass2 [eng|e']].
Qed.

(** A request returns only when each of its fetches does. *)
Lemma async_get_translations_returns ext language category integration config_flow hass r :
  (async_get_translations ext language category integration config_flow hass).2 = Return r ->
  let comps := select_components ext hass integration config_flow in
  let hass1 := (async_get_component_resources ext language comps hass).1 in
  (exists prim, (async_get_component_resources ext language comps hass).2 = Return prim)
  /\ (language <> "en" ->
      exists eng, (async_get_component_resources ext "en" comps hass1).2 = Return eng).
Proof.
  rewrite async_get_translations_run. cbv zeta.
  destruct (async_get_component_resources ext language
              (select_components ext hass integration config_flow) hass)
    as [hass1 [prim|e]]; cbn [fst snd]; [| by repeat case_match].
  destruct (String.eqb_spec language "en") as [->|Hne].
  { intros _. split; [by eexists | done]. }
  destruct (async_get_component_resources ext "en"
              (select_components ext hass integration config_flow) hass1)
    as [hass2 [eng|e']]; cbn [fst snd]; [| done].
  intros _. split; [by eexists | intros _; by eexists].
Qed.

(** X16. A request, whether it returns or raises, writes and fetches for
    its own components only: the integration named in the request, or,
    when none is named, the loaded components, with the integrations
    that have a config flow if [config_flow] is true.  The entries of the
    cache it found are kept as they are; an entry can be new only for one
    of these components, in the requested language or in English; and
    every call to the registry or to the loader is made for one of them.
    When the request returns, each of them has an entry in both
    languages. *)
Theorem request_touches_only_selected ext language category integration config_flow hass :
  let hass' := (async_get_translations ext language category integration config_flow hass).1 in
  (forall lang c t, cache_entry hass lang c = Some t -> cache_entry hass' lang c = Some t)
  /\ (forall lang c,
        ~ requested ext hass integration config_flow c
        \/ (lang <> language /\ lang <> "en") ->
        cache_entry hass' lang c = cache_entry hass lang c)
  /\ (exists cs,
        calls hass' = (calls hass ++ cs)%list
        /\ forall k, k ∈ cs ->
             exists c, requested ext hass integration config_flow c
               /\ (k = Resolve (last_part (split dot c))
                   \/ exists lang p,
                        (lang = language \/ lang = "en")
                        /\ resolve_path ext lang c = Some (Some p) /\ k = Load p))
  /\ (forall r,
        (async_get_translations ext language category integration config_flow hass).2
        = Return r ->
        forall c, requested ext hass integration config_flow c ->
          is_Some (cache_entry hass' language c) /\ is_Some (cache_entry hass' "en" c)).
Proof.
  intros hass'. unfold hass'. clear hass'. rewrite async_get_translations_host. cbv zeta.
  pose proof (async_get_translations_returns ext language category integration
                config_flow hass) as Hret. cbv zeta in Hret.
  pose proof (select_components_requested ext hass integration config_flow) as Hsel.
  set (comps := select_components ext hass integration config_flow) in *.
  destruct (async_get_component_resources_touch ext language comps hass)
    as (Hkeep1 & Hout1 & cs1 & Hcs1 & Hcalls1).
  pose proof (async_get_component_resources_complete ext language comps hass) as Hall1.
  set (hass1 := (async_get_component_resources ext language comps hass).1) in *.
  assert (forall k, k ∈ cs1 ->
            exists c, requested ext hass integration config_flow c
              /\ (k = Resolve (last_part (split dot c))
                  \/ exists lang p,
                       (lang = language \/ lang = "en")
                       /\ resolve_path ext lang c = Some (Some p) /\ k = Load p)) as Hcalls1'.
  { intros k Hk. destruct (Hcalls1 k Hk) as (c & Hc%Hsel & [?|(p & ? & ?)]);
      exists c; (split; [done |]); [by left | right; exists language, p; auto]. }
  assert (forall lang c,
            ~ requested ext hass integration config_flow c
            \/ (lang <> language /\ lang <> "en") ->
            cache_entry hass1 lang c = cache_entry hass lang c) as Hout1'.
  { intros lang c [Hc|[? _]]; apply Hout1; [left; by rewrite Hsel | by right]. }
  destruct (String.eqb_spec language "en") as [Hen|Hne].
  - split_and!; [done | done | by exists cs1 |].
    intros r Hr c Hc%Hsel. destruct (proj1 (Hret r Hr)) as (prim & Hprim).
    pose proof (Hall1 prim Hprim c Hc) as Hsome. by rewrite <- Hen.
  - destruct (async_get_component_resources_touch ext "en" comps hass1)
      as (Hkeep2 & Hout2 & cs2 & Hcs2 & Hcalls2).
    pose proof (async_get_component_resources_complete ext "en" comps hass1) as Hall2.
    set (hass2 := (async_get_component_resources ext "en" comps hass1).1) in *.
    split_and!.
    + intros lang c t Ht. by apply Hkeep2, Hkeep1.
    + intros lang c Hout. rewrite Hout2; [by apply Hout1' |].
      destruct Hout as [Hc|[_ ?]]; [left; by rewrite Hsel | by right].
    + exists (cs1 ++ cs2)%list. split; [by rewrite Hcs2, Hcs1, app_assoc |].
      intros k [Hk|Hk]%elem_of_app; [by apply Hcalls1' |].
      destruct (Hcalls2 k Hk) as (c & Hc%Hsel & [?|(p & ? & ?)]);
        exists c; (split; [done |]); [by left | right; exists "en", p; auto].
    + intros r Hr c Hc%Hsel. destruct (Hret r Hr) as [(prim & Hprim) Heng].
      destruct (Heng Hne) as (eng & Heng').
      split; [| by apply (Hall2 eng)].
      destruct (Hall1 prim Hprim c Hc) as [t Ht]. exists t. by apply Hkeep2.
Qed.

Lemma request_touches_only_selected_witness :
  cache_entry
    (async_get_translations demo_ext "nl" None (Some "my") None warm_hass).1 "nl" "hue"
  = cache_entry warm_hass "nl" "hue"
  /\ is_Some (cache_entry
                (async_get_translations demo_ext "nl" None (Some "my") None warm_hass).1
                "en" "my").
Proof.
  destruct (request_touches_only_selected demo_ext "nl" None (Some "my") None warm_hass)
    as (_ & Hout & _ & Hall).
  split.
  - apply Hout. left. unfold requested. discriminate.
  - destruct (async_get_translations demo_ext "nl" None (Some "my") None warm_hass).2
      as [r|e] eqn:Hrun; [| by vm_compute in Hrun].
    apply (Hall r eq_refl "my"). reflexivity.
Defined.

(** ** Translation service: a fetch that fails *)


